(** * BFV fixture reconciliation: a shallow embedding of [bfvImportService.ts]

    The development embeds the import service of the club portal
    (key generator, field resolver, change detector and the reconciler
    [importBfvMatches]) together with the parts of [dbStorage.ts] and
    [shared/schema.ts] it calls, and proves the properties the
    specification states about them.

    Conventions of the embedding:
    - a JavaScript string is a [string] whose characters are the code units
      U+0000..U+00FF (Latin-1), which covers the German team names the
      service handles; [toLowerCase] and [trim] are written out for that
      range;
    - [undefined]/[null] are [None];
    - the Postgres tables are lists of rows in insertion order, a query
      [const [row] = await db.select()...where(p)] is [head (filter p rows)];
      an UPDATE writes a row at its place in the list, whereas PostgreSQL
      may return an updated row later: a property about a lookup that can
      find several rows says which it takes, or holds for every order;
    - every call that reaches the database may be rejected by the database
      (connection loss, constraint violation, value too long): the store
      carries the schedule of the rejections still to come, one entry per
      database call, and a rejected call throws and changes no table;
    - [randomUUID()] draws from a counter; the wall-clock columns
      [createdAt]/[updatedAt] are left out. *)

From stdpp Require Import base decidable option list strings gmap.
From Stdlib Require Import Ascii Lia.

Local Open Scope string_scope.
Local Open Scope list_scope.

(** ** JavaScript string primitives (Latin-1 range) *)

Module Js.

Definition code (c : ascii) : nat := nat_of_ascii c.

(** [String.prototype.toLowerCase] on one code unit: A-Z and the Latin-1
    capitals U+00C0..U+00DE (U+00D7, the multiplication sign, apart) move
    up by 32. *)
Definition lowerChar (c : ascii) : ascii :=
  let n := code c in
  if (((65 <=? n) && (n <=? 90))
      || ((192 <=? n) && (n <=? 222) && negb (n =? 215)))%nat
  then ascii_of_nat (n + 32) else c.

Fixpoint toLowerCase (s : string) : string :=
  match s with
  | EmptyString => EmptyString
  | String c s' => String (lowerChar c) (toLowerCase s')
  end.

(** WhiteSpace and LineTerminator code units below U+0100: TAB, LF, VT, FF,
    CR, SP and NBSP. *)
Definition isWhiteSpace (c : ascii) : bool :=
  let n := code c in
  (((9 <=? n) && (n <=? 13)) || (n =? 32) || (n =? 160))%nat.

Fixpoint trimStart (s : string) : string :=
  match s with
  | EmptyString => EmptyString
  | String c s' => if isWhiteSpace c then trimStart s' else s
  end.

Fixpoint trimEnd (s : string) : string :=
  match s with
  | EmptyString => EmptyString
  | String c s' =>
      match trimEnd s' with
      | EmptyString => if isWhiteSpace c then EmptyString else String c EmptyString
      | t => String c t
      end
  end.

Definition trim (s : string) : string := trimEnd (trimStart s).

(** Truthiness of a string: only the empty string is falsy. *)
Definition truthy (s : string) : bool := negb (String.eqb s "").

(** [s || null] for [s : string] and [o || null] for [o : string | undefined]. *)
Definition strOrNull (s : string) : option string :=
  if truthy s then Some s else None.

Definition optOrNull (o : option string) : option string :=
  match o with Some s => strOrNull s | None => None end.

(** [Array.prototype.join]. *)
Fixpoint join (sep : string) (l : list string) : string :=
  match l with
  | [] => ""
  | [x] => x
  | x :: l' => x +:+ sep +:+ join sep l'
  end.

End Js.

(** ** shared/schema.ts *)

Inductive EventSource := BFV | MANUAL.
Inductive EventStatus := ACTIVE | CANCELLED | ARCHIVED.
Inductive EventType := spiel | training | turnier | vereinsevent | platzsperrung | sonstiges.
Inductive Team :=
  | herren | herren2 | a_jugend | b_jugend | c_jugend | d_jugend
  | e_jugend | f_jugend | g_jugend | damen | alte_herren.
Inductive Field := a_platz | b_platz.

#[global] Instance EventSource_eq_dec : EqDecision EventSource.
Proof. solve_decision. Defined.
#[global] Instance EventStatus_eq_dec : EqDecision EventStatus.
Proof. solve_decision. Defined.
#[global] Instance EventType_eq_dec : EqDecision EventType.
Proof. solve_decision. Defined.
#[global] Instance Team_eq_dec : EqDecision Team.
Proof. solve_decision. Defined.
#[global] Instance Field_eq_dec : EqDecision Field.
Proof. solve_decision. Defined.

(** The text of a [Field] value, as a template literal prints it. *)
Definition fieldText (f : Field) : string :=
  match f with a_platz => "a-platz" | b_platz => "b-platz" end.

(** A row of [calendarEventsTable]. *)
Record CalendarEventDb := {
  id : nat;
  source : EventSource;
  externalId : option string;
  recurringGroupId : option string;
  type : EventType;
  title : string;
  team : option Team;
  teamHome : option string;
  teamAway : option string;
  field : option Field;
  date : string;
  startTime : string;
  endTime : string;
  isHomeGame : option bool;
  opponent : option string;
  location : option string;
  competition : option string;
  description : option string;
  rawPayload : option string;
  status : EventStatus
}.

(** A row of [fieldMappingsTable]. *)
Record FieldMappingDb := {
  fm_team : Team;
  fm_eventType : EventType;
  fm_defaultField : Field
}.

(** The values of a row of [bfvImportHistoryTable]. *)
Record InsertBfvImportHistoryDb := {
  h_createdCount : nat;
  h_updatedCount : nat;
  h_unchangedCount : nat;
  h_archivedCount : nat;
  h_errorCount : nat;
  h_fileName : option string;
  h_notes : option string
}.

(** The API view of an event. *)
Record CalendarEvent := {
  ev_id : nat;
  ev_title : string;
  ev_type : EventType;
  ev_team : option Team;
  ev_field : option Field;
  ev_date : string;
  ev_startTime : string;
  ev_endTime : string;
  ev_isHomeGame : option bool;
  ev_opponent : option string;
  ev_location : option string;
  ev_competition : option string;
  ev_description : option string;
  ev_bfvImported : bool;
  ev_bfvMatchId : option string;
  ev_recurringGroupId : option string
}.

Record BfvImportSummary := {
  createdCount : nat;
  updatedCount : nat;
  unchangedCount : nat;
  archivedCount : nat;
  errorCount : nat;
  errors : list string
}.

(** ** bfvImportService.ts: data and pure helpers *)

Record ParsedBfvMatch := {
  m_externalId : string;
  m_date : string;
  m_startTime : string;
  m_endTime : string;
  m_teamHome : string;
  m_teamAway : string;
  m_team : Team;
  m_isHomeGame : bool;
  m_opponent : string;
  m_competition : string;
  m_location : option string;
  m_rawData : option string
}.

Definition generateMatchKey (teamHome teamAway date : string)
    (competition : option string) : string :=
  let normalizedHome := Js.trim (Js.toLowerCase teamHome) in
  let normalizedAway := Js.trim (Js.toLowerCase teamAway) in
  let key := normalizedHome +:+ "|" +:+ normalizedAway +:+ "|" +:+ date in
  match competition with
  | Some c =>
      if Js.truthy c then key +:+ "|" +:+ Js.trim (Js.toLowerCase c) else key
  | None => key
  end.

Definition generateExternalId (m : ParsedBfvMatch) : string :=
  if Js.truthy (m_externalId m) && (0 <? String.length (m_externalId m))%nat
  then m_externalId m
  else generateMatchKey (m_teamHome m) (m_teamAway m) (m_date m) (Some (m_competition m)).

Record UpdateCheck := { needsUpdate : bool; changes : list string }.

(** [x || "keiner"] in the change messages. *)
Definition orKeiner (o : option string) : string :=
  match o with
  | Some s => if Js.truthy s then s else "keiner"
  | None => "keiner"
  end.

Definition matchNeedsUpdate (existing : CalendarEvent) (m : ParsedBfvMatch)
    (newField : option Field) : UpdateCheck :=
  let changes : list string := [] in
  let changes :=
    if bool_decide (ev_date existing <> m_date m)
    then changes ++ ["Datum: " +:+ ev_date existing +:+ " -> " +:+ m_date m]
    else changes in
  let changes :=
    if bool_decide (ev_startTime existing <> m_startTime m)
    then changes ++ ["Startzeit: " +:+ ev_startTime existing +:+ " -> " +:+ m_startTime m]
    else changes in
  let changes :=
    if bool_decide (ev_endTime existing <> m_endTime m)
    then changes ++ ["Endzeit: " +:+ ev_endTime existing +:+ " -> " +:+ m_endTime m]
    else changes in
  let changes :=
    match newField with
    | Some f =>
        if bool_decide (ev_field existing <> Some f)
        then changes ++ ["Platz: " +:+ orKeiner (fieldText <$> ev_field existing)
                           +:+ " -> " +:+ fieldText f]
        else changes
    | None => changes
    end in
  let changes :=
    match m_location m with
    | Some l =>
        if Js.truthy l && bool_decide (ev_location existing <> Some l)
        then changes ++ ["Ort: " +:+ orKeiner (ev_location existing) +:+ " -> " +:+ l]
        else changes
    | None => changes
    end in
  let changes :=
    if Js.truthy (m_competition m)
       && bool_decide (ev_competition existing <> Some (m_competition m))
    then changes ++ ["Wettbewerb: " +:+ orKeiner (ev_competition existing)
                       +:+ " -> " +:+ m_competition m]
    else changes in
  {| needsUpdate := (0 <? length changes)%nat; changes := changes |}.

(** ** The store and the effects of the service *)

(** The tables of the database the service works on, the UUID counter, and
    the schedule of the database's rejections: the n-th database call from
    now throws the n-th entry's message when there is one. *)
Record Store := {
  calendarEvents : list CalendarEventDb;
  fieldMappings : list FieldMappingDb;
  bfvImportHistory : list InsertBfvImportHistoryDb;
  uuidCounter : nat;
  rejections : list (option string)
}.

Definition withEvents (evs : list CalendarEventDb) (s : Store) : Store :=
  {| calendarEvents := evs; fieldMappings := fieldMappings s;
     bfvImportHistory := bfvImportHistory s; uuidCounter := uuidCounter s;
     rejections := rejections s |}.

Definition withHistory (h : list InsertBfvImportHistoryDb) (s : Store) : Store :=
  {| calendarEvents := calendarEvents s; fieldMappings := fieldMappings s;
     bfvImportHistory := h; uuidCounter := uuidCounter s;
     rejections := rejections s |}.

Definition withUuidCounter (n : nat) (s : Store) : Store :=
  {| calendarEvents := calendarEvents s; fieldMappings := fieldMappings s;
     bfvImportHistory := bfvImportHistory s; uuidCounter := n;
     rejections := rejections s |}.

Definition withRejections (r : list (option string)) (s : Store) : Store :=
  {| calendarEvents := calendarEvents s; fieldMappings := fieldMappings s;
     bfvImportHistory := bfvImportHistory s; uuidCounter := uuidCounter s;
     rejections := r |}.

(** The result of a computation that may throw, and the monad of
    computations over a state [S] that survive an exception. *)
Inductive Res (A : Type) := Ok (a : A) | Throw (msg : string).
Arguments Ok {A} a.
Arguments Throw {A} msg.

Definition M (S A : Type) : Type := S -> Res A * S.

Definition ret {S A} (a : A) : M S A := fun s => (Ok a, s).

Definition bind {S A B} (c : M S A) (k : A -> M S B) : M S B :=
  fun s =>
    match c s with
    | (Ok a, s') => k a s'
    | (Throw msg, s') => (Throw msg, s')
    end.

Definition throw {S A} (msg : string) : M S A := fun s => (Throw msg, s).

Definition gets {S A} (f : S -> A) : M S A := fun s => (Ok (f s), s).

Definition modify {S} (f : S -> S) : M S unit := fun s => (Ok tt, f s).

(** [try { body } catch (error) { handler(error.message) }] *)
Definition tryCatch {S A} (body : M S A) (handler : string -> M S A) : M S A :=
  fun s =>
    match body s with
    | (Ok a, s') => (Ok a, s')
    | (Throw msg, s') => handler msg s'
    end.

Declare Scope js_scope.
Delimit Scope js_scope with js.
Notation "'let!' x ':=' c 'in' k" := (bind c (fun x => k))
  (at level 10, x name, c at level 100, k at level 200) : js_scope.
Local Open Scope js_scope.

(** [for (const x of l) { body(x) }] *)
Fixpoint forOf {S A} (l : list A) (body : A -> M S unit) : M S unit :=
  match l with
  | [] => ret tt
  | x :: l' => let! _ := body x in forOf l' body
  end.

(** *** The database driver *)

(** Every query passes through [dbCall], which consumes one entry of the
    rejection schedule. *)
Definition dbCall : M Store unit := fun s =>
  match rejections s with
  | [] => (Ok tt, s)
  | None :: rest => (Ok tt, withRejections rest s)
  | Some msg :: rest => (Throw msg, withRejections rest s)
  end.

(** [db.select().from(calendarEventsTable).where(p)] *)
Definition selectEvents (p : CalendarEventDb -> Prop) `{!forall e, Decision (p e)}
    : M Store (list CalendarEventDb) :=
  let! _ := dbCall in gets (fun s => filter p (calendarEvents s)).

(** [db.select().from(fieldMappingsTable).where(p)] *)
Definition selectMappings (p : FieldMappingDb -> Prop) `{!forall e, Decision (p e)}
    : M Store (list FieldMappingDb) :=
  let! _ := dbCall in gets (fun s => filter p (fieldMappings s)).

(** The object given to [.set(...)]: a column left [undefined] ([None]
    here) is not written; [Some None] writes NULL into a nullable column. *)
Record EventSet := {
  s_externalId : option (option string);
  s_title : option string;
  s_date : option string;
  s_startTime : option string;
  s_endTime : option string;
  s_field : option (option Field);
  s_location : option (option string);
  s_competition : option (option string);
  s_teamHome : option (option string);
  s_teamAway : option (option string);
  s_rawPayload : option (option string);
  s_status : option EventStatus
}.

Definition applySet (u : EventSet) (e : CalendarEventDb) : CalendarEventDb :=
  {| id := id e;
     source := source e;
     externalId := default (externalId e) (s_externalId u);
     recurringGroupId := recurringGroupId e;
     type := type e;
     title := default (title e) (s_title u);
     team := team e;
     teamHome := default (teamHome e) (s_teamHome u);
     teamAway := default (teamAway e) (s_teamAway u);
     field := default (field e) (s_field u);
     date := default (date e) (s_date u);
     startTime := default (startTime e) (s_startTime u);
     endTime := default (endTime e) (s_endTime u);
     isHomeGame := isHomeGame e;
     opponent := opponent e;
     location := default (location e) (s_location u);
     competition := default (competition e) (s_competition u);
     description := description e;
     rawPayload := default (rawPayload e) (s_rawPayload u);
     status := default (status e) (s_status u) |}.

(** [db.update(calendarEventsTable).set(u).where(p)] *)
Definition updateEvents (u : EventSet) (p : CalendarEventDb -> Prop)
    `{!forall e, Decision (p e)} : M Store unit :=
  let! _ := dbCall in
  modify (fun s =>
    withEvents ((fun e => if decide (p e) then applySet u e else e) <$> calendarEvents s) s).

(** [db.insert(calendarEventsTable).values(row)] *)
Definition insertEvent (row : CalendarEventDb) : M Store unit :=
  let! _ := dbCall in
  modify (fun s => withEvents (calendarEvents s ++ [row]) s).

(** [db.insert(bfvImportHistoryTable).values(row)] *)
Definition insertHistory (row : InsertBfvImportHistoryDb) : M Store unit :=
  let! _ := dbCall in
  modify (fun s => withHistory (bfvImportHistory s ++ [row]) s).

(** [randomUUID()]: no database call. *)
Definition randomUUID : M Store nat := fun s =>
  (Ok (uuidCounter s), withUuidCounter (S (uuidCounter s)) s).

(** ** dbStorage.ts *)

Definition dbEventToCalendarEvent (dbEvent : CalendarEventDb) : CalendarEvent :=
  {| ev_id := id dbEvent;
     ev_title := title dbEvent;
     ev_type := type dbEvent;
     ev_team := team dbEvent;
     ev_field := field dbEvent;
     ev_date := date dbEvent;
     ev_startTime := startTime dbEvent;
     ev_endTime := endTime dbEvent;
     ev_isHomeGame := isHomeGame dbEvent;
     ev_opponent := opponent dbEvent;
     ev_location := location dbEvent;
     ev_competition := competition dbEvent;
     ev_description := description dbEvent;
     ev_bfvImported := bool_decide (source dbEvent = BFV);
     ev_bfvMatchId := externalId dbEvent;
     ev_recurringGroupId := recurringGroupId dbEvent |}.

Definition getCalendarEventByBfvId (bfvMatchId : string) : M Store (option CalendarEvent) :=
  let! rows := selectEvents (fun e => source e = BFV /\ externalId e = Some bfvMatchId) in
  ret (dbEventToCalendarEvent <$> head rows).

Definition getBfvEventIds : M Store (list string) :=
  let! events := selectEvents (fun e => source e = BFV /\ status e = ACTIVE) in
  ret (omap externalId events).

Definition getDefaultField (team : Team) (eventType : EventType) : M Store (option Field) :=
  let! rows := selectMappings (fun r => fm_team r = team /\ fm_eventType r = eventType) in
  ret (fm_defaultField <$> head rows).

Definition createImportHistory (history : InsertBfvImportHistoryDb) : M Store unit :=
  insertHistory history.

(** ** bfvImportService.ts: the reconciler *)

Definition getDefaultFieldForTeam (team : Team) (isHomeGame : bool) : M Store (option Field) :=
  if negb isHomeGame then ret None
  else
    let! field := getDefaultField team spiel in
    ret field.

(** The local state of one call of [importBfvMatches]: the store, the
    [summary] object and the [processedExternalIds] set. *)
Record Frame := {
  store : Store;
  summary : BfvImportSummary;
  processedExternalIds : gset string
}.

Definition withStore (s : Store) (fr : Frame) : Frame :=
  {| store := s; summary := summary fr; processedExternalIds := processedExternalIds fr |}.

Definition withSummary (sm : BfvImportSummary) (fr : Frame) : Frame :=
  {| store := store fr; summary := sm; processedExternalIds := processedExternalIds fr |}.

(** A store operation run from the service. *)
Definition await {A} (c : M Store A) : M Frame A := fun fr =>
  let (r, s') := c (store fr) in (r, withStore s' fr).

Definition addProcessed (x : string) : M Frame unit :=
  modify (fun fr =>
    {| store := store fr; summary := summary fr;
       processedExternalIds := {[ x ]} ∪ processedExternalIds fr |}).

Definition incCreated (sm : BfvImportSummary) : BfvImportSummary :=
  {| createdCount := S (createdCount sm); updatedCount := updatedCount sm;
     unchangedCount := unchangedCount sm; archivedCount := archivedCount sm;
     errorCount := errorCount sm; errors := errors sm |}.

Definition incUpdated (sm : BfvImportSummary) : BfvImportSummary :=
  {| createdCount := createdCount sm; updatedCount := S (updatedCount sm);
     unchangedCount := unchangedCount sm; archivedCount := archivedCount sm;
     errorCount := errorCount sm; errors := errors sm |}.

Definition incUnchanged (sm : BfvImportSummary) : BfvImportSummary :=
  {| createdCount := createdCount sm; updatedCount := updatedCount sm;
     unchangedCount := S (unchangedCount sm); archivedCount := archivedCount sm;
     errorCount := errorCount sm; errors := errors sm |}.

Definition incArchived (sm : BfvImportSummary) : BfvImportSummary :=
  {| createdCount := createdCount sm; updatedCount := updatedCount sm;
     unchangedCount := unchangedCount sm; archivedCount := S (archivedCount sm);
     errorCount := errorCount sm; errors := errors sm |}.

(** [summary.errorCount++; summary.errors.push(entry)] *)
Definition recordError (entry : string) (sm : BfvImportSummary) : BfvImportSummary :=
  {| createdCount := createdCount sm; updatedCount := updatedCount sm;
     unchangedCount := unchangedCount sm; archivedCount := archivedCount sm;
     errorCount := S (errorCount sm); errors := errors sm ++ [entry] |}.

Definition onSummary (f : BfvImportSummary -> BfvImportSummary) : M Frame unit :=
  modify (fun fr => withSummary (f (summary fr)) fr).

(** The view of the fallback row the service builds inline. *)
Definition fallbackToCalendarEvent (fallbackEvent : CalendarEventDb) : CalendarEvent :=
  {| ev_id := id fallbackEvent;
     ev_title := title fallbackEvent;
     ev_type := type fallbackEvent;
     ev_team := team fallbackEvent;
     ev_field := field fallbackEvent;
     ev_date := date fallbackEvent;
     ev_startTime := startTime fallbackEvent;
     ev_endTime := endTime fallbackEvent;
     ev_isHomeGame := isHomeGame fallbackEvent;
     ev_opponent := opponent fallbackEvent;
     ev_location := location fallbackEvent;
     ev_competition := competition fallbackEvent;
     ev_description := description fallbackEvent;
     ev_bfvImported := true;
     ev_bfvMatchId := externalId fallbackEvent;
     ev_recurringGroupId := None |}.

Definition matchTitle (m : ParsedBfvMatch) : string :=
  if m_isHomeGame m
  then m_teamHome m +:+ " vs " +:+ m_teamAway m
  else m_teamHome m +:+ " vs " +:+ m_teamAway m.

(** The [.set({...})] of the update branch. [field] is the value of
    [match.isHomeGame ? defaultField : null]: [undefined] for a home game
    without a default field, NULL for an away game. *)
Definition updateSet (m : ParsedBfvMatch) (externalId : string) (title : string)
    (defaultField : option Field) : EventSet :=
  {| s_externalId := Some (Some externalId);
     s_title := Some title;
     s_date := Some (m_date m);
     s_startTime := Some (m_startTime m);
     s_endTime := Some (m_endTime m);
     s_field := if m_isHomeGame m then Some <$> defaultField else Some None;
     s_location := Some (Js.optOrNull (m_location m));
     s_competition := Some (Js.strOrNull (m_competition m));
     s_teamHome := Some (Some (m_teamHome m));
     s_teamAway := Some (Some (m_teamAway m));
     s_rawPayload := Some (Js.optOrNull (m_rawData m));
     s_status := None |}.

(** The [.values({...})] of the create branch; a column that is not given,
    or given as [undefined], takes its default NULL. *)
Definition insertValues (m : ParsedBfvMatch) (id : nat) (externalId : string)
    (title : string) (defaultField : option Field) : CalendarEventDb :=
  {| id := id;
     source := BFV;
     externalId := Some externalId;
     recurringGroupId := None;
     type := spiel;
     title := title;
     team := Some (m_team m);
     teamHome := Some (m_teamHome m);
     teamAway := Some (m_teamAway m);
     field := if m_isHomeGame m then defaultField else None;
     date := m_date m;
     startTime := m_startTime m;
     endTime := m_endTime m;
     isHomeGame := Some (m_isHomeGame m);
     opponent := Some (m_opponent m);
     location := Js.optOrNull (m_location m);
     competition := Js.strOrNull (m_competition m);
     description := None;
     rawPayload := Js.optOrNull (m_rawData m);
     status := ACTIVE |}.

Definition archiveSet : EventSet :=
  {| s_externalId := None; s_title := None; s_date := None; s_startTime := None;
     s_endTime := None; s_field := None; s_location := None; s_competition := None;
     s_teamHome := None; s_teamAway := None; s_rawPayload := None;
     s_status := Some ARCHIVED |}.

(** The body of the [try] block for one record. *)
Definition processMatchBody (m : ParsedBfvMatch) : M Frame unit :=
  let externalId := generateExternalId m in
  let! _ := addProcessed externalId in
  let! existingEvent := await (getCalendarEventByBfvId externalId) in
  let! existingEvent :=
    match existingEvent with
    | Some e => ret (Some e)
    | None =>
        let matchKey :=
          generateMatchKey (m_teamHome m) (m_teamAway m) (m_date m) (Some (m_competition m)) in
        let! rows := await (selectEvents (fun e =>
          source e = BFV /\ teamHome e = Some (m_teamHome m)
          /\ teamAway e = Some (m_teamAway m) /\ status e = ACTIVE)) in
        match head rows with
        | Some fallbackEvent => ret (Some (fallbackToCalendarEvent fallbackEvent))
        | None => ret None
        end
    end in
  let! defaultField := await (getDefaultFieldForTeam (m_team m) (m_isHomeGame m)) in
  match existingEvent with
  | Some existingEvent =>
      let chk := matchNeedsUpdate existingEvent m defaultField in
      if needsUpdate chk then
        let title := matchTitle m in
        let! _ := await (updateEvents (updateSet m externalId title defaultField)
                           (fun e => id e = ev_id existingEvent)) in
        onSummary incUpdated
      else onSummary incUnchanged
  | None =>
      let title := matchTitle m in
      let! id := await randomUUID in
      let! _ := await (insertEvent (insertValues m id externalId title defaultField)) in
      onSummary incCreated
  end.

(** One iteration of the loop: the [try] block and its [catch]. *)
Definition processMatch (m : ParsedBfvMatch) : M Frame unit :=
  tryCatch (processMatchBody m)
    (fun errorMsg =>
       onSummary (recordError
         ("Fehler bei " +:+ m_teamHome m +:+ " vs " +:+ m_teamAway m +:+ ": " +:+ errorMsg))).

(** One iteration of the archival loop. *)
Definition archiveIfMissing (existingId : string) : M Frame unit :=
  let! seen := gets processedExternalIds in
  if negb (bool_decide (existingId ∈ seen)) then
    let! rows := await (selectEvents (fun e =>
      externalId e = Some existingId /\ source e = BFV /\ status e = ACTIVE)) in
    match head rows with
    | Some event =>
        let! _ := await (updateEvents archiveSet (fun e => id e = id event)) in
        onSummary incArchived
    | None => ret tt
    end
  else ret tt.

(** The archival pass with its own [try]/[catch], which only logs. *)
Definition archiveMissingEvents (archiveMissing : bool) : M Frame unit :=
  let! seen := gets processedExternalIds in
  if archiveMissing && (0 <? size seen)%nat then
    tryCatch
      (let! existingBfvIds := await getBfvEventIds in
       forOf existingBfvIds archiveIfMissing)
      (fun _ => ret tt)
  else ret tt.

Definition emptySummary : BfvImportSummary :=
  {| createdCount := 0; updatedCount := 0; unchangedCount := 0;
     archivedCount := 0; errorCount := 0; errors := [] |}.

Definition historyOf (sm : BfvImportSummary) (fileName : option string)
    : InsertBfvImportHistoryDb :=
  {| h_createdCount := createdCount sm;
     h_updatedCount := updatedCount sm;
     h_unchangedCount := unchangedCount sm;
     h_archivedCount := archivedCount sm;
     h_errorCount := errorCount sm;
     h_fileName := Js.optOrNull fileName;
     h_notes := if (0 <? length (errors sm))%nat
                then Some (Js.join (String (ascii_of_nat 10) "") (errors sm)) else None |}.

Definition importBfvMatchesM (matches : list ParsedBfvMatch) (fileName : option string)
    (archiveMissing : bool) : M Frame BfvImportSummary :=
  let! _ := forOf matches processMatch in
  let! _ := archiveMissingEvents archiveMissing in
  let! sm := gets summary in
  let! _ := await (createImportHistory (historyOf sm fileName)) in
  gets summary.

(** [importBfvMatches(matches, fileName, archiveMissing)] run on a store:
    the summary it resolves to, or the exception it rejects with, and the
    store it leaves. *)
Definition importBfvMatches (s : Store) (matches : list ParsedBfvMatch)
    (fileName : option string) (archiveMissing : bool) : Res BfvImportSummary * Store :=
  let (r, fr) :=
    importBfvMatchesM matches fileName archiveMissing
      {| store := s; summary := emptySummary; processedExternalIds := ∅ |} in
  (r, store fr).

(** ** What one record does to the tables, when the database rejects nothing *)

(** The two-step resolution of a record against the events table. *)
Definition resolveExisting (evs : list CalendarEventDb) (m : ParsedBfvMatch)
    : option CalendarEvent :=
  match head (filter (fun e => source e = BFV /\ externalId e = Some (generateExternalId m)) evs) with
  | Some e => Some (dbEventToCalendarEvent e)
  | None =>
      fallbackToCalendarEvent <$>
        head (filter (fun e => source e = BFV /\ teamHome e = Some (m_teamHome m)
                               /\ teamAway e = Some (m_teamAway m) /\ status e = ACTIVE) evs)
  end.

(** The field the resolver returns for a record. *)
Definition resolvedField (maps : list FieldMappingDb) (m : ParsedBfvMatch) : option Field :=
  if negb (m_isHomeGame m) then None
  else fm_defaultField <$>
         head (filter (fun r => fm_team r = m_team m /\ fm_eventType r = spiel) maps).

Definition updateById (u : EventSet) (i : nat) (evs : list CalendarEventDb)
    : list CalendarEventDb :=
  (fun e => if decide (id e = i) then applySet u e else e) <$> evs.

(** The decision taken for a record. *)
Inductive Decision3 :=
  | DoUpdate (existing : CalendarEvent)
  | DoNothing (existing : CalendarEvent)
  | DoCreate.

Definition decide3 (evs : list CalendarEventDb) (maps : list FieldMappingDb)
    (m : ParsedBfvMatch) : Decision3 :=
  match resolveExisting evs m with
  | Some e =>
      if needsUpdate (matchNeedsUpdate e m (resolvedField maps m))
      then DoUpdate e else DoNothing e
  | None => DoCreate
  end.

(** The events table after a record, given the UUID drawn for a creation. *)
Definition eventsAfter (evs : list CalendarEventDb) (maps : list FieldMappingDb)
    (uuid : nat) (m : ParsedBfvMatch) : list CalendarEventDb :=
  match decide3 evs maps m with
  | DoUpdate e =>
      updateById (updateSet m (generateExternalId m) (matchTitle m) (resolvedField maps m))
        (ev_id e) evs
  | DoNothing _ => evs
  | DoCreate =>
      evs ++ [insertValues m uuid (generateExternalId m) (matchTitle m) (resolvedField maps m)]
  end.

Definition summaryAfter (evs : list CalendarEventDb) (maps : list FieldMappingDb)
    (m : ParsedBfvMatch) (sm : BfvImportSummary) : BfvImportSummary :=
  match decide3 evs maps m with
  | DoUpdate _ => incUpdated sm
  | DoNothing _ => incUnchanged sm
  | DoCreate => incCreated sm
  end.

Definition uuidAfter (evs : list CalendarEventDb) (maps : list FieldMappingDb)
    (m : ParsedBfvMatch) (n : nat) : nat :=
  match decide3 evs maps m with
  | DoCreate => S n
  | _ => n
  end.

(** The entry the [catch] block pushes. *)
Definition errorEntry (m : ParsedBfvMatch) (errorMsg : string) : string :=
  "Fehler bei " +:+ m_teamHome m +:+ " vs " +:+ m_teamAway m +:+ ": " +:+ errorMsg.

(** ** Notions the properties are stated with *)

(** *** Strings that differ in case or whitespace *)

(** Upper-case letters of the Latin-1 range. *)
Definition isUpperCase (c : ascii) : bool :=
  let n := Js.code c in
  (((65 <=? n) && (n <=? 90)) || ((192 <=? n) && (n <=? 222) && negb (n =? 215)))%nat.

(** Two characters that are the same letter in either case. *)
Definition sameLetter (c1 c2 : ascii) : Prop :=
  c1 = c2
  \/ (isUpperCase c1 = true /\ Js.code c2 = Js.code c1 + 32)
  \/ (isUpperCase c2 = true /\ Js.code c1 = Js.code c2 + 32).

(** Two strings that differ only in letter case. *)
Inductive sameUpToCase : string -> string -> Prop :=
  | suc_nil : sameUpToCase "" ""
  | suc_cons c1 c2 s1 s2 :
      sameLetter c1 c2 -> sameUpToCase s1 s2 ->
      sameUpToCase (String c1 s1) (String c2 s2).

Fixpoint allWhiteSpace (s : string) : bool :=
  match s with
  | EmptyString => true
  | String c s' => Js.isWhiteSpace c && allWhiteSpace s'
  end.

Fixpoint removeWhiteSpace (s : string) : string :=
  match s with
  | EmptyString => EmptyString
  | String c s' => if Js.isWhiteSpace c then removeWhiteSpace s' else String c (removeWhiteSpace s')
  end.

(** Differ only in letter case or whitespace, wherever the whitespace is. *)
Definition sameUpToCaseAndSpace (s1 s2 : string) : Prop :=
  sameUpToCase (removeWhiteSpace s1) (removeWhiteSpace s2).

(** Differ only in letter case and in leading or trailing whitespace. *)
Definition sameUpToCaseAndOuterSpace (s1 s2 : string) : Prop :=
  exists l1 c1 r1 l2 c2 r2,
    s1 = l1 +:+ c1 +:+ r1 /\ s2 = l2 +:+ c2 +:+ r2
    /\ allWhiteSpace l1 = true /\ allWhiteSpace r1 = true
    /\ allWhiteSpace l2 = true /\ allWhiteSpace r2 = true
    /\ sameUpToCase c1 c2.

(** An optional competition is present when it is a non-empty string. *)
Definition competitionPresent (c : option string) : bool :=
  match c with Some s => Js.truthy s | None => false end.

Definition sameCompetition (c1 c2 : option string) : Prop :=
  (competitionPresent c1 = false /\ competitionPresent c2 = false)
  \/ (exists s1 s2, c1 = Some s1 /\ c2 = Some s2
        /\ Js.truthy s1 = true /\ Js.truthy s2 = true
        /\ sameUpToCaseAndOuterSpace s1 s2).

(** *** The entries of the change list *)

Definition fieldEntry (existing : CalendarEvent) (f : Field) : string :=
  "Platz: " +:+ orKeiner (fieldText <$> ev_field existing) +:+ " -> " +:+ fieldText f.
Definition locationEntry (existing : CalendarEvent) (l : string) : string :=
  "Ort: " +:+ orKeiner (ev_location existing) +:+ " -> " +:+ l.
Definition competitionEntry (existing : CalendarEvent) (c : string) : string :=
  "Wettbewerb: " +:+ orKeiner (ev_competition existing) +:+ " -> " +:+ c.


(** *** The outcome of one record *)

(** How the frame after one iteration relates to the frame before it:
    either the [try] block threw, the [catch] block recorded the message
    and the tables are as before, or the block completed and wrote what
    [eventsAfter] says. *)
Inductive stepResult (m : ParsedBfvMatch) (fr fr' : Frame) : Prop :=
  | step_error msg r n :
      fst (processMatchBody m fr) = Throw msg ->
      store fr' = withRejections r (withUuidCounter n (store fr)) ->
      summary fr' = recordError (errorEntry m msg) (summary fr) ->
      stepResult m fr fr'
  | step_done r :
      fst (processMatchBody m fr) = Ok tt ->
      store fr' =
        {| calendarEvents :=
             eventsAfter (calendarEvents (store fr)) (fieldMappings (store fr))
               (uuidCounter (store fr)) m;
           fieldMappings := fieldMappings (store fr);
           bfvImportHistory := bfvImportHistory (store fr);
           uuidCounter :=
             uuidAfter (calendarEvents (store fr)) (fieldMappings (store fr)) m
               (uuidCounter (store fr));
           rejections := r |} ->
      summary fr' =
        summaryAfter (calendarEvents (store fr)) (fieldMappings (store fr)) m (summary fr) ->
      stepResult m fr fr'.

(** The frame after one iteration when the database rejects nothing. *)
Definition stepFrame (m : ParsedBfvMatch) (fr : Frame) : Frame :=
  {| store :=
       {| calendarEvents :=
            eventsAfter (calendarEvents (store fr)) (fieldMappings (store fr))
              (uuidCounter (store fr)) m;
          fieldMappings := fieldMappings (store fr);
          bfvImportHistory := bfvImportHistory (store fr);
          uuidCounter :=
            uuidAfter (calendarEvents (store fr)) (fieldMappings (store fr)) m
              (uuidCounter (store fr));
          rejections := rejections (store fr) |};
     summary :=
       summaryAfter (calendarEvents (store fr)) (fieldMappings (store fr)) m (summary fr);
     processedExternalIds := {[ generateExternalId m ]} ∪ processedExternalIds fr |}.

(** The number of records a summary accounts for. *)
Definition recordsCounted (sm : BfvImportSummary) : nat :=
  createdCount sm + updatedCount sm + unchangedCount sm + errorCount sm.

(** Two summaries that agree on everything but [archivedCount]. *)
Definition sameRecordCounts (sm sm' : BfvImportSummary) : Prop :=
  createdCount sm' = createdCount sm /\ updatedCount sm' = updatedCount sm
  /\ unchangedCount sm' = unchangedCount sm /\ errorCount sm' = errorCount sm
  /\ errors sm' = errors sm.

(** *** The run as a whole *)

Definition initialFrame (s : Store) : Frame :=
  {| store := s; summary := emptySummary; processedExternalIds := ∅ |}.

(** The frame when the loop over the batch has ended. *)
Definition frameAfterLoop (s : Store) (ms : list ParsedBfvMatch) : Frame :=
  snd (forOf ms processMatch (initialFrame s)).

(** The frame when the archival pass has ended, before the history row is
    written. *)
Definition frameBeforeHistory (s : Store) (ms : list ParsedBfvMatch)
    (archiveMissing : bool) : Frame :=
  snd (archiveMissingEvents archiveMissing (frameAfterLoop s ms)).

(** The primary key of the events table holds, and the UUIDs still to be
    drawn are fresh. *)
Definition wellKeyed (s : Store) : Prop :=
  NoDup (id <$> calendarEvents s)
  /\ forall e, e ∈ calendarEvents s -> id e < uuidCounter s.

(** An active externally-sourced event whose external ID was not seen. *)
Definition isMissing (seen : gset string) (e : CalendarEventDb) : bool :=
  bool_decide (source e = BFV) && bool_decide (status e = ACTIVE)
  && match externalId e with
     | Some x => bool_decide (x ∉ seen)
     | None => false
     end.

(** The events table with every missing event archived. *)
Definition archiveMissingRows (seen : gset string) (evs : list CalendarEventDb)
    : list CalendarEventDb :=
  (fun e => if isMissing seen e then applySet archiveSet e else e) <$> evs.

Definition countMissing (seen : gset string) (evs : list CalendarEventDb) : nat :=
  length (List.filter (isMissing seen) evs).

Definition addArchived (k : nat) (sm : BfvImportSummary) : BfvImportSummary :=
  {| createdCount := createdCount sm; updatedCount := updatedCount sm;
     unchangedCount := unchangedCount sm; archivedCount := archivedCount sm + k;
     errorCount := errorCount sm; errors := errors sm |}.

(** *** The record of the end-to-end example *)

Definition exampleMatch : ParsedBfvMatch :=
  {| m_externalId := ""; m_date := "2026-03-01"; m_startTime := "15:00";
     m_endTime := "17:00"; m_teamHome := "SV A"; m_teamAway := "Club";
     m_team := herren; m_isHomeGame := true; m_opponent := "SV A";
     m_competition := "Kreisliga"; m_location := None; m_rawData := None |}.

Definition emptyStore (maps : list FieldMappingDb) : Store :=
  {| calendarEvents := []; fieldMappings := maps; bfvImportHistory := [];
     uuidCounter := 0; rejections := [] |}.

(** *** Reconciling a batch twice *)

(** The team pair of a record. *)
Definition teamsOf (m : ParsedBfvMatch) : string * string := (m_teamHome m, m_teamAway m).

(** An externally-sourced event that carries the external ID of a record
    of the batch has the team pair of that record. *)
Definition idsCarryTeams (ms : list ParsedBfvMatch) (evs : list CalendarEventDb) : Prop :=
  forall e m, e ∈ evs -> m ∈ ms ->
    source e = BFV -> externalId e = Some (generateExternalId m) ->
    teamHome e = Some (m_teamHome m) /\ teamAway e = Some (m_teamAway m).

(** An active externally-sourced event that has the team pair of a record
    of the batch carries the external ID of that record. *)
Definition teamsCarryIds (ms : list ParsedBfvMatch) (evs : list CalendarEventDb) : Prop :=
  forall e m, e ∈ evs -> m ∈ ms ->
    source e = BFV -> status e = ACTIVE ->
    teamHome e = Some (m_teamHome m) -> teamAway e = Some (m_teamAway m) ->
    externalId e = Some (generateExternalId m).

(** A record that the table already reflects: it resolves to an event and
    the change detector finds nothing to update. *)
Definition settled (evs : list CalendarEventDb) (maps : list FieldMappingDb)
    (m : ParsedBfvMatch) : Prop :=
  exists e, decide3 evs maps m = DoNothing e.

(** The two queries of the resolution. *)
Definition byExternalId (m : ParsedBfvMatch) (e : CalendarEventDb) : Prop :=
  source e = BFV /\ externalId e = Some (generateExternalId m).

Definition byTeams (m : ParsedBfvMatch) (e : CalendarEventDb) : Prop :=
  source e = BFV /\ teamHome e = Some (m_teamHome m)
  /\ teamAway e = Some (m_teamAway m) /\ status e = ACTIVE.


(** *** Sample data for the examples *)

(** A home game and an away game of two squads, with external IDs. *)
Definition homeMatch : ParsedBfvMatch :=
  {| m_externalId := "bfv-1"; m_date := "2026-03-01"; m_startTime := "15:00";
     m_endTime := "17:00"; m_teamHome := "TSV Greding"; m_teamAway := "SV A";
     m_team := herren; m_isHomeGame := true; m_opponent := "SV A";
     m_competition := "Kreisliga"; m_location := None; m_rawData := None |}.

Definition awayMatch : ParsedBfvMatch :=
  {| m_externalId := "bfv-2"; m_date := "2026-03-08"; m_startTime := "14:00";
     m_endTime := "16:00"; m_teamHome := "FC B"; m_teamAway := "TSV Greding";
     m_team := damen; m_isHomeGame := false; m_opponent := "FC B";
     m_competition := "Bezirksliga"; m_location := Some "Sportplatz B";
     m_rawData := None |}.

(** [homeMatch] with another kick-off time under the same external ID. *)
Definition homeMatchLater : ParsedBfvMatch :=
  {| m_externalId := "bfv-1"; m_date := "2026-03-01"; m_startTime := "16:00";
     m_endTime := "18:00"; m_teamHome := "TSV Greding"; m_teamAway := "SV A";
     m_team := herren; m_isHomeGame := true; m_opponent := "SV A";
     m_competition := "Kreisliga"; m_location := None; m_rawData := None |}.

(** [homeMatch] under another external ID, nothing else changed. *)
Definition homeMatchRenumbered : ParsedBfvMatch :=
  {| m_externalId := "bfv-9"; m_date := "2026-03-01"; m_startTime := "15:00";
     m_endTime := "17:00"; m_teamHome := "TSV Greding"; m_teamAway := "SV A";
     m_team := herren; m_isHomeGame := true; m_opponent := "SV A";
     m_competition := "Kreisliga"; m_location := None; m_rawData := None |}.

(** [homeMatchLater] under another external ID. *)
Definition homeMatchLaterRenumbered : ParsedBfvMatch :=
  {| m_externalId := "bfv-9"; m_date := "2026-03-01"; m_startTime := "16:00";
     m_endTime := "18:00"; m_teamHome := "TSV Greding"; m_teamAway := "SV A";
     m_team := herren; m_isHomeGame := true; m_opponent := "SV A";
     m_competition := "Kreisliga"; m_location := None; m_rawData := None |}.

(** The same pairing as [homeMatch] on a later date, with its own ID. *)
Definition homeMatchSecondLeg : ParsedBfvMatch :=
  {| m_externalId := "bfv-3"; m_date := "2026-05-10"; m_startTime := "15:00";
     m_endTime := "17:00"; m_teamHome := "TSV Greding"; m_teamAway := "SV A";
     m_team := herren; m_isHomeGame := true; m_opponent := "SV A";
     m_competition := "Kreisliga"; m_location := None; m_rawData := None |}.

(** The stored event of [homeMatch], on the B-Platz. *)
Definition storedHomeEvent : CalendarEventDb :=
  {| id := 0; source := BFV; externalId := Some "bfv-1"; recurringGroupId := None;
     type := spiel; title := "TSV Greding vs SV A"; team := Some herren;
     teamHome := Some "TSV Greding"; teamAway := Some "SV A"; field := Some b_platz;
     date := "2026-03-01"; startTime := "15:00"; endTime := "17:00";
     isHomeGame := Some true; opponent := Some "SV A"; location := None;
     competition := Some "Kreisliga"; description := None; rawPayload := None;
     status := ACTIVE |}.

(** A stored event of a fixture that is no longer upstream. *)
Definition storedOldEvent : CalendarEventDb :=
  {| id := 1; source := BFV; externalId := Some "bfv-0"; recurringGroupId := None;
     type := spiel; title := "TSV Greding vs SC C"; team := Some herren;
     teamHome := Some "TSV Greding"; teamAway := Some "SC C"; field := Some a_platz;
     date := "2026-02-01"; startTime := "15:00"; endTime := "17:00";
     isHomeGame := Some true; opponent := Some "SC C"; location := None;
     competition := Some "Kreisliga"; description := None; rawPayload := None;
     status := ACTIVE |}.

Definition storeOf (evs : list CalendarEventDb) (maps : list FieldMappingDb)
    (uuid : nat) (rej : list (option string)) : Store :=
  {| calendarEvents := evs; fieldMappings := maps; bfvImportHistory := [];
     uuidCounter := uuid; rejections := rej |}.

Definition herrenOnAPlatz : FieldMappingDb :=
  {| fm_team := herren; fm_eventType := spiel; fm_defaultField := a_platz |}.

(** A store with one older fixture and the herren mapping, and a batch of
    two new fixtures. *)
Definition sampleStore : Store := storeOf [storedOldEvent] [herrenOnAPlatz] 2 [].

Definition sampleBatch : list ParsedBfvMatch := [homeMatch; awayMatch].

(** The stored event of the second leg of [homeMatch]'s pairing. *)
Definition storedSecondLegEvent : CalendarEventDb :=
  {| id := 2; source := BFV; externalId := Some "bfv-3"; recurringGroupId := None;
     type := spiel; title := "TSV Greding vs SV A"; team := Some herren;
     teamHome := Some "TSV Greding"; teamAway := Some "SV A"; field := Some b_platz;
     date := "2026-05-10"; startTime := "15:00"; endTime := "17:00";
     isHomeGame := Some true; opponent := Some "SV A"; location := None;
     competition := Some "Kreisliga"; description := None; rawPayload := None;
     status := ACTIVE |}.

(** [homeMatchSecondLeg] under another external ID. *)
Definition secondLegRenumbered : ParsedBfvMatch :=
  {| m_externalId := "bfv-7"; m_date := "2026-05-10"; m_startTime := "15:00";
     m_endTime := "17:00"; m_teamHome := "TSV Greding"; m_teamAway := "SV A";
     m_team := herren; m_isHomeGame := true; m_opponent := "SV A";
     m_competition := "Kreisliga"; m_location := None; m_rawData := None |}.

(** The stored event of [homeMatch] under the external ID of [awayMatch]. *)
Definition storedHomeEventMisnumbered : CalendarEventDb :=
  {| id := 0; source := BFV; externalId := Some "bfv-2"; recurringGroupId := None;
     type := spiel; title := "TSV Greding vs SV A"; team := Some herren;
     teamHome := Some "TSV Greding"; teamAway := Some "SV A"; field := Some b_platz;
     date := "2026-03-01"; startTime := "15:00"; endTime := "17:00";
     isHomeGame := Some true; opponent := Some "SV A"; location := None;
     competition := Some "Kreisliga"; description := None; rawPayload := None;
     status := ACTIVE |}.

(** * The code around the reconciler

    The rest of [bfvImportService.ts], the event, mapping and settings
    functions of [dbStorage.ts], and the helpers of [routes.ts] that feed
    the reconciler or read what it wrote. *)

(** ** More JavaScript string primitives *)

Module JsStr.

(** [s.includes(searchString)] *)
Fixpoint includes (s searchString : string) : bool :=
  String.prefix searchString s
  || match s with
     | EmptyString => false
     | String _ s' => includes s' searchString
     end.

(** [s.endsWith(searchString)] *)
Fixpoint endsWith (s searchString : string) : bool :=
  String.eqb s searchString
  || match s with
     | EmptyString => false
     | String _ s' => endsWith s' searchString
     end.

(** [s.substring(0, n)] *)
Definition substring0 (n : nat) (s : string) : string := String.substring 0 n s.

(** [s.replace(/\s/g, "")]: the class [\s] is WhiteSpace and
    LineTerminator. *)
Definition removeSpaces (s : string) : string := removeWhiteSpace s.

(** [s.split(sep)] for a separator of one code unit. *)
Fixpoint split (sep : ascii) (s : string) : list string :=
  match s with
  | EmptyString => [EmptyString]
  | String c s' =>
      if Ascii.eqb c sep then EmptyString :: split sep s'
      else match split sep s' with
           | [] => [String c EmptyString]
           | x :: l => String c x :: l
           end
  end.

(** [s.replace(pattern, "")] for a pattern of one code unit: the first
    occurrence goes. *)
Fixpoint removeFirst (pattern : ascii) (s : string) : string :=
  match s with
  | EmptyString => EmptyString
  | String c s' => if Ascii.eqb c pattern then s' else String c (removeFirst pattern s')
  end.

(** The value of a code unit as a digit of the radix. *)
Definition digitValue (radix : nat) (c : ascii) : option nat :=
  let n := Js.code c in
  let v :=
    if ((48 <=? n) && (n <=? 57))%nat then Some (n - 48)
    else if ((97 <=? n) && (n <=? 122))%nat then Some (n - 87)
    else if ((65 <=? n) && (n <=? 90))%nat then Some (n - 55)
    else None in
  match v with
  | Some d => if (d <? radix)%nat then Some d else None
  | None => None
  end.

(** The value of the longest prefix of digits, when there is a digit. *)
Fixpoint parseDigits (radix : nat) (s : string) (acc : option Z) : option Z :=
  match s with
  | EmptyString => acc
  | String c s' =>
      match digitValue radix c with
      | Some d => parseDigits radix s' (Some (default 0 acc * Z.of_nat radix + Z.of_nat d)%Z)
      | None => acc
      end
  end.

(** [parseInt(s)] without a radix; [None] is NaN. The value is exact below
    2^53, which covers the time columns (five code units) it is applied
    to. *)
Definition parseInt (s : string) : option Z :=
  let s := Js.trimStart s in
  let '(sign, s) :=
    match s with
    | String "-" r => ((-1)%Z, r)
    | String "+" r => (1%Z, r)
    | _ => (1%Z, s)
    end in
  let '(radix, s) :=
    match s with
    | String "0" (String "x" r) => (16, r)
    | String "0" (String "X" r) => (16, r)
    | _ => (10, s)
    end in
  (fun v => (sign * v)%Z) <$> parseDigits radix s None.

(** [a < b] on numbers: false when either is NaN. *)
Definition lt (a b : option Z) : bool :=
  match a, b with
  | Some x, Some y => (x <? y)%Z
  | _, _ => false
  end.

Definition isDigit (c : ascii) : bool :=
  let n := Js.code c in ((48 <=? n) && (n <=? 57))%nat.

Fixpoint allDigits (s : string) : bool :=
  match s with
  | EmptyString => true
  | String c s' => isDigit c && allDigits s'
  end.

Fixpoint digitsValue (s : string) (acc : nat) : nat :=
  match s with
  | EmptyString => acc
  | String c s' => digitsValue s' (acc * 10 + (Js.code c - 48))
  end.

(** [Number(s)] where the embedding covers it: on a string of at most
    fifteen decimal digits (the empty string is 0). Signs, fractions,
    exponents, other radices, surrounding whitespace and the strings that
    give NaN are not covered ([None]). *)
Definition toNumber (s : string) : option nat :=
  if allDigits s && (String.length s <=? 15)%nat then Some (digitsValue s 0) else None.

Definition digitChar (d : nat) : ascii := ascii_of_nat (48 + d).

Fixpoint natToStringFrom (fuel n : nat) (acc : string) : string :=
  match fuel with
  | 0 => acc
  | S fuel' =>
      let acc' := String (digitChar (n mod 10)) acc in
      if (n <? 10)%nat then acc' else natToStringFrom fuel' (n / 10) acc'
  end.

(** [n.toString()] of a natural number. *)
Definition natToString (n : nat) : string := natToStringFrom (S n) n EmptyString.

Fixpoint repeat (c : ascii) (k : nat) : string :=
  match k with
  | 0 => EmptyString
  | S k' => String c (repeat c k')
  end.

(** [s.padStart(targetLength, c)] for a pad string of one code unit. *)
Definition padStart (targetLength : nat) (c : ascii) (s : string) : string :=
  repeat c (targetLength - String.length s) +:+ s.

End JsStr.

(** ** bfvImportService.ts: the team of a team name *)

Definition parseTeamFromName (teamName : string) (sectionTeam : option Team) : Team :=
  let normalized := Js.toLowerCase teamName in
  match sectionTeam with
  | Some t => t
  | None =>
      if JsStr.includes normalized "a-jugend" || JsStr.includes normalized "a-junioren"
      then a_jugend
      else if JsStr.includes normalized "b-jugend" || JsStr.includes normalized "b-junioren"
      then b_jugend
      else if JsStr.includes normalized "c-jugend" || JsStr.includes normalized "c-junioren"
      then c_jugend
      else if JsStr.includes normalized "d-jugend" || JsStr.includes normalized "d-junioren"
      then d_jugend
      else if JsStr.includes normalized "e-jugend" || JsStr.includes normalized "e-junioren"
      then e_jugend
      else if JsStr.includes normalized "f-jugend" || JsStr.includes normalized "f-junioren"
      then f_jugend
      else if JsStr.includes normalized "g-jugend" || JsStr.includes normalized "g-junioren"
      then g_jugend
      else if JsStr.includes normalized "damen" || JsStr.includes normalized "frauen"
      then damen
      else if JsStr.includes normalized "alte herren" || JsStr.includes normalized "ah"
      then alte_herren
      else if JsStr.includes normalized "ii" || JsStr.includes normalized " 2"
              || JsStr.endsWith normalized "2"
      then herren2
      else herren
  end.

(** ** dbStorage.ts: events *)

(** [db.update(calendarEventsTable).set(...).where(p).returning()], the set
    object given as the function it applies to a row; the rows come back
    as they are after the update, and [rowCount] is their number.

    The updated row is written at its place in the list. PostgreSQL does
    not fix the order in which a later query without ORDER BY returns the
    rows, and an updated row may well come last: what is proved below about
    a lookup that follows such an update is therefore stated for every
    order of the rows (every permutation of the list), under the
    hypothesis [resolvesUniquely] where the lookup takes the first of the
    rows it finds. *)
Definition updateEventsReturning (set : CalendarEventDb -> CalendarEventDb)
    (p : CalendarEventDb -> Prop) `{!forall e, Decision (p e)}
    : M Store (list CalendarEventDb) :=
  let! _ := dbCall in
  let! rows := gets (fun s => set <$> filter p (calendarEvents s)) in
  let! _ := modify (fun s =>
    withEvents ((fun e => if decide (p e) then set e else e) <$> calendarEvents s) s) in
  ret rows.

(** [db.delete(calendarEventsTable).where(p)]: the [rowCount]. *)
Definition deleteEvents (p : CalendarEventDb -> Prop) `{!forall e, Decision (p e)}
    : M Store nat :=
  let! _ := dbCall in
  let! rowCount := gets (fun s => length (filter p (calendarEvents s))) in
  let! _ := modify (fun s => withEvents (filter (fun e => ~ p e) (calendarEvents s)) s) in
  ret rowCount.

(** [InsertCalendarEvent]. *)
Record InsertCalendarEvent := {
  i_title : string;
  i_type : EventType;
  i_team : option Team;
  i_field : option Field;
  i_date : string;
  i_startTime : string;
  i_endTime : string;
  i_isHomeGame : option bool;
  i_opponent : option string;
  i_location : option string;
  i_competition : option string;
  i_description : option string;
  i_bfvImported : bool;
  i_bfvMatchId : option string;
  i_recurringGroupId : option string
}.

(** [Partial<InsertCalendarEvent>]: [None] is a property that is
    [undefined]. *)
Record PartialCalendarEvent := {
  p_title : option string;
  p_type : option EventType;
  p_team : option Team;
  p_field : option Field;
  p_date : option string;
  p_startTime : option string;
  p_endTime : option string;
  p_isHomeGame : option bool;
  p_opponent : option string;
  p_location : option string;
  p_competition : option string;
  p_description : option string;
  p_bfvImported : option bool;
  p_bfvMatchId : option string;
  p_recurringGroupId : option string
}.

(** [Partial<InsertCalendarEventDb>], the [updateData] object: [None] is a
    column that is not written, [Some None] writes NULL. *)
Record PartialCalendarEventDb := {
  d_title : option string;
  d_type : option EventType;
  d_team : option (option Team);
  d_field : option (option Field);
  d_date : option string;
  d_startTime : option string;
  d_endTime : option string;
  d_isHomeGame : option (option bool);
  d_opponent : option (option string);
  d_location : option (option string);
  d_competition : option (option string);
  d_description : option (option string);
  d_externalId : option (option string);
  d_source : option EventSource
}.

Definition applyUpdateData (u : PartialCalendarEventDb) (e : CalendarEventDb)
    : CalendarEventDb :=
  {| id := id e;
     source := default (source e) (d_source u);
     externalId := default (externalId e) (d_externalId u);
     recurringGroupId := recurringGroupId e;
     type := default (type e) (d_type u);
     title := default (title e) (d_title u);
     team := default (team e) (d_team u);
     teamHome := teamHome e;
     teamAway := teamAway e;
     field := default (field e) (d_field u);
     date := default (date e) (d_date u);
     startTime := default (startTime e) (d_startTime u);
     endTime := default (endTime e) (d_endTime u);
     isHomeGame := default (isHomeGame e) (d_isHomeGame u);
     opponent := default (opponent e) (d_opponent u);
     location := default (location e) (d_location u);
     competition := default (competition e) (d_competition u);
     description := default (description e) (d_description u);
     rawPayload := rawPayload e;
     status := status e |}.

Definition getCalendarEvent (eventId : nat) : M Store (option CalendarEvent) :=
  let! rows := selectEvents (fun e => id e = eventId) in
  ret (dbEventToCalendarEvent <$> head rows).

Definition getCalendarEventByMatchKey (teamHome' teamAway' date' : string)
    : M Store (option CalendarEvent) :=
  let! rows := selectEvents (fun e =>
    source e = BFV /\ teamHome e = Some teamHome' /\ teamAway e = Some teamAway'
    /\ date e = date' /\ status e = ACTIVE) in
  ret (dbEventToCalendarEvent <$> head rows).

(** The row [createCalendarEvent] inserts. A [Team] or a [Field] is never
    a falsy value, so [x || null] keeps it. *)
Definition createValues (eventId : nat) (event : InsertCalendarEvent) : CalendarEventDb :=
  {| id := eventId;
     source := if i_bfvImported event then BFV else MANUAL;
     externalId := Js.optOrNull (i_bfvMatchId event);
     recurringGroupId := Js.optOrNull (i_recurringGroupId event);
     type := i_type event;
     title := i_title event;
     team := i_team event;
     teamHome := None;
     teamAway := None;
     field := i_field event;
     date := i_date event;
     startTime := i_startTime event;
     endTime := i_endTime event;
     isHomeGame := i_isHomeGame event;
     opponent := Js.optOrNull (i_opponent event);
     location := Js.optOrNull (i_location event);
     competition := Js.optOrNull (i_competition event);
     description := Js.optOrNull (i_description event);
     rawPayload := None;
     status := ACTIVE |}.

Definition createCalendarEvent (event : InsertCalendarEvent) : M Store CalendarEvent :=
  let! eventId := randomUUID in
  let created := createValues eventId event in
  let! _ := insertEvent created in
  ret (dbEventToCalendarEvent created).

(** The [updateData] object of [updateCalendarEvent]. *)
Definition updateData (data : PartialCalendarEvent) : PartialCalendarEventDb :=
  {| d_title := p_title data;
     d_type := p_type data;
     d_team := Some <$> p_team data;
     d_field := Some <$> p_field data;
     d_date := p_date data;
     d_startTime := p_startTime data;
     d_endTime := p_endTime data;
     d_isHomeGame := Some <$> p_isHomeGame data;
     d_opponent := Js.strOrNull <$> p_opponent data;
     d_location := Js.strOrNull <$> p_location data;
     d_competition := Js.strOrNull <$> p_competition data;
     d_description := Js.strOrNull <$> p_description data;
     d_externalId := Js.strOrNull <$> p_bfvMatchId data;
     d_source := (fun b : bool => if b then BFV else MANUAL) <$> p_bfvImported data |}.

Definition updateCalendarEvent (eventId : nat) (data : PartialCalendarEvent)
    : M Store (option CalendarEvent) :=
  let! rows := updateEventsReturning (applyUpdateData (updateData data))
                 (fun e => id e = eventId) in
  ret (dbEventToCalendarEvent <$> head rows).

Definition deleteCalendarEvent (eventId : nat) : M Store bool :=
  let! rowCount := deleteEvents (fun e => id e = eventId) in
  ret (0 <? rowCount)%nat.

Definition archiveCalendarEvent (eventId : nat) : M Store bool :=
  let! rows := updateEventsReturning (applySet archiveSet) (fun e => id e = eventId) in
  ret (0 <? length rows)%nat.

(** ** dbStorage.ts: field mappings

    The rows of [fieldMappingsTable] are kept without their [id] column,
    which no function embedded here reads. *)

(** The message of PostgreSQL for a row that violates the unique
    constraint [name]. *)
Definition uniqueViolation (name : string) : string :=
  let quote := String (ascii_of_nat 34) EmptyString in
  "duplicate key value violates unique constraint " +:+ quote +:+ name +:+ quote.

(** The key of the constraint [unique("unique_team_event_type").on(table.team,
    table.eventType)] of [fieldMappingsTable] is taken. *)
Definition mappingKeyTaken (rows : list FieldMappingDb) (row : FieldMappingDb) : Prop :=
  Exists (fun r => fm_team r = fm_team row /\ fm_eventType r = fm_eventType row) rows.

(** [db.insert(fieldMappingsTable).values(row)]: besides the rejections
    that are scheduled, the table's unique constraint on team and event
    type rejects a row whose key another row has. *)
Definition insertMapping (row : FieldMappingDb) : M Store unit :=
  let! _ := dbCall in
  let! rows := gets fieldMappings in
  if bool_decide (mappingKeyTaken rows row)
  then throw (uniqueViolation "unique_team_event_type")
  else
    modify (fun s =>
      {| calendarEvents := calendarEvents s; fieldMappings := fieldMappings s ++ [row];
         bfvImportHistory := bfvImportHistory s; uuidCounter := uuidCounter s;
         rejections := rejections s |}).

Definition getAllFieldMappings : M Store (list FieldMappingDb) :=
  selectMappings (fun _ => True).

Definition createFieldMapping (insertMapping' : FieldMappingDb) : M Store FieldMappingDb :=
  let! _ := randomUUID in
  let! _ := insertMapping insertMapping' in
  ret insertMapping'.

Definition defaultMappings : list FieldMappingDb :=
  [ {| fm_team := herren; fm_eventType := spiel; fm_defaultField := a_platz |};
    {| fm_team := herren; fm_eventType := training; fm_defaultField := a_platz |};
    {| fm_team := herren2; fm_eventType := spiel; fm_defaultField := a_platz |};
    {| fm_team := a_jugend; fm_eventType := spiel; fm_defaultField := a_platz |};
    {| fm_team := b_jugend; fm_eventType := spiel; fm_defaultField := b_platz |};
    {| fm_team := c_jugend; fm_eventType := spiel; fm_defaultField := b_platz |};
    {| fm_team := d_jugend; fm_eventType := spiel; fm_defaultField := b_platz |};
    {| fm_team := e_jugend; fm_eventType := spiel; fm_defaultField := b_platz |};
    {| fm_team := f_jugend; fm_eventType := spiel; fm_defaultField := b_platz |};
    {| fm_team := g_jugend; fm_eventType := spiel; fm_defaultField := b_platz |} ].

Definition initializeDefaultFieldMappings : M Store unit :=
  let! existing := getAllFieldMappings in
  if (0 <? length existing)%nat then ret tt
  else forOf defaultMappings (fun mapping => let! _ := createFieldMapping mapping in ret tt).

(** ** dbStorage.ts: the admin password *)

(** A row of [adminSettingsTable]. *)
Record AdminSettingDb := {
  as_key : string;
  as_value : string
}.

(** The database with the settings table, which the reconciler does not
    touch. *)
Record Database := {
  tables : Store;
  adminSettings : list AdminSettingDb
}.

(** A call that reaches the database through the same driver. *)
Definition driver {A} (c : M Store A) : M Database A := fun db =>
  let (r, s') := c (tables db) in (r, {| tables := s'; adminSettings := adminSettings db |}).

(** [db.select().from(adminSettingsTable).where(p)] *)
Definition selectSettings (p : AdminSettingDb -> Prop) `{!forall r, Decision (p r)}
    : M Database (list AdminSettingDb) :=
  let! _ := driver dbCall in gets (fun db => filter p (adminSettings db)).

(** [db.insert(adminSettingsTable).values(row).onConflictDoUpdate({target: key,
    set: {value}})] *)
Definition upsertSetting (row : AdminSettingDb) : M Database unit :=
  let! _ := driver dbCall in
  modify (fun db =>
    {| tables := tables db;
       adminSettings :=
         if bool_decide (Exists (fun r => as_key r = as_key row) (adminSettings db))
         then (fun r => if decide (as_key r = as_key row)
                        then {| as_key := as_key r; as_value := as_value row |} else r)
                <$> adminSettings db
         else adminSettings db ++ [row] |}).

Definition getAdminPassword : M Database string :=
  let! rows := selectSettings (fun r => as_key r = "admin_password") in
  ret match head rows with
      | Some setting => if Js.truthy (as_value setting) then as_value setting else "12345"
      | None => "12345"
      end.

Definition setAdminPassword (password : string) : M Database unit :=
  upsertSetting {| as_key := "admin_password"; as_value := password |}.

(** ** routes.ts: the helpers of the import and of the conflict check *)

(** [addHours(time, hours)] for a natural number of hours. It throws a
    TypeError, whose message is given, when [time] has no colon ([m] is
    [undefined]); it is [None] where [Number] is not covered by the
    embedding. *)
Definition addHours (time : string) (hours : nat) : option (Res string) :=
  match JsStr.split ":" time with
  | h :: m :: _ =>
      match JsStr.toNumber h, JsStr.toNumber m with
      | Some h, Some m =>
          let newHour := (h + hours) mod 24 in
          Some (Ok (JsStr.padStart 2 "0" (JsStr.natToString newHour) +:+ ":"
                    +:+ JsStr.padStart 2 "0" (JsStr.natToString m)))
      | _, _ => None
      end
  | _ => Some (Throw "Cannot read properties of undefined (reading 'toString')")
  end.

(** [ParsedPdfMatch], an entry of the club schedule. *)
Record ParsedPdfMatch := {
  pdf_type : string;
  pdf_league : string;
  pdf_date : string;
  pdf_time : string;
  pdf_homeTeam : string;
  pdf_awayTeam : string;
  pdf_location : option string;
  pdf_team : Team;
  pdf_isHome : bool
}.

(** The external ID the PDF import gives an entry. *)
Definition pdfExternalId (p : ParsedPdfMatch) : string :=
  JsStr.removeSpaces
    ("pdf-" +:+ pdf_date p +:+ "-" +:+ pdf_time p +:+ "-"
     +:+ JsStr.substring0 10 (pdf_homeTeam p) +:+ "-"
     +:+ JsStr.substring0 10 (pdf_awayTeam p)).

Section pdfImport.

(** The JSON text of an entry, which is stored as the raw payload. *)
Variable rawData : ParsedPdfMatch -> string.

(** The callback of [parsedMatches.map(...)] in the PDF import route. *)
Definition pdfToParsedBfvMatch (p : ParsedPdfMatch) : option (Res ParsedBfvMatch) :=
  let externalId := pdfExternalId p in
  let opponent := if pdf_isHome p then pdf_awayTeam p else pdf_homeTeam p in
  match addHours (pdf_time p) 2 with
  | Some (Ok endTime) =>
      Some (Ok {| m_externalId := externalId;
                  m_date := pdf_date p;
                  m_startTime := pdf_time p;
                  m_endTime := endTime;
                  m_teamHome := pdf_homeTeam p;
                  m_teamAway := pdf_awayTeam p;
                  m_team := pdf_team p;
                  m_isHomeGame := pdf_isHome p;
                  m_opponent := opponent;
                  m_competition := if Js.truthy (pdf_league p) then pdf_league p else "";
                  m_location := if pdf_isHome p then None else pdf_location p;
                  m_rawData := Some (rawData p) |})
  | Some (Throw msg) => Some (Throw msg)
  | None => None
  end.

(** [parsedMatches.map(...)]: the first callback that throws ends it. *)
Fixpoint pdfToParsedBfvMatches (l : list ParsedPdfMatch) : option (Res (list ParsedBfvMatch)) :=
  match l with
  | [] => Some (Ok [])
  | p :: l' =>
      match pdfToParsedBfvMatch p with
      | Some (Ok m) =>
          match pdfToParsedBfvMatches l' with
          | Some (Ok ms) => Some (Ok (m :: ms))
          | r => r
          end
      | Some (Throw msg) => Some (Throw msg)
      | None => None
      end
  end.

(** The PDF import route from the parsed entries on: the conversion and
    the call of the reconciler, without [archiveMissing]. *)
Definition importPdfMatches (s : Store) (parsedMatches : list ParsedPdfMatch)
    (originalname : string) : option (Res BfvImportSummary * Store) :=
  match pdfToParsedBfvMatches parsedMatches with
  | Some (Ok bfvMatches) => Some (importBfvMatches s bfvMatches (Some originalname) false)
  | Some (Throw msg) => Some (Throw msg, s)
  | None => None
  end.

End pdfImport.

(** An entry of the conflict list. *)
Record Conflict := {
  event1 : CalendarEvent;
  event2 : CalendarEvent;
  reason : string
}.

(** [parseInt(t.replace(":", ""))] *)
Definition timeNumber (t : string) : option Z := JsStr.parseInt (JsStr.removeFirst ":" t).

(** The body of the inner loop of the conflict check for the pair
    [(e1, e2)]. *)
Definition conflictOf (e1 e2 : CalendarEvent) : option Conflict :=
  match ev_field e1, ev_field e2 with
  | Some f1, Some f2 =>
      if bool_decide (ev_date e1 = ev_date e2) && bool_decide (f1 = f2) then
        let start1 := timeNumber (ev_startTime e1) in
        let end1 := timeNumber (ev_endTime e1) in
        let start2 := timeNumber (ev_startTime e2) in
        let end2 := timeNumber (ev_endTime e2) in
        if JsStr.lt start1 end2 && JsStr.lt start2 end1
        then Some {| event1 := e1; event2 := e2;
                     reason := "Zeit" +:+ String (ascii_of_nat 252) "berschneidung auf "
                               +:+ fieldText f1 |}
        else None
      else None
  | _, _ => None
  end.

(** The two loops of the conflict check over the events of the range. *)
Fixpoint findConflicts (events : list CalendarEvent) : list Conflict :=
  match events with
  | [] => []
  | e1 :: rest => omap (conflictOf e1) rest ++ findConflicts rest
  end.

(** ** Notions the further properties are stated with *)

(** What a run may do to a stored row: its identity, origin and the
    columns the reconciler does not own are kept, and its status is kept
    or becomes ARCHIVED. *)
Definition evolves (e e' : CalendarEventDb) : Prop :=
  id e' = id e /\ source e' = source e /\ recurringGroupId e' = recurringGroupId e
  /\ type e' = type e /\ team e' = team e /\ isHomeGame e' = isHomeGame e
  /\ opponent e' = opponent e /\ description e' = description e
  /\ (status e' = status e \/ status e' = ARCHIVED).

(** The entries of the change list for the date and the two times. *)
Definition dateEntry (existing : CalendarEvent) (m : ParsedBfvMatch) : string :=
  "Datum: " +:+ ev_date existing +:+ " -> " +:+ m_date m.
Definition startTimeEntry (existing : CalendarEvent) (m : ParsedBfvMatch) : string :=
  "Startzeit: " +:+ ev_startTime existing +:+ " -> " +:+ m_startTime m.
Definition endTimeEntry (existing : CalendarEvent) (m : ParsedBfvMatch) : string :=
  "Endzeit: " +:+ ev_endTime existing +:+ " -> " +:+ m_endTime m.

(** The entry a comparison of the change detector contributes: [entry]
    where [P] holds, the incoming value being present and other than the
    stored one, and nothing where it does not. *)
Definition entryIf (P : Prop) `{!Decision P} (entry : string) : list string :=
  if bool_decide P then [entry] else [].

(** The lookups of the reconciler take the first row the database returns.
    A record resolves uniquely in a table when that choice does not depend
    on the order of the rows: at most one row carries its external ID
    (the constraint [unique_bfv_external] sees to that for the rows of one
    source) and, where none does, at most one active row carries its team
    names. *)
Definition resolvesUniquely (evs : list CalendarEventDb) (m : ParsedBfvMatch) : Prop :=
  length (filter (byExternalId m) evs) <= 1
  /\ (filter (byExternalId m) evs = [] -> length (filter (byTeams m) evs) <= 1).

(** The key of the unique constraint [unique_bfv_external]; a NULL external
    ID is distinct from every other. *)
Definition externalKey (e : CalendarEventDb) : option (EventSource * string) :=
  (fun x => (source e, x)) <$> externalId e.

Definition uniqueExternal (evs : list CalendarEventDb) : Prop :=
  NoDup (omap externalKey evs).

(** A row of the table after the archival pass: as before, or a missing
    row archived. *)
Definition archivedOrKept (seen : gset string) (e e' : CalendarEventDb) : Prop :=
  e' = e \/ (isMissing seen e = true /\ e' = applySet archiveSet e).

Definition countArchived (evs : list CalendarEventDb) : nat :=
  length (filter (fun e => status e = ARCHIVED) evs).

(** A time of day as the parsers deliver it: two digits, a colon, two
    digits. *)
Definition timeOfDay (h m : nat) : string :=
  JsStr.padStart 2 "0" (JsStr.natToString h) +:+ ":" +:+ JsStr.padStart 2 "0" (JsStr.natToString m).

(** The table as the rows of the start, each in its place, followed by
    the rows created since. *)
Definition keptAndCreated (evs0 : list CalendarEventDb) (fr : Frame) : Prop :=
  exists kept created,
    calendarEvents (store fr) = kept ++ created
    /\ Forall2 evolves evs0 kept
    /\ length created = createdCount (summary fr)
    /\ Forall (fun e => source e = BFV /\ type e = spiel) created.

(** *** Sample data for the further examples *)

(** [exampleMatch] as another source writes it. *)
Definition exampleMatchShouted : ParsedBfvMatch :=
  {| m_externalId := ""; m_date := "2026-03-01"; m_startTime := "15:00";
     m_endTime := "17:00"; m_teamHome := " SV A"; m_teamAway := "CLUB ";
     m_team := herren; m_isHomeGame := true; m_opponent := "SV A";
     m_competition := "KREISLIGA "; m_location := None; m_rawData := None |}.

(** A training entered by hand, on the field and the day of
    [storedHomeEvent] and overlapping it. *)
Definition trainingEvent : CalendarEventDb :=
  {| id := 3; source := MANUAL; externalId := None; recurringGroupId := None;
     type := training; title := "Training C-Jugend"; team := Some c_jugend;
     teamHome := None; teamAway := None; field := Some b_platz;
     date := "2026-03-01"; startTime := "16:00"; endTime := "17:30";
     isHomeGame := None; opponent := None; location := None;
     competition := None; description := Some "Halbfeld"; rawPayload := None;
     status := ACTIVE |}.

(** A training that starts when [storedHomeEvent] ends. *)
Definition trainingAfterGame : CalendarEventDb :=
  {| id := 4; source := MANUAL; externalId := None; recurringGroupId := None;
     type := training; title := "Training Herren"; team := Some herren;
     teamHome := None; teamAway := None; field := Some b_platz;
     date := "2026-03-01"; startTime := "17:00"; endTime := "18:30";
     isHomeGame := None; opponent := None; location := None;
     competition := None; description := None; rawPayload := None;
     status := ACTIVE |}.

(** A game under floodlight, as an import stores it, and a training that
    runs into it. *)
Definition lateGame : CalendarEventDb :=
  {| id := 5; source := BFV; externalId := Some "bfv-5"; recurringGroupId := None;
     type := spiel; title := "TSV Greding vs SV A"; team := Some herren;
     teamHome := Some "TSV Greding"; teamAway := Some "SV A"; field := Some a_platz;
     date := "2026-04-10"; startTime := "22:30"; endTime := "00:30";
     isHomeGame := Some true; opponent := Some "SV A"; location := None;
     competition := Some "Pokal"; description := None; rawPayload := None;
     status := ACTIVE |}.

Definition lateTraining : CalendarEventDb :=
  {| id := 6; source := MANUAL; externalId := None; recurringGroupId := None;
     type := training; title := "Training Alte Herren"; team := Some alte_herren;
     teamHome := None; teamAway := None; field := Some a_platz;
     date := "2026-04-10"; startTime := "21:00"; endTime := "23:00";
     isHomeGame := None; opponent := None; location := None;
     competition := None; description := None; rawPayload := None;
     status := ACTIVE |}.

(** A store with an older fixture and a training entered by hand, and a
    database that rejects the third call. *)
Definition mixedStore : Store :=
  storeOf [storedOldEvent; trainingEvent] [herrenOnAPlatz] 4 [None; None; Some "timeout"].

(** A frame of the archival pass: one fixture seen, one not, and a
    database that rejects the update. *)
Definition archivalFrame : Frame :=
  {| store := storeOf [storedOldEvent; storedHomeEvent; trainingEvent] [] 4
                [None; None; Some "timeout"];
     summary := emptySummary;
     processedExternalIds := {[ "bfv-1" ]} |}.


(** An edit of the kick-off time. *)
Definition kickOffEdit : PartialCalendarEvent :=
  {| p_title := None; p_type := None; p_team := None; p_field := None; p_date := None;
     p_startTime := Some "18:00"; p_endTime := Some "20:00"; p_isHomeGame := None;
     p_opponent := None; p_location := Some ""; p_competition := None;
     p_description := None; p_bfvImported := None; p_bfvMatchId := None;
     p_recurringGroupId := None |}.

(** The two legs of a pairing in one table, and what the database may
    return for the table after an edit of the row with id 0: the rows in
    the other order. *)
Definition twoLegs : Store := storeOf [storedHomeEvent; storedSecondLegEvent] [] 3 [].

Definition twoLegsAfter (data : PartialCalendarEvent) : Store :=
  storeOf (reverse (calendarEvents (snd (updateCalendarEvent 0 data twoLegs)))) [] 3 [].

Definition herrenOnBPlatz : FieldMappingDb :=
  {| fm_team := herren; fm_eventType := spiel; fm_defaultField := b_platz |}.

(** Two entries of one schedule: the first and the second team at home
    against the same opponent at the same hour. *)
Definition pdfFirstTeam : ParsedPdfMatch :=
  {| pdf_type := "ME"; pdf_league := "Kreisliga"; pdf_date := "2026-03-01";
     pdf_time := "15:00"; pdf_homeTeam := "TSV Greding"; pdf_awayTeam := "SV A";
     pdf_location := None; pdf_team := herren; pdf_isHome := true |}.

Definition pdfSecondTeam : ParsedPdfMatch :=
  {| pdf_type := "ME"; pdf_league := "A-Klasse"; pdf_date := "2026-03-01";
     pdf_time := "15:00"; pdf_homeTeam := "TSV Greding II"; pdf_awayTeam := "SV A";
     pdf_location := None; pdf_team := herren2; pdf_isHome := true |}.

(** A stand-in for the JSON text of an entry. *)
Definition pdfJson (p : ParsedPdfMatch) : string :=
  "{" +:+ pdf_homeTeam p +:+ " - " +:+ pdf_awayTeam p +:+ "}".

(** What the callback of the PDF import makes of [pdfFirstTeam]. *)
Definition pdfFirstTeamMatch : ParsedBfvMatch :=
  {| m_externalId := "pdf-2026-03-01-15:00-TSVGredin-SVA"; m_date := "2026-03-01";
     m_startTime := "15:00"; m_endTime := "17:00"; m_teamHome := "TSV Greding";
     m_teamAway := "SV A"; m_team := herren; m_isHomeGame := true; m_opponent := "SV A";
     m_competition := "Kreisliga"; m_location := None;
     m_rawData := Some "{TSV Greding - SV A}" |}.

(** An edit of the title and the opponent. *)
Definition titleEdit : PartialCalendarEvent :=
  {| p_title := Some "Derby"; p_type := None; p_team := None; p_field := None;
     p_date := None; p_startTime := None; p_endTime := None; p_isHomeGame := None;
     p_opponent := Some "SV A (Derby)"; p_location := None; p_competition := None;
     p_description := None; p_bfvImported := None; p_bfvMatchId := None;
     p_recurringGroupId := None |}.

(** * Properties *)

(** ** The key generator *)

Lemma ascii_of_code c n : Js.code c = n -> c = ascii_of_nat n.
Proof. intros <-. unfold Js.code. symmetry. apply ascii_nat_embedding. Qed.

Lemma lowerChar_sameLetter c1 c2 : sameLetter c1 c2 -> Js.lowerChar c1 = Js.lowerChar c2.
Proof.
  intros [->|[[Hu Hc]|[Hu Hc]]]; [reflexivity| |].
  - apply ascii_of_code in Hc. subst c2.
    destruct c1 as [[] [] [] [] [] [] [] []]; try discriminate Hu; reflexivity.
  - apply ascii_of_code in Hc. subst c1.
    destruct c2 as [[] [] [] [] [] [] [] []]; try discriminate Hu; reflexivity.
Qed.

Lemma isWhiteSpace_lowerChar c : Js.isWhiteSpace (Js.lowerChar c) = Js.isWhiteSpace c.
Proof. destruct c as [[] [] [] [] [] [] [] []]; reflexivity. Qed.

Lemma toLowerCase_sameUpToCase s1 s2 :
  sameUpToCase s1 s2 -> Js.toLowerCase s1 = Js.toLowerCase s2.
Proof.
  induction 1 as [|c1 c2 s1 s2 Hc _ IH]; simpl; [reflexivity|].
  rewrite (lowerChar_sameLetter _ _ Hc), IH. reflexivity.
Qed.

Lemma toLowerCase_app s1 s2 :
  Js.toLowerCase (s1 +:+ s2) = Js.toLowerCase s1 +:+ Js.toLowerCase s2.
Proof. induction s1 as [|c s1 IH]; simpl; [reflexivity|]. now rewrite IH. Qed.

Lemma allWhiteSpace_toLowerCase s : allWhiteSpace (Js.toLowerCase s) = allWhiteSpace s.
Proof.
  induction s as [|c s IH]; simpl; [reflexivity|].
  now rewrite isWhiteSpace_lowerChar, IH.
Qed.

Lemma trimStart_app_space l s : allWhiteSpace l = true -> Js.trimStart (l +:+ s) = Js.trimStart s.
Proof.
  induction l as [|c l IH]; simpl; [reflexivity|].
  intros [Hc Hl]%andb_prop. rewrite Hc. auto.
Qed.

Lemma trimEnd_space r : allWhiteSpace r = true -> Js.trimEnd r = "".
Proof.
  induction r as [|c r IH]; simpl; [reflexivity|].
  intros [Hc Hr]%andb_prop. rewrite (IH Hr), Hc. reflexivity.
Qed.

Lemma trimEnd_app_space s r : allWhiteSpace r = true -> Js.trimEnd (s +:+ r) = Js.trimEnd s.
Proof.
  intros Hr. induction s as [|c s IH]; simpl.
  - now apply trimEnd_space.
  - now rewrite IH.
Qed.

Lemma trimStart_space r : allWhiteSpace r = true -> Js.trimStart r = "".
Proof.
  induction r as [|y r IH]; simpl; [reflexivity|].
  intros [-> Hr]%andb_prop. auto.
Qed.

Lemma trim_core l c r :
  allWhiteSpace l = true -> allWhiteSpace r = true ->
  Js.trim (l +:+ c +:+ r) = Js.trim c.
Proof.
  intros Hl Hr. unfold Js.trim. rewrite (trimStart_app_space _ _ Hl).
  induction c as [|x c IH].
  - change ("" +:+ r) with r. now rewrite (trimStart_space _ Hr).
  - change (String x c +:+ r) with (String x (c +:+ r)).
    cbn [Js.trimStart]. destruct (Js.isWhiteSpace x); [exact IH|].
    change (String x (c +:+ r)) with (String x c +:+ r).
    apply trimEnd_app_space, Hr.
Qed.

Lemma normalize_outer s1 s2 :
  sameUpToCaseAndOuterSpace s1 s2 ->
  Js.trim (Js.toLowerCase s1) = Js.trim (Js.toLowerCase s2).
Proof.
  intros (l1 & c1 & r1 & l2 & c2 & r2 & -> & -> & Hl1 & Hr1 & Hl2 & Hr2 & Hc).
  rewrite !toLowerCase_app.
  rewrite !trim_core by (now rewrite allWhiteSpace_toLowerCase).
  now rewrite (toLowerCase_sameUpToCase _ _ Hc).
Qed.

(** C8, as the code has it. The key is a function of its arguments alone,
    and it does not depend on the letter case of the team names and of the
    competition, nor on whitespace before or after them: two team names, or
    two competitions that are both present, that differ only in letter case
    and in leading or trailing whitespace give the same key (for the same
    date), as do two absent or empty competitions. Whitespace inside a
    name is kept. *)
Theorem generateMatchKey_insensitive h1 h2 a1 a2 date c1 c2 :
  sameUpToCaseAndOuterSpace h1 h2 ->
  sameUpToCaseAndOuterSpace a1 a2 ->
  sameCompetition c1 c2 ->
  generateMatchKey h1 a1 date c1 = generateMatchKey h2 a2 date c2.
Proof.
  intros Hh Ha Hc. unfold generateMatchKey.
  rewrite (normalize_outer _ _ Hh), (normalize_outer _ _ Ha).
  destruct Hc as [[H1 H2]|(s1 & s2 & -> & -> & H1 & H2 & Hs)].
  - destruct c1 as [s1|], c2 as [s2|]; simpl in H1, H2; rewrite ?H1, ?H2; reflexivity.
  - rewrite H1, H2, (normalize_outer _ _ Hs). reflexivity.
Qed.

(** C8 fails as stated: "SV  A" and "SV A" differ only in whitespace and
    give different keys. *)
Lemma generateMatchKey_space_sensitive :
  sameUpToCaseAndSpace "SV  A" "SV A"
  /\ generateMatchKey "SV  A" "Club" "2026-03-01" None
     <> generateMatchKey "SV A" "Club" "2026-03-01" None.
Proof.
  split.
  - unfold sameUpToCaseAndSpace. simpl. repeat constructor.
  - discriminate.
Qed.

(** A competition of whitespace only is present for the generator: its
    key ends in a separator, unlike the key of an empty competition. *)
Example generateMatchKey_blank_competition :
  generateMatchKey "SV A" "Club" "2026-03-01" (Some " ") = "sv a|club|2026-03-01|"
  /\ generateMatchKey "SV A" "Club" "2026-03-01" (Some EmptyString) = "sv a|club|2026-03-01".
Proof. split; reflexivity. Qed.

(** ** The change detector *)

Lemma truthy_true s : Js.truthy s = true <-> s <> "".
Proof.
  unfold Js.truthy. destruct (String.eqb_spec s ""); simpl; split; congruence.
Qed.

Lemma matchNeedsUpdate_changes existing m newField :
  changes (matchNeedsUpdate existing m newField) =
    (if bool_decide (ev_date existing <> m_date m)
     then ["Datum: " +:+ ev_date existing +:+ " -> " +:+ m_date m] else [])
    ++ (if bool_decide (ev_startTime existing <> m_startTime m)
        then ["Startzeit: " +:+ ev_startTime existing +:+ " -> " +:+ m_startTime m] else [])
    ++ (if bool_decide (ev_endTime existing <> m_endTime m)
        then ["Endzeit: " +:+ ev_endTime existing +:+ " -> " +:+ m_endTime m] else [])
    ++ match newField with
       | Some f => if bool_decide (ev_field existing <> Some f)
                   then [fieldEntry existing f] else []
       | None => []
       end
    ++ match m_location m with
       | Some l => if Js.truthy l && bool_decide (ev_location existing <> Some l)
                   then [locationEntry existing l] else []
       | None => []
       end
    ++ (if Js.truthy (m_competition m)
           && bool_decide (ev_competition existing <> Some (m_competition m))
        then [competitionEntry existing (m_competition m)] else []).
Proof.
  unfold matchNeedsUpdate, fieldEntry, locationEntry, competitionEntry. cbn [changes].
  destruct (bool_decide (ev_date existing <> m_date m));
    destruct (bool_decide (ev_startTime existing <> m_startTime m));
    destruct (bool_decide (ev_endTime existing <> m_endTime m));
    destruct newField as [f|]; try destruct (bool_decide (ev_field existing <> Some f));
    destruct (m_location m) as [l|];
    try destruct (Js.truthy l && bool_decide (ev_location existing <> Some l));
    destruct (Js.truthy (m_competition m)
              && bool_decide (ev_competition existing <> Some (m_competition m)));
    reflexivity.
Qed.

Lemma needsUpdate_length existing m newField :
  needsUpdate (matchNeedsUpdate existing m newField)
  = (0 <? length (changes (matchNeedsUpdate existing m newField)))%nat.
Proof. reflexivity. Qed.

Lemma needsUpdate_changes existing m newField :
  needsUpdate (matchNeedsUpdate existing m newField) = true
  <-> changes (matchNeedsUpdate existing m newField) <> [].
Proof.
  rewrite needsUpdate_length.
  destruct (changes (matchNeedsUpdate existing m newField)); cbn; split; intros; done.
Qed.

Lemma truthy_and_bool_decide s (P : Prop) `{!Decision P} :
  Js.truthy s && bool_decide P = bool_decide (s <> "" /\ P).
Proof.
  destruct (Js.truthy s) eqn:Ht; simpl.
  - apply truthy_true in Ht. apply bool_decide_ext. tauto.
  - symmetry. apply bool_decide_eq_false. intros [Hs _].
    apply truthy_true in Hs. congruence.
Qed.

Lemma elem_of_entryIf (P : Prop) `{!Decision P} entry x :
  x ∈ entryIf P entry <-> P /\ x = entry.
Proof.
  unfold entryIf. case_bool_decide.
  - rewrite list_elem_of_singleton. tauto.
  - split; [intros H'; inversion H'|tauto].
Qed.

(** The change list, comparison by comparison. *)
Lemma matchNeedsUpdate_entries existing m newField :
  changes (matchNeedsUpdate existing m newField) =
    entryIf (ev_date existing <> m_date m) (dateEntry existing m)
    ++ entryIf (ev_startTime existing <> m_startTime m) (startTimeEntry existing m)
    ++ entryIf (ev_endTime existing <> m_endTime m) (endTimeEntry existing m)
    ++ match newField with
       | Some f => entryIf (ev_field existing <> Some f) (fieldEntry existing f)
       | None => []
       end
    ++ match m_location m with
       | Some l => entryIf (l <> "" /\ ev_location existing <> Some l)
                     (locationEntry existing l)
       | None => []
       end
    ++ entryIf (m_competition m <> ""
                /\ ev_competition existing <> Some (m_competition m))
         (competitionEntry existing (m_competition m)).
Proof.
  rewrite matchNeedsUpdate_changes. unfold entryIf.
  rewrite (truthy_and_bool_decide (m_competition m)).
  destruct (m_location m) as [l|]; [rewrite (truthy_and_bool_decide l)|]; reflexivity.
Qed.

(** C3. [needsUpdate] is true exactly when the change list is not empty,
    and the change list is exactly this: the entry for the date where the
    stored date differs from the record's, then likewise the entries for
    the start time and the end time, then the entry for the field where a
    field was resolved and differs from the stored one, the entry for the
    location where the record has a non-empty location that differs, and
    the entry for the competition where the record's competition is not
    empty and differs. So an entry of any of the six kinds ("Datum: ",
    "Startzeit: ", "Endzeit: ", "Platz: ", "Ort: ", "Wettbewerb: ") is in
    the list only if the incoming value is present and differs from the
    stored one, and it is in the list whenever that is so; an absent value
    never adds an entry, and [needsUpdate] is true exactly when one of the
    six comparisons finds a present value that differs. *)
Theorem matchNeedsUpdate_precise existing m newField :
  let chk := matchNeedsUpdate existing m newField in
  (needsUpdate chk = true <-> changes chk <> [])
  /\ (forall entry, entry ∈ changes chk ->
       (String.prefix "Platz: " entry = true ->
          exists f, newField = Some f /\ ev_field existing <> Some f)
       /\ (String.prefix "Ort: " entry = true ->
          exists l, m_location m = Some l /\ l <> "" /\ ev_location existing <> Some l)
       /\ (String.prefix "Wettbewerb: " entry = true ->
          m_competition m <> "" /\ ev_competition existing <> Some (m_competition m))
       /\ (String.prefix "Datum: " entry = true -> ev_date existing <> m_date m)
       /\ (String.prefix "Startzeit: " entry = true ->
          ev_startTime existing <> m_startTime m)
       /\ (String.prefix "Endzeit: " entry = true -> ev_endTime existing <> m_endTime m))
  /\ (forall f, newField = Some f -> ev_field existing <> Some f ->
        fieldEntry existing f ∈ changes chk)
  /\ (forall l, m_location m = Some l -> l <> "" -> ev_location existing <> Some l ->
        locationEntry existing l ∈ changes chk)
  /\ (m_competition m <> "" -> ev_competition existing <> Some (m_competition m) ->
        competitionEntry existing (m_competition m) ∈ changes chk)
  /\ (ev_date existing <> m_date m -> dateEntry existing m ∈ changes chk)
  /\ (ev_startTime existing <> m_startTime m -> startTimeEntry existing m ∈ changes chk)
  /\ (ev_endTime existing <> m_endTime m -> endTimeEntry existing m ∈ changes chk)
  /\ changes chk =
       entryIf (ev_date existing <> m_date m) (dateEntry existing m)
       ++ entryIf (ev_startTime existing <> m_startTime m) (startTimeEntry existing m)
       ++ entryIf (ev_endTime existing <> m_endTime m) (endTimeEntry existing m)
       ++ match newField with
          | Some f => entryIf (ev_field existing <> Some f) (fieldEntry existing f)
          | None => []
          end
       ++ match m_location m with
          | Some l => entryIf (l <> "" /\ ev_location existing <> Some l)
                        (locationEntry existing l)
          | None => []
          end
       ++ entryIf (m_competition m <> ""
                   /\ ev_competition existing <> Some (m_competition m))
            (competitionEntry existing (m_competition m))
  /\ (needsUpdate chk = true <->
        ev_date existing <> m_date m
        \/ ev_startTime existing <> m_startTime m
        \/ ev_endTime existing <> m_endTime m
        \/ (exists f, newField = Some f /\ ev_field existing <> Some f)
        \/ (exists l, m_location m = Some l /\ l <> "" /\ ev_location existing <> Some l)
        \/ (m_competition m <> "" /\ ev_competition existing <> Some (m_competition m))).
Proof.
  intros chk. split; [apply needsUpdate_changes|].
  assert (forall entry, entry ∈ changes chk <->
            (ev_date existing <> m_date m /\ entry = dateEntry existing m)
            \/ (ev_startTime existing <> m_startTime m /\ entry = startTimeEntry existing m)
            \/ (ev_endTime existing <> m_endTime m /\ entry = endTimeEntry existing m)
            \/ (exists f, newField = Some f /\ ev_field existing <> Some f
                          /\ entry = fieldEntry existing f)
            \/ (exists l, m_location m = Some l /\ l <> "" /\ ev_location existing <> Some l
                          /\ entry = locationEntry existing l)
            \/ (m_competition m <> "" /\ ev_competition existing <> Some (m_competition m)
                /\ entry = competitionEntry existing (m_competition m))) as Hin.
  { intros entry. subst chk. rewrite matchNeedsUpdate_entries, !elem_of_app.
    rewrite !elem_of_entryIf.
    destruct newField as [f|], (m_location m) as [l|];
      rewrite ?elem_of_entryIf, ?elem_of_nil; naive_solver. }
  split; [|split; [|split; [|split; [|split; [|split; [|split; [|split]]]]]]].
  - intros entry [(H & ->)|[(H & ->)|[(H & ->)|[(f & Hf & H & ->)|[(l & Hl & Hne & H & ->)
                   |(Hne & H & ->)]]]]]%Hin;
      unfold dateEntry, startTimeEntry, endTimeEntry, fieldEntry, locationEntry,
        competitionEntry; simpl;
      (split; [|split; [|split; [|split; [|split]]]]);
      first [discriminate | intros _; solve [eauto]].
  - intros f Hf H. apply Hin. do 3 right. left. eauto.
  - intros l Hl Hne H. apply Hin. do 4 right. left. eauto.
  - intros Hne H. apply Hin. do 5 right. auto.
  - intros H. apply Hin. left. auto.
  - intros H. apply Hin. right. left. auto.
  - intros H. apply Hin. do 2 right. left. auto.
  - apply matchNeedsUpdate_entries.
  - assert (changes chk <> [] <-> exists entry, entry ∈ changes chk) as Hne.
    { destruct (changes chk) as [|x l]; split; try done.
      - intros [entry H]. inversion H.
      - intros _. exists x. left. }
    subst chk. rewrite needsUpdate_changes, Hne. split.
    + intros [entry [(H & _)|[(H & _)|[(H & _)|[(f & Hf & H & _)|[(l & Hl & Hn & H & _)
                      |(Hn & H & _)]]]]]%Hin]; eauto 10.
    + intros [H|[H|[H|[(f & Hf & H)|[(l & Hl & Hn & H)|(Hn & H)]]]]].
      * exists (dateEntry existing m). apply Hin. auto.
      * exists (startTimeEntry existing m). apply Hin. auto.
      * exists (endTimeEntry existing m). apply Hin. auto.
      * exists (fieldEntry existing f). apply Hin. do 3 right. left. eauto.
      * exists (locationEntry existing l). apply Hin. do 4 right. left. eauto.
      * exists (competitionEntry existing (m_competition m)). apply Hin. do 5 right. auto.
Qed.

(** ** Lists of rows *)

Section rows.
Context {A : Type} (P : A -> Prop) `{!forall x, Decision (P x)}.

Lemma head_filter_split l c :
  head (filter P l) = Some c ->
  exists l1 l2, l = l1 ++ c :: l2 /\ P c /\ filter P l1 = [].
Proof.
  induction l as [|x l IH]; [discriminate|].
  rewrite filter_cons. destruct (decide (P x)) as [Hx|Hx].
  - intros [= ->]. exists [], l. auto.
  - intros (l1 & l2 & -> & Hc & Hl1)%IH. exists (x :: l1), l2.
    split; [reflexivity|]. split; [exact Hc|].
    rewrite filter_cons_False by exact Hx. exact Hl1.
Qed.

Lemma head_filter_app_nil l1 l2 :
  filter P l1 = [] -> head (filter P (l1 ++ l2)) = head (filter P l2).
Proof. intros Hnil. rewrite filter_app, Hnil. reflexivity. Qed.

Lemma filter_nil_iff l : filter P l = [] <-> forall x, x ∈ l -> ~ P x.
Proof.
  split.
  - intros Hnil x Hin Hp. eapply filter_nil_not_elem_of; eauto.
  - intros Hall. destruct (filter P l) as [|x k] eqn:E; [reflexivity|].
    assert (x ∈ filter P l) as [Hp Hin]%list_elem_of_filter by (rewrite E; left).
    destruct (Hall x Hin Hp).
Qed.
End rows.

Lemma updateById_other u i l :
  (forall e, e ∈ l -> id e <> i) -> updateById u i l = l.
Proof.
  intros H. unfold updateById. induction l as [|e l IH]; [reflexivity|].
  rewrite fmap_cons. rewrite IH by (intros; apply H; now right).
  destruct (decide (id e = i)) as [He|]; [|reflexivity].
  destruct (H e); [left|exact He].
Qed.

Lemma updateById_split u c l1 l2 :
  NoDup (id <$> (l1 ++ c :: l2)) ->
  updateById u (id c) (l1 ++ c :: l2) = l1 ++ applySet u c :: l2.
Proof.
  rewrite fmap_app, fmap_cons. intros (H1 & H12 & [Hc H2]%NoDup_cons)%NoDup_app.
  unfold updateById. rewrite fmap_app, fmap_cons.
  fold (updateById u (id c) l1). fold (updateById u (id c) l2).
  rewrite !updateById_other.
  - destruct (decide (id c = id c)); [reflexivity|congruence].
  - intros e He Heq. apply Hc. rewrite <- Heq. now apply list_elem_of_fmap_2.
  - intros e He Heq. apply (H12 (id e)); [now apply list_elem_of_fmap_2|].
    rewrite Heq. left.
Qed.


(** ** One iteration of the loop *)

Ltac unfold_service :=
  unfold processMatch, tryCatch, processMatchBody, getDefaultFieldForTeam, getDefaultField,
    selectMappings, updateEvents, insertEvent, randomUUID, onSummary,
    await, addProcessed, modify, getCalendarEventByBfvId, selectEvents, bind, gets, ret, dbCall,
    stepFrame, eventsAfter, summaryAfter, uuidAfter, decide3, resolveExisting, resolvedField,
    updateById.

Ltac rewrite_choices :=
  repeat (match goal with
          | H : head _ = _ |- _ => rewrite H
          | H : m_isHomeGame _ = _ |- _ => rewrite H
          | H : needsUpdate _ = _ |- _ => rewrite H
          end; simpl).

Ltac split_choices :=
  repeat (match goal with
  | |- context [match ?r with [] => _ | _ => _ end] => is_var r; destruct r as [|[?|] ?]
  | |- context [head (filter ?p ?l)] => destruct (head (filter p l)) eqn:?
  | |- context [m_isHomeGame ?m] => destruct (m_isHomeGame m) eqn:?
  | |- context [needsUpdate ?x] => destruct (needsUpdate x) eqn:?
  end; simpl).

#[local] Opaque matchNeedsUpdate generateExternalId generateMatchKey matchTitle
  updateSet insertValues errorEntry.

Lemma processMatch_spec m fr :
  fst (processMatch m fr) = Ok tt
  /\ processedExternalIds (snd (processMatch m fr))
     = {[ generateExternalId m ]} ∪ processedExternalIds fr
  /\ stepResult m fr (snd (processMatch m fr)).
Proof.
  destruct fr as [[evs maps hist n rej] sm seen].
  unfold_service; simpl.
  split_choices.
  all: split; [reflexivity | split; [reflexivity|]].
  all: first
    [ eapply step_error; [unfold_service; simpl; rewrite_choices; reflexivity | simpl; reflexivity ..]
    | eapply step_done; [unfold_service; simpl; rewrite_choices; reflexivity
                        | simpl; unfold_service; rewrite_choices; reflexivity .. ] ].
Qed.

(** Without rejections an iteration is [stepFrame]. *)
Lemma processMatch_accepted m fr :
  rejections (store fr) = [] -> processMatch m fr = (Ok tt, stepFrame m fr).
Proof.
  destruct fr as [[evs maps hist n rej] sm seen]. simpl. intros ->.
  unfold_service; simpl.
  split_choices; simplify_eq; try reflexivity; congruence.
Qed.

(** What the [catch] block leaves when the [try] block throws. *)
Lemma processMatch_thrown m fr msg :
  fst (processMatchBody m fr) = Throw msg ->
  exists r n,
    processMatch m fr =
      (Ok tt,
       {| store := withRejections r (withUuidCounter n (store fr));
          summary := recordError (errorEntry m msg) (summary fr);
          processedExternalIds := {[ generateExternalId m ]} ∪ processedExternalIds fr |}).
Proof.
  destruct fr as [[evs maps hist n rej] sm seen].
  unfold_service; simpl.
  split_choices; intros [= <-] || (intros ?; discriminate).
  all: eexists _, _; unfold withRejections, withUuidCounter; simpl; reflexivity.
Qed.

#[local] Transparent matchNeedsUpdate generateExternalId generateMatchKey matchTitle
  updateSet insertValues errorEntry.

(** ** The loop over the batch *)

Lemma forOf_processMatch_ok ms fr : fst (forOf ms processMatch fr) = Ok tt.
Proof.
  revert fr. induction ms as [|m ms IH]; intros fr; simpl; [reflexivity|].
  unfold bind. destruct (processMatch m fr) as [r fr'] eqn:E.
  pose proof (processMatch_spec m fr) as [Hok _]. rewrite E in Hok. simpl in Hok. subst r.
  apply IH.
Qed.

Lemma forOf_processMatch_cons m ms fr :
  forOf (m :: ms) processMatch fr = forOf ms processMatch (snd (processMatch m fr)).
Proof.
  simpl. unfold bind. destruct (processMatch m fr) as [r fr'] eqn:E.
  pose proof (processMatch_spec m fr) as [Hok _]. rewrite E in Hok. simpl in Hok. subst r.
  reflexivity.
Qed.

Lemma forOf_processMatch_app ms1 ms2 fr :
  forOf (ms1 ++ ms2) processMatch fr
  = forOf ms2 processMatch (snd (forOf ms1 processMatch fr)).
Proof.
  revert fr. induction ms1 as [|m ms1 IH]; intros fr; [reflexivity|].
  rewrite <- app_comm_cons, !forOf_processMatch_cons. apply IH.
Qed.

Lemma stepResult_counted m fr fr' :
  stepResult m fr fr' ->
  recordsCounted (summary fr') = S (recordsCounted (summary fr))
  /\ archivedCount (summary fr') = archivedCount (summary fr).
Proof.
  unfold recordsCounted.
  intros [msg r n _ _ ->|r _ _ ->]; [simpl; lia|].
  unfold summaryAfter. destruct (decide3 _ _ _); simpl; lia.
Qed.

Lemma forOf_processMatch_counted ms fr :
  recordsCounted (summary (snd (forOf ms processMatch fr)))
  = recordsCounted (summary fr) + length ms
  /\ archivedCount (summary (snd (forOf ms processMatch fr))) = archivedCount (summary fr).
Proof.
  revert fr. induction ms as [|m ms IH]; intros fr.
  - simpl. lia.
  - rewrite forOf_processMatch_cons.
    destruct (IH (snd (processMatch m fr))) as [-> ->].
    destruct (processMatch_spec m fr) as (_ & _ & Hs).
    apply stepResult_counted in Hs as [-> ->]. simpl. lia.
Qed.

(** ** The archival pass *)

Lemma sameRecordCounts_refl sm : sameRecordCounts sm sm.
Proof. repeat split. Qed.

Lemma sameRecordCounts_trans sm1 sm2 sm3 :
  sameRecordCounts sm1 sm2 -> sameRecordCounts sm2 sm3 -> sameRecordCounts sm1 sm3.
Proof. unfold sameRecordCounts. intuition congruence. Qed.

(** Whatever the database rejects, an iteration of the archival loop keeps
    the record counts, the seen set, and every table but the events. *)
Lemma archiveIfMissing_frame x fr :
  let fr' := snd (archiveIfMissing x fr) in
  sameRecordCounts (summary fr) (summary fr')
  /\ processedExternalIds fr' = processedExternalIds fr
  /\ fieldMappings (store fr') = fieldMappings (store fr)
  /\ bfvImportHistory (store fr') = bfvImportHistory (store fr).
Proof.
  destruct fr as [[evs maps hist n rej] sm seen].
  unfold archiveIfMissing, updateEvents, onSummary, await, modify, selectEvents, bind, gets,
    ret, dbCall. simpl.
  destruct (bool_decide (x ∈ seen)); simpl; [repeat split|].
  destruct rej as [|[msg|] rej]; simpl; [| repeat split |].
  all: destruct (head (filter _ evs)); simpl; [|repeat split].
  all: try (destruct rej as [|[msg|] rej]; simpl); repeat split.
Qed.

Lemma forOf_archiveIfMissing_frame ids fr :
  let fr' := snd (forOf ids archiveIfMissing fr) in
  sameRecordCounts (summary fr) (summary fr')
  /\ processedExternalIds fr' = processedExternalIds fr
  /\ fieldMappings (store fr') = fieldMappings (store fr)
  /\ bfvImportHistory (store fr') = bfvImportHistory (store fr).
Proof.
  revert fr. induction ids as [|x ids IH]; intros fr; simpl; [repeat split|].
  unfold bind. pose proof (archiveIfMissing_frame x fr) as H.
  destruct (archiveIfMissing x fr) as [[[]|msg] fr1]; simpl in *; [|exact H].
  destruct H as (Hc & Hs & Hm & Hh). specialize (IH fr1). simpl in IH.
  destruct IH as (Hc' & Hs' & Hm' & Hh').
  split; [eapply sameRecordCounts_trans; eassumption|]. repeat split; congruence.
Qed.

(** The pass never throws and keeps the record counts. *)
Lemma archiveMissingEvents_frame am fr :
  let fr' := snd (archiveMissingEvents am fr) in
  fst (archiveMissingEvents am fr) = Ok tt
  /\ sameRecordCounts (summary fr) (summary fr')
  /\ processedExternalIds fr' = processedExternalIds fr
  /\ fieldMappings (store fr') = fieldMappings (store fr)
  /\ bfvImportHistory (store fr') = bfvImportHistory (store fr).
Proof.
  unfold archiveMissingEvents, bind, gets, tryCatch. simpl.
  destruct (am && _); [|unfold ret; simpl; repeat split].
  unfold await, getBfvEventIds, selectEvents, bind, gets, ret, dbCall.
  destruct fr as [[evs maps hist n rej] sm seen]. simpl.
  destruct rej as [|[msg|] rej]; simpl; [| repeat split |].
  all: match goal with |- context [forOf ?ids archiveIfMissing ?fr] =>
         pose proof (forOf_archiveIfMissing_frame ids fr) as H;
         destruct (forOf ids archiveIfMissing fr) as [[[]|msg] fr1] end;
       simpl in *; split; try reflexivity; exact H.
Qed.

(** Without the flag the pass does nothing. *)
Lemma archiveMissingEvents_off fr : archiveMissingEvents false fr = (Ok tt, fr).
Proof. reflexivity. Qed.

(** *** The pass when the database rejects nothing *)

Lemma addArchived_0 sm : addArchived 0 sm = sm.
Proof. destruct sm. unfold addArchived. simpl. f_equal. lia. Qed.

Lemma addArchived_S k sm : addArchived k (incArchived sm) = addArchived (S k) sm.
Proof. unfold addArchived, incArchived. simpl. f_equal. lia. Qed.

Lemma isMissing_archived seen e : isMissing seen (applySet archiveSet e) = false.
Proof.
  unfold isMissing. cbn [status applySet archiveSet s_status default].
  rewrite (bool_decide_false (ARCHIVED = ACTIVE)) by discriminate.
  now rewrite andb_false_r.
Qed.

Lemma archiveIfMissing_seen x fr :
  x ∈ processedExternalIds fr -> archiveIfMissing x fr = (Ok tt, fr).
Proof.
  intros Hx. unfold archiveIfMissing, bind, gets, ret.
  rewrite (bool_decide_true _ Hx). reflexivity.
Qed.

Lemma archiveIfMissing_accepted x s sm seen :
  rejections s = [] -> x ∉ seen ->
  archiveIfMissing x {| store := s; summary := sm; processedExternalIds := seen |}
  = match head (filter (fun e => externalId e = Some x /\ source e = BFV /\ status e = ACTIVE)
                  (calendarEvents s)) with
    | Some event =>
        (Ok tt,
         {| store := withEvents (updateById archiveSet (id event) (calendarEvents s)) s;
            summary := incArchived sm; processedExternalIds := seen |})
    | None => (Ok tt, {| store := s; summary := sm; processedExternalIds := seen |})
    end.
Proof.
  destruct s as [evs maps hist n rej]. simpl. intros -> Hx.
  unfold archiveIfMissing, bind, gets, ret, await, selectEvents, updateEvents, onSummary,
    modify, bind, gets, dbCall. simpl.
  rewrite (bool_decide_false _ Hx). simpl.
  destruct (head (filter _ evs)); reflexivity.
Qed.

Lemma forOf_cons_ok {S A} (body : A -> M S unit) x l s s' :
  body x s = (Ok tt, s') -> forOf (x :: l) body s = forOf l body s'.
Proof. intros H. simpl. unfold bind. rewrite H. reflexivity. Qed.

(** The archival loop over the external IDs of the rows of [todo], run on
    the table [done ++ todo] in which no row of [done] is missing. *)
Lemma archive_loop seen todo : forall done s sm,
  rejections s = [] ->
  NoDup (id <$> (done ++ todo)) ->
  (forall e, e ∈ done -> isMissing seen e = false) ->
  forOf (omap externalId (filter (fun e => source e = BFV /\ status e = ACTIVE) todo))
    archiveIfMissing
    {| store := withEvents (done ++ todo) s; summary := sm; processedExternalIds := seen |}
  = (Ok tt,
     {| store := withEvents (done ++ archiveMissingRows seen todo) s;
        summary := addArchived (countMissing seen todo) sm;
        processedExternalIds := seen |}).
Proof.
  induction todo as [|e todo IH]; intros done s sm Hrej Hnd Hdone.
  - simpl. unfold ret. now rewrite addArchived_0.
  - assert (forall e' t, done ++ e' :: t = (done ++ [e']) ++ t) as Hassoc
      by (intros; now rewrite <- app_assoc).
    assert (forall e', isMissing seen e' = false ->
              forall x, x ∈ done ++ [e'] -> isMissing seen x = false) as Hdone'.
    { intros e' He' x [Hx|Hx%list_elem_of_singleton]%elem_of_app; [auto|now subst]. }
    unfold archiveMissingRows, countMissing. rewrite fmap_cons. cbn [List.filter].
    fold (archiveMissingRows seen todo).
    rewrite filter_cons.
    destruct (decide (source e = BFV /\ status e = ACTIVE)) as [[Hsrc Hact]|Hna].
    + destruct (externalId e) as [x|] eqn:Hext.
      * cbn [omap list_omap]. rewrite Hext.
        destruct (decide (x ∈ seen)) as [Hx|Hx].
        -- assert (isMissing seen e = false) as Hm.
           { unfold isMissing. rewrite Hext, (bool_decide_false (x ∉ seen)) by auto.
             now rewrite andb_false_r. }
           rewrite Hm.
           erewrite forOf_cons_ok by (apply archiveIfMissing_seen; exact Hx).
           rewrite (Hassoc e todo), (Hassoc e (archiveMissingRows seen todo)).
           apply IH; [exact Hrej | now rewrite <- Hassoc | now apply Hdone'].
        -- assert (isMissing seen e = true) as Hm.
           { unfold isMissing. rewrite Hext, Hsrc, Hact.
             rewrite !bool_decide_true by auto. reflexivity. }
           rewrite Hm.
           erewrite forOf_cons_ok.
           2:{ rewrite archiveIfMissing_accepted by (exact Hrej || exact Hx).
               cbn [calendarEvents withEvents].
               rewrite head_filter_app_nil.
               2:{ apply filter_nil_iff. intros d Hd (Hdx & Hds & Hda).
                   specialize (Hdone d Hd). unfold isMissing in Hdone.
                   rewrite Hdx, Hds, Hda, !bool_decide_true in Hdone by auto. discriminate. }
               rewrite filter_cons_True by auto. cbn [head].
               rewrite updateById_split by exact Hnd. reflexivity. }
           rewrite (Hassoc (applySet archiveSet e) todo),
             (Hassoc (applySet archiveSet e) (archiveMissingRows seen todo)).
           cbn [length]. rewrite <- addArchived_S.
           specialize (IH (done ++ [applySet archiveSet e]) s (incArchived sm) Hrej).
           unfold withEvents in IH |- *. cbn in IH |- *. apply IH.
           ++ rewrite <- Hassoc. rewrite fmap_app, fmap_cons in Hnd |- *. exact Hnd.
           ++ apply Hdone'. apply isMissing_archived.
      * cbn [omap list_omap]. rewrite Hext.
        assert (isMissing seen e = false) as Hm.
        { unfold isMissing. rewrite Hext. now rewrite andb_false_r. }
        rewrite Hm. rewrite (Hassoc e todo), (Hassoc e (archiveMissingRows seen todo)).
        apply IH; [exact Hrej | now rewrite <- Hassoc | now apply Hdone'].
    + assert (isMissing seen e = false) as Hm.
      { unfold isMissing.
        destruct (decide (source e = BFV)) as [Hs|Hs];
          [|now rewrite (bool_decide_false _ Hs)].
        destruct (decide (status e = ACTIVE)) as [Ha|Ha];
          [tauto|]. rewrite (bool_decide_false _ Ha). now rewrite andb_false_r. }
      rewrite Hm. rewrite (Hassoc e todo), (Hassoc e (archiveMissingRows seen todo)).
      apply IH; [exact Hrej | now rewrite <- Hassoc | now apply Hdone'].
Qed.

(** ** The run as a whole *)

(** The last step of [importBfvMatches]: the history row is written and
    the summary returned, unless the database rejects the row. *)
Lemma importBfvMatches_eq s ms fn am :
  importBfvMatches s ms fn am =
    let fr := frameBeforeHistory s ms am in
    match rejections (store fr) with
    | Some msg :: rest => (Throw msg, withRejections rest (store fr))
    | None :: rest =>
        (Ok (summary fr),
         withHistory (bfvImportHistory (store fr) ++ [historyOf (summary fr) fn])
           (withRejections rest (store fr)))
    | [] =>
        (Ok (summary fr),
         withHistory (bfvImportHistory (store fr) ++ [historyOf (summary fr) fn]) (store fr))
    end.
Proof.
  unfold frameBeforeHistory, frameAfterLoop, importBfvMatches, importBfvMatchesM.
  fold (initialFrame s).
  pose proof (forOf_processMatch_ok ms (initialFrame s)) as Hok1.
  pose proof (archiveMissingEvents_frame am (snd (forOf ms processMatch (initialFrame s))))
    as [Hok2 _].
  cbv zeta. unfold bind at 1.
  destruct (forOf ms processMatch (initialFrame s)) as [r1 fr1].
  simpl in Hok1, Hok2 |- *. subst r1.
  unfold bind at 1.
  destruct (archiveMissingEvents am fr1) as [r2 fr2]. simpl in Hok2 |- *. subst r2.
  destruct fr2 as [[evs maps hist n rej] sm seen].
  unfold bind, gets, await, createImportHistory, insertHistory, bind, modify, dbCall. simpl.
  destruct rej as [|[msg|] rej]; reflexivity.
Qed.

(** [importBfvMatches] resolves to the summary of the frame the archival
    pass leaves, unless the database rejects the history row; the events
    table it leaves is the one of that frame. *)
Lemma importBfvMatches_result s ms fn am :
  let fr := frameBeforeHistory s ms am in
  fst (importBfvMatches s ms fn am)
    = match head (rejections (store fr)) with
      | Some (Some msg) => Throw msg
      | _ => Ok (summary fr)
      end
  /\ calendarEvents (snd (importBfvMatches s ms fn am)) = calendarEvents (store fr)
  /\ fieldMappings (snd (importBfvMatches s ms fn am)) = fieldMappings (store fr)
  /\ uuidCounter (snd (importBfvMatches s ms fn am)) = uuidCounter (store fr)
  /\ rejections (snd (importBfvMatches s ms fn am)) = tail (rejections (store fr)).
Proof.
  rewrite importBfvMatches_eq. cbv zeta.
  destruct (rejections (store (frameBeforeHistory s ms am))) as [|[msg|] rej] eqn:E;
    simpl; rewrite ?E; repeat split.
Qed.

Lemma frameAfterLoop_counted s ms :
  recordsCounted (summary (frameAfterLoop s ms)) = length ms
  /\ archivedCount (summary (frameAfterLoop s ms)) = 0.
Proof.
  unfold frameAfterLoop.
  destruct (forOf_processMatch_counted ms (initialFrame s)) as [-> ->]. split; reflexivity.
Qed.

Lemma frameBeforeHistory_counted s ms am :
  recordsCounted (summary (frameBeforeHistory s ms am)) = length ms.
Proof.
  unfold frameBeforeHistory.
  destruct (archiveMissingEvents_frame am (frameAfterLoop s ms))
    as (_ & (Hc & Hu & Hn & He & _) & _).
  destruct (frameAfterLoop_counted s ms) as [Hsum _]. unfold recordsCounted in *.
  rewrite Hc, Hu, Hn, He. exact Hsum.
Qed.

Lemma processMatch_counts_one m fr :
  let sm := summary fr in
  let sm' := summary (snd (processMatch m fr)) in
  sm' = incCreated sm \/ sm' = incUpdated sm \/ sm' = incUnchanged sm
  \/ exists msg, sm' = recordError (errorEntry m msg) sm.
Proof.
  cbv zeta. destruct (processMatch_spec m fr) as (_ & _ & [msg r n _ _ ->|r _ _ ->]).
  - right. right. right. eauto.
  - unfold summaryAfter. destruct (decide3 _ _ _); auto.
Qed.

(** C9. Every record of the batch is counted in exactly one of
    [createdCount], [updatedCount], [unchangedCount] and [errorCount]: one
    iteration of the loop adds one to exactly one of them; the four add up
    to the number of records, for every store (whatever the database
    rejects) and either value of [archiveMissing]; and this is the summary
    [importBfvMatches] resolves to, unless the database rejects the final
    history row. *)
Theorem importBfvMatches_counts_partition s ms fn am :
  let sm := summary (frameBeforeHistory s ms am) in
  (forall m fr,
     summary (snd (processMatch m fr)) = incCreated (summary fr)
     \/ summary (snd (processMatch m fr)) = incUpdated (summary fr)
     \/ summary (snd (processMatch m fr)) = incUnchanged (summary fr)
     \/ exists entry, summary (snd (processMatch m fr)) = recordError entry (summary fr))
  /\ createdCount sm + updatedCount sm + unchangedCount sm + errorCount sm = length ms
  /\ fst (importBfvMatches s ms fn am)
     = match head (rejections (store (frameBeforeHistory s ms am))) with
       | Some (Some msg) => Throw msg
       | _ => Ok sm
       end.
Proof.
  intros sm. split; [|split; [|apply importBfvMatches_result]].
  - intros m fr. destruct (processMatch_counts_one m fr) as [H|[H|[H|[msg H]]]]; eauto.
  - exact (frameBeforeHistory_counted s ms am).
Qed.

(** ** Properties of one record *)

(** C7. The end-to-end example: the single record of the specification,
    reconciled against an empty store whose database rejects nothing,
    gives [createdCount = 1] and one stored event, titled "SV A vs Club",
    with the generated external ID and the default field of the
    (herren, spiel) mapping when there is one, whatever the field mappings,
    the file name and the [archiveMissing] flag. *)
Theorem end_to_end_example maps fn am :
  let res := importBfvMatches (emptyStore maps) [exampleMatch] fn am in
  exists sm e,
    fst res = Ok sm
    /\ createdCount sm = 1
    /\ calendarEvents (snd res) = [e]
    /\ title e = "SV A vs Club"
    /\ externalId e = Some "sv a|club|2026-03-01|kreisliga"
    /\ field e = fm_defaultField <$>
                   head (filter (fun r => fm_team r = herren /\ fm_eventType r = spiel) maps).
Proof.
  destruct am; vm_compute; do 2 eexists; repeat split; reflexivity.
Qed.

Lemma elem_of_updateById u i evs e' :
  e' ∈ updateById u i evs ->
  exists e, e ∈ evs /\ ((id e = i /\ e' = applySet u e) \/ (id e <> i /\ e' = e)).
Proof.
  unfold updateById. intros (e & -> & Hin)%list_elem_of_fmap.
  exists e. split; [exact Hin|]. destruct (decide (id e = i)); auto.
Qed.

Lemma id_applySet u e : id (applySet u e) = id e.
Proof. reflexivity. Qed.

Lemma ids_updateById u i evs : id <$> updateById u i evs = id <$> evs.
Proof.
  unfold updateById. rewrite <- list_fmap_compose. apply list_fmap_ext.
  intros k e _. simpl. destruct (decide (id e = i)); reflexivity.
Qed.

(** C4. Away games: for a record with [isHomeGame = false] the field
    resolver returns [undefined] without a database call, whatever the
    field mappings; the row of the create branch and the [set] of the
    update branch carry no field; and every row of the events table that
    the record's iteration wrote (a row that was not in the table before)
    has its field unset. *)
Theorem away_game_field_unset m :
  m_isHomeGame m = false ->
  (forall s, getDefaultFieldForTeam (m_team m) (m_isHomeGame m) s = (Ok None, s))
  /\ (forall uuid x t f, field (insertValues m uuid x t f) = None)
  /\ (forall x t f e, field (applySet (updateSet m x t f) e) = None)
  /\ (forall fr e,
        e ∈ calendarEvents (store (snd (processMatch m fr))) ->
        e ∉ calendarEvents (store fr) ->
        field e = None).
Proof.
  intros Haway. repeat split.
  - intros s. rewrite Haway. reflexivity.
  - intros. simpl. rewrite Haway. reflexivity.
  - intros. simpl. rewrite Haway. reflexivity.
  - intros fr e Hin Hnew.
    destruct (processMatch_spec m fr) as (_ & _ & [msg r n _ Hs _|r _ Hs _]);
      rewrite Hs in Hin; simpl in Hin; [contradiction|].
    unfold eventsAfter in Hin. destruct (decide3 _ _ _) as [ex|ex|].
    + apply elem_of_updateById in Hin as (e0 & Hin0 & [[_ ->]|[_ ->]]); [|contradiction].
      simpl. rewrite Haway. reflexivity.
    + contradiction.
    + apply elem_of_app in Hin as [Hin|Hin]; [contradiction|].
      apply list_elem_of_singleton in Hin. subst e. simpl. rewrite Haway. reflexivity.
Qed.

Lemma resolvedField_unmapped maps m :
  (forall r, r ∈ maps -> ~ (fm_team r = m_team m /\ fm_eventType r = spiel)) ->
  resolvedField maps m = None.
Proof.
  intros Hno. unfold resolvedField. destruct (negb (m_isHomeGame m)); [reflexivity|].
  destruct (filter _ maps) as [|r l] eqn:E; [reflexivity|].
  assert (r ∈ filter (fun r => fm_team r = m_team m /\ fm_eventType r = spiel) maps) as Hin
    by (rewrite E; left).
  apply list_elem_of_filter in Hin as [Hp Hin]. destruct (Hno r Hin Hp).
Qed.

(** C10. A home game whose team has no field mapping for [spiel]: the
    resolver returns [undefined] when the database answers; the [set] of
    the update leaves the field column out; and when the record's iteration
    updates an event ([updatedCount] goes up by one), the table is the old
    one with the [set] applied to the rows of one id, and the field column of
    the table is what it was. *)
Theorem home_update_without_mapping_keeps_field m fr :
  m_isHomeGame m = true ->
  (forall r, r ∈ fieldMappings (store fr) ->
     ~ (fm_team r = m_team m /\ fm_eventType r = spiel)) ->
  updatedCount (summary (snd (processMatch m fr))) = S (updatedCount (summary fr)) ->
  (rejections (store fr) = [] ->
     getDefaultFieldForTeam (m_team m) (m_isHomeGame m) (store fr) = (Ok None, store fr))
  /\ s_field (updateSet m (generateExternalId m) (matchTitle m) None) = None
  /\ (exists i,
        calendarEvents (store (snd (processMatch m fr)))
        = updateById (updateSet m (generateExternalId m) (matchTitle m) None) i
            (calendarEvents (store fr)))
  /\ field <$> calendarEvents (store (snd (processMatch m fr)))
     = field <$> calendarEvents (store fr).
Proof.
  intros Hhome Hno Hupd.
  pose proof (resolvedField_unmapped _ m Hno) as Hrf.
  assert (head (filter (fun r => fm_team r = m_team m /\ fm_eventType r = spiel)
                  (fieldMappings (store fr))) = None) as Hhead.
  { unfold resolvedField in Hrf. rewrite Hhome in Hrf. simpl in Hrf.
    destruct (head _); [discriminate|reflexivity]. }
  split; [|split].
  - intros Hrej. rewrite Hhome. unfold getDefaultFieldForTeam, getDefaultField,
      selectMappings, bind, gets, ret, dbCall. simpl. rewrite Hrej, Hhead. reflexivity.
  - simpl. rewrite Hhome. reflexivity.
  - destruct (processMatch_spec m fr) as (_ & _ & [msg r n _ _ Hsm|r _ Hs Hsm]);
      rewrite Hsm in Hupd.
    + simpl in Hupd. lia.
    + rewrite Hs. simpl. unfold summaryAfter in Hupd. unfold eventsAfter.
      destruct (decide3 _ _ _) as [ex|ex|]; simpl in Hupd; try lia.
      rewrite Hrf. split; [eauto|].
      unfold updateById. rewrite <- list_fmap_compose. apply list_fmap_ext.
      intros k e _. simpl. destruct (decide (id e = ev_id ex)); [|reflexivity].
      simpl. rewrite Hhome. reflexivity.
Qed.

(** C6, as the code has it. When the [try] block of a record throws, the
    [catch] block adds one to [errorCount] and appends the entry
    "Fehler bei {home} vs {away}: {message}"; the other counts and the
    events table are as before the record; and the loop goes on with the
    records that follow. *)
Theorem processMatch_error_isolated pre m post fr msg :
  let fr1 := snd (forOf pre processMatch fr) in
  let fr2 := snd (processMatch m fr1) in
  fst (processMatchBody m fr1) = Throw msg ->
  errorCount (summary fr2) = S (errorCount (summary fr1))
  /\ errors (summary fr2)
     = errors (summary fr1)
       ++ ["Fehler bei " +:+ m_teamHome m +:+ " vs " +:+ m_teamAway m +:+ ": " +:+ msg]
  /\ createdCount (summary fr2) = createdCount (summary fr1)
  /\ updatedCount (summary fr2) = updatedCount (summary fr1)
  /\ unchangedCount (summary fr2) = unchangedCount (summary fr1)
  /\ archivedCount (summary fr2) = archivedCount (summary fr1)
  /\ calendarEvents (store fr2) = calendarEvents (store fr1)
  /\ fieldMappings (store fr2) = fieldMappings (store fr1)
  /\ forOf (pre ++ m :: post) processMatch fr = forOf post processMatch fr2.
Proof.
  intros fr1 fr2 Hthrow.
  destruct (processMatch_thrown m fr1 msg Hthrow) as (r & n & Heq).
  assert (fr2 = {| store := withRejections r (withUuidCounter n (store fr1));
                   summary := recordError (errorEntry m msg) (summary fr1);
                   processedExternalIds :=
                     {[ generateExternalId m ]} ∪ processedExternalIds fr1 |}) as Hfr2
    by (subst fr2; rewrite Heq; reflexivity).
  repeat split; try (rewrite Hfr2; reflexivity).
  rewrite forOf_processMatch_app, forOf_processMatch_cons. reflexivity.
Qed.

(** ** Runs in which the database rejects nothing *)

Lemma stepFrame_rejections m fr :
  rejections (store (stepFrame m fr)) = rejections (store fr).
Proof. reflexivity. Qed.

Lemma forOf_processMatch_accepted ms fr :
  rejections (store fr) = [] ->
  forOf ms processMatch fr = (Ok tt, foldl (fun fr m => stepFrame m fr) fr ms).
Proof.
  revert fr. induction ms as [|m ms IH]; intros fr Hrej; [reflexivity|].
  rewrite forOf_processMatch_cons, (processMatch_accepted m fr Hrej). simpl.
  apply IH. exact Hrej.
Qed.

Lemma foldl_stepFrame_rejections ms fr :
  rejections (store (foldl (fun fr m => stepFrame m fr) fr ms)) = rejections (store fr).
Proof. revert fr. induction ms as [|m ms IH]; intros fr; simpl; [reflexivity|]. now rewrite IH. Qed.

Lemma foldl_stepFrame_mappings ms fr :
  fieldMappings (store (foldl (fun fr m => stepFrame m fr) fr ms)) = fieldMappings (store fr).
Proof. revert fr. induction ms as [|m ms IH]; intros fr; simpl; [reflexivity|]. now rewrite IH. Qed.

Lemma wellKeyed_stepFrame m fr :
  wellKeyed (store fr) -> wellKeyed (store (stepFrame m fr)).
Proof.
  unfold wellKeyed, stepFrame, eventsAfter, uuidAfter. simpl.
  intros [Hnd Hlt]. destruct (decide3 _ _ _) as [ex|ex|].
  - rewrite ids_updateById. split; [exact Hnd|].
    intros e' (e & Hin & [[_ ->]|[_ ->]])%elem_of_updateById; rewrite ?id_applySet; auto.
  - auto.
  - rewrite fmap_app. split.
    + apply NoDup_app. split; [exact Hnd|]. split; [|apply NoDup_singleton].
      intros i (e & -> & Hin)%list_elem_of_fmap Hi. simpl in Hi.
      apply list_elem_of_singleton in Hi. specialize (Hlt e Hin). lia.
    + intros e [Hin|Hin%list_elem_of_singleton]%elem_of_app.
      * specialize (Hlt e Hin). lia.
      * subst e. simpl. lia.
Qed.


(** The seen set after the loop holds the external IDs of all the records,
    whether they failed or not. *)
Lemma forOf_processMatch_seen ms fr :
  processedExternalIds (snd (forOf ms processMatch fr))
  = list_to_set (generateExternalId <$> ms) ∪ processedExternalIds fr.
Proof.
  revert fr. induction ms as [|m ms IH]; intros fr.
  - simpl. set_solver.
  - rewrite forOf_processMatch_cons, IH.
    destruct (processMatch_spec m fr) as (_ & -> & _).
    rewrite fmap_cons. simpl. set_solver.
Qed.

Lemma frameAfterLoop_seen s ms :
  processedExternalIds (frameAfterLoop s ms) = list_to_set (generateExternalId <$> ms).
Proof. unfold frameAfterLoop. rewrite forOf_processMatch_seen. simpl. set_solver. Qed.


(** The archival pass, when it runs and the database rejects nothing:
    every missing row is archived and counted. *)
Lemma archiveMissingEvents_accepted fr :
  rejections (store fr) = [] ->
  NoDup (id <$> calendarEvents (store fr)) ->
  processedExternalIds fr <> ∅ ->
  archiveMissingEvents true fr
  = (Ok tt,
     {| store := withEvents (archiveMissingRows (processedExternalIds fr)
                               (calendarEvents (store fr))) (store fr);
        summary := addArchived (countMissing (processedExternalIds fr)
                                  (calendarEvents (store fr))) (summary fr);
        processedExternalIds := processedExternalIds fr |}).
Proof.
  destruct fr as [s sm seen]. simpl. intros Hrej Hnd Hseen.
  unfold archiveMissingEvents, bind, gets, tryCatch. simpl.
  assert ((0 <? size seen)%nat = true) as ->.
  { apply Nat.ltb_lt. assert (size seen <> 0); [|lia].
    intros H0. apply size_empty_iff in H0. apply Hseen. now apply leibniz_equiv. }
  unfold await, getBfvEventIds, selectEvents, bind, gets, ret, dbCall. simpl.
  rewrite Hrej. simpl.
  pose proof (archive_loop seen (calendarEvents s) [] s sm Hrej Hnd) as H.
  simpl in H.
  assert (withStore s {| store := s; summary := sm; processedExternalIds := seen |}
          = {| store := withEvents (calendarEvents s) s; summary := sm;
               processedExternalIds := seen |}) as ->.
  { destruct s. reflexivity. }
  rewrite H; [reflexivity|]. intros e He. inversion He.
Qed.

Lemma status_archived e : status (applySet archiveSet e) = ARCHIVED.
Proof. reflexivity. Qed.

Lemma isMissing_true seen e :
  isMissing seen e = true
  <-> source e = BFV /\ status e = ACTIVE /\ exists x, externalId e = Some x /\ x ∉ seen.
Proof.
  unfold isMissing. rewrite !andb_true_iff, !bool_decide_eq_true.
  destruct (externalId e) as [x|].
  - rewrite bool_decide_eq_true. split.
    + intros [[? ?] ?]. eauto.
    + intros (? & ? & y & [= <-] & ?). auto.
  - split; [intros [_ [=]]|intros (_ & _ & y & [=] & _)].
Qed.


(** ** Reconciling a batch twice *)

Lemma resolvedField_home maps m f : resolvedField maps m = Some f -> m_isHomeGame m = true.
Proof. unfold resolvedField. destruct (m_isHomeGame m); [reflexivity|discriminate]. Qed.

Lemma optOrNull_present o l : o = Some l -> Js.truthy l = true -> Js.optOrNull o = Some l.
Proof. intros -> H. simpl. unfold Js.strOrNull. now rewrite H. Qed.

Lemma changes_nil_needsUpdate ex m f :
  changes (matchNeedsUpdate ex m f) = [] -> needsUpdate (matchNeedsUpdate ex m f) = false.
Proof. intros H. rewrite needsUpdate_length, H. reflexivity. Qed.

(** The change detector finds nothing on an event that has the record's
    date and times, its location and competition where it gives them, and
    the resolved field where there is one. *)
Lemma matchNeedsUpdate_same ex m f :
  ev_date ex = m_date m -> ev_startTime ex = m_startTime m -> ev_endTime ex = m_endTime m ->
  (forall fld, f = Some fld -> ev_field ex = Some fld) ->
  (forall l, m_location m = Some l -> Js.truthy l = true -> ev_location ex = Some l) ->
  (Js.truthy (m_competition m) = true -> ev_competition ex = Some (m_competition m)) ->
  needsUpdate (matchNeedsUpdate ex m f) = false.
Proof.
  intros Hd Hs He Hf Hl Hc. apply changes_nil_needsUpdate.
  rewrite matchNeedsUpdate_changes.
  rewrite !bool_decide_false by (intros H; apply H; assumption).
  destruct f as [fld|].
  - rewrite bool_decide_false by (intros H; apply H; auto).
    destruct (m_location m) as [l|].
    + destruct (Js.truthy l) eqn:Ht; simpl.
      * rewrite bool_decide_false by (intros H; apply H; auto).
        destruct (Js.truthy (m_competition m)); simpl; [|reflexivity].
        rewrite bool_decide_false by (intros H; apply H; auto). reflexivity.
      * destruct (Js.truthy (m_competition m)); simpl; [|reflexivity].
        rewrite bool_decide_false by (intros H; apply H; auto). reflexivity.
    + destruct (Js.truthy (m_competition m)); simpl; [|reflexivity].
      rewrite bool_decide_false by (intros H; apply H; auto). reflexivity.
  - destruct (m_location m) as [l|].
    + destruct (Js.truthy l) eqn:Ht; simpl.
      * rewrite bool_decide_false by (intros H; apply H; auto).
        destruct (Js.truthy (m_competition m)); simpl; [|reflexivity].
        rewrite bool_decide_false by (intros H; apply H; auto). reflexivity.
      * destruct (Js.truthy (m_competition m)); simpl; [|reflexivity].
        rewrite bool_decide_false by (intros H; apply H; auto). reflexivity.
    + destruct (Js.truthy (m_competition m)); simpl; [|reflexivity].
      rewrite bool_decide_false by (intros H; apply H; auto). reflexivity.
Qed.

Lemma needsUpdate_after_insert maps m uuid :
  needsUpdate (matchNeedsUpdate
    (dbEventToCalendarEvent
       (insertValues m uuid (generateExternalId m) (matchTitle m) (resolvedField maps m)))
    m (resolvedField maps m)) = false.
Proof.
  apply matchNeedsUpdate_same; try reflexivity; simpl.
  - intros fld Hf. rewrite (resolvedField_home _ _ _ Hf). exact Hf.
  - intros l Hl Ht. now apply optOrNull_present.
  - intros Ht. unfold Js.strOrNull. now rewrite Ht.
Qed.

Lemma needsUpdate_after_update maps m c :
  needsUpdate (matchNeedsUpdate
    (dbEventToCalendarEvent
       (applySet (updateSet m (generateExternalId m) (matchTitle m) (resolvedField maps m)) c))
    m (resolvedField maps m)) = false.
Proof.
  apply matchNeedsUpdate_same; try reflexivity; simpl.
  - intros fld Hf. rewrite (resolvedField_home _ _ _ Hf), Hf. reflexivity.
  - intros l Hl Ht. now apply optOrNull_present.
  - intros Ht. unfold Js.strOrNull. now rewrite Ht.
Qed.

(** *** Queries that an update does not disturb *)

Lemma filter_fmap_unchanged {A} (P : A -> Prop) `{!forall x, Decision (P x)} (g : A -> A)
    (l : list A) :
  (forall e, e ∈ l -> g e = e \/ (~ P e /\ ~ P (g e))) ->
  filter P (g <$> l) = filter P l.
Proof.
  induction l as [|e l IH]; intros Hg; [reflexivity|].
  rewrite fmap_cons, !filter_cons, IH by (intros; apply Hg; now right).
  destruct (Hg e) as [->|[Hn Hn']]; [left|reflexivity|].
  destruct (decide (P (g e))); [contradiction|].
  destruct (decide (P e)); [contradiction|reflexivity].
Qed.

Lemma NoDup_id_inj (l : list CalendarEventDb) e c :
  NoDup (id <$> l) -> e ∈ l -> c ∈ l -> id e = id c -> e = c.
Proof.
  induction l as [|x l IH]; [intros _ He; inversion He|].
  rewrite fmap_cons. intros [Hx Hnd]%NoDup_cons He Hc Heq.
  apply elem_of_cons in He as [->|He]; apply elem_of_cons in Hc as [->|Hc]; auto.
  - destruct Hx. rewrite Heq. now apply list_elem_of_fmap_2.
  - destruct Hx. rewrite <- Heq. now apply list_elem_of_fmap_2.
Qed.

(** An update of the row [c] leaves a query alone that selects neither [c]
    nor what the update makes of it. *)
Lemma filter_updateById_unchanged (P : CalendarEventDb -> Prop)
    `{!forall x, Decision (P x)} u c evs :
  NoDup (id <$> evs) -> c ∈ evs -> ~ P c -> ~ P (applySet u c) ->
  filter P (updateById u (id c) evs) = filter P evs.
Proof.
  intros Hnd Hc Hn Hn'. unfold updateById. apply filter_fmap_unchanged.
  intros e He. destruct (decide (id e = id c)) as [Heq|]; [|now left].
  right. rewrite (NoDup_id_inj evs e c Hnd He Hc Heq). auto.
Qed.

(** *** What resolution finds *)

Lemma resolveExisting_unfold evs m :
  resolveExisting evs m =
    match head (filter (byExternalId m) evs) with
    | Some e => Some (dbEventToCalendarEvent e)
    | None => fallbackToCalendarEvent <$> head (filter (byTeams m) evs)
    end.
Proof. reflexivity. Qed.

(** The row a resolution found. *)
Lemma resolveExisting_Some evs m ex :
  resolveExisting evs m = Some ex ->
  exists c, c ∈ evs /\ id c = ev_id ex /\ (byExternalId m c \/ byTeams m c).
Proof.
  rewrite resolveExisting_unfold.
  destruct (head (filter (byExternalId m) evs)) as [c|] eqn:E1.
  - intros [= <-]. exists c.
    apply head_Some_elem_of, list_elem_of_filter in E1 as [Hp Hin]. auto.
  - destruct (head (filter (byTeams m) evs)) as [c|] eqn:E2; [|discriminate].
    intros [= <-]. exists c.
    apply head_Some_elem_of, list_elem_of_filter in E2 as [Hp Hin]. auto.
Qed.

Lemma decide3_DoUpdate evs maps m ex :
  decide3 evs maps m = DoUpdate ex -> resolveExisting evs m = Some ex.
Proof.
  unfold decide3. destruct (resolveExisting evs m) as [e|]; [|discriminate].
  destruct (needsUpdate _); [|discriminate]. now intros [= ->].
Qed.

Lemma decide3_resolve evs evs' maps m :
  resolveExisting evs' m = resolveExisting evs m -> decide3 evs' maps m = decide3 evs maps m.
Proof. unfold decide3. now intros ->. Qed.

Lemma teamsOf_differ m m' :
  teamsOf m <> teamsOf m' ->
  ~ (m_teamHome m = m_teamHome m' /\ m_teamAway m = m_teamAway m').
Proof. unfold teamsOf. intros H [H1 H2]. apply H. now rewrite H1, H2. Qed.

(** The team pair of the row that a record of the batch resolves to. *)
Lemma resolved_row_teams ms evs m c :
  idsCarryTeams ms evs -> m ∈ ms -> c ∈ evs ->
  byExternalId m c \/ byTeams m c ->
  teamHome c = Some (m_teamHome m) /\ teamAway c = Some (m_teamAway m).
Proof.
  intros Hinv Hm Hc [[Hs Hx]|(_ & Hh & Ha & _)]; [|auto].
  exact (Hinv c m Hc Hm Hs Hx).
Qed.

(** Processing a record [m'] of the batch does not change what another
    record [m] resolves to. *)
Lemma resolveExisting_frame ms evs maps n m m' :
  NoDup (id <$> evs) -> idsCarryTeams ms evs ->
  m ∈ ms -> m' ∈ ms ->
  generateExternalId m <> generateExternalId m' -> teamsOf m <> teamsOf m' ->
  resolveExisting (eventsAfter evs maps n m') m = resolveExisting evs m.
Proof.
  intros Hnd Hinv Hm Hm' Hid Hteams%teamsOf_differ.
  enough (filter (byExternalId m) (eventsAfter evs maps n m') = filter (byExternalId m) evs
          /\ filter (byTeams m) (eventsAfter evs maps n m') = filter (byTeams m) evs)
    as [H1 H2] by (rewrite !resolveExisting_unfold, H1, H2; reflexivity).
  unfold eventsAfter. destruct (decide3 evs maps m') as [ex|ex|] eqn:Hd.
  - apply decide3_DoUpdate, resolveExisting_Some in Hd as (c & Hc & <- & Hfound).
    destruct (resolved_row_teams ms evs m' c Hinv Hm' Hc Hfound) as [Hh Ha].
    split; apply filter_updateById_unchanged; try assumption.
    + intros [Hs Hx]. destruct (Hinv c m Hc Hm Hs Hx) as [Hh' Ha'].
      apply Hteams. split; congruence.
    + intros [_ Hx]. simpl in Hx. congruence.
    + intros (_ & Hh' & Ha' & _). apply Hteams. split; congruence.
    + intros (_ & Hh' & Ha' & _). simpl in Hh', Ha'. apply Hteams. split; congruence.
  - auto.
  - rewrite !filter_app, !filter_cons, !filter_nil.
    split.
    + destruct (decide (byExternalId m _)) as [[_ Hx]|]; [|now rewrite app_nil_r].
      simpl in Hx. congruence.
    + destruct (decide (byTeams m _)) as [(_ & Hh' & Ha' & _)|]; [|now rewrite app_nil_r].
      simpl in Hh', Ha'. destruct Hteams. split; congruence.
Qed.

(** Right after its own iteration a record is settled. *)
Lemma settled_after_own_step evs maps n m :
  NoDup (id <$> evs) -> settled (eventsAfter evs maps n m) maps m.
Proof.
  intros Hnd. unfold settled, eventsAfter.
  destruct (decide3 evs maps m) as [ex|ex|] eqn:Hd.
  - (* updated *)
    apply decide3_DoUpdate in Hd. rewrite resolveExisting_unfold in Hd.
    set (u := updateSet m (generateExternalId m) (matchTitle m) (resolvedField maps m)).
    assert (forall c l1 l2, evs = l1 ++ c :: l2 -> id c = ev_id ex ->
              source c = BFV -> filter (byExternalId m) l1 = [] ->
              exists e, decide3 (updateById u (ev_id ex) evs) maps m = DoNothing e) as Hkey.
    { intros c l1 l2 -> <- Hsrc Hl1. rewrite updateById_split by exact Hnd.
      exists (dbEventToCalendarEvent (applySet u c)).
      unfold decide3. rewrite resolveExisting_unfold, head_filter_app_nil by exact Hl1.
      rewrite filter_cons_True by (split; [exact Hsrc|reflexivity]). cbn [head].
      subst u. now rewrite needsUpdate_after_update. }
    destruct (head (filter (byExternalId m) evs)) as [c|] eqn:E1.
    + injection Hd as <-.
      apply head_filter_split in E1 as (l1 & l2 & Hevs & [Hsrc _] & Hl1).
      eapply Hkey; eauto.
    + apply head_None in E1.
      destruct (head (filter (byTeams m) evs)) as [c|] eqn:E2; [|discriminate].
      injection Hd as <-.
      apply head_filter_split in E2 as (l1 & l2 & Hevs & [Hsrc _] & _).
      eapply (Hkey c l1 l2); eauto.
      apply filter_nil_iff. intros x Hx. eapply (filter_nil_iff (byExternalId m) evs); [exact E1|].
      rewrite Hevs. apply elem_of_app. now left.
  - eauto.
  - (* created *)
    unfold decide3 in Hd. rewrite resolveExisting_unfold in Hd.
    destruct (head (filter (byExternalId m) evs)) as [c|] eqn:E1.
    { destruct (needsUpdate _); discriminate. }
    apply head_None in E1. eexists.
    unfold decide3. rewrite resolveExisting_unfold, filter_app, E1.
    rewrite filter_cons_True by (split; reflexivity). cbn [app head].
    now rewrite needsUpdate_after_insert.
Qed.

(** *** The invariants of a run over the batch *)

Lemma NoDup_fmap_inj_on {A B} (f : A -> B) (l : list A) x y :
  NoDup (f <$> l) -> x ∈ l -> y ∈ l -> f x = f y -> x = y.
Proof.
  induction l as [|z l IH]; [intros _ Hx; inversion Hx|].
  rewrite fmap_cons. intros [Hz Hnd]%NoDup_cons Hx Hy Heq.
  apply elem_of_cons in Hx as [->|Hx]; apply elem_of_cons in Hy as [->|Hy]; auto.
  - destruct Hz. rewrite Heq. now apply list_elem_of_fmap_2.
  - destruct Hz. rewrite <- Heq. now apply list_elem_of_fmap_2.
Qed.

Lemma NoDup_fmap_middle {A B} (f : A -> B) (pre rest : list A) m m0 :
  NoDup (f <$> (pre ++ m :: rest)) -> m0 ∈ pre -> f m0 <> f m.
Proof.
  rewrite fmap_app, fmap_cons. intros (_ & Hdisj & _)%NoDup_app Hin Heq.
  apply (Hdisj (f m0)); [now apply list_elem_of_fmap_2|]. rewrite Heq. left.
Qed.

Lemma idsCarryTeams_eventsAfter ms evs maps n m' :
  NoDup (generateExternalId <$> ms) -> m' ∈ ms ->
  idsCarryTeams ms evs -> idsCarryTeams ms (eventsAfter evs maps n m').
Proof.
  intros Hnd Hm' Hinv e m He Hm Hsrc Hext.
  assert (externalId e = Some (generateExternalId m') ->
          teamHome e = Some (m_teamHome m') -> teamAway e = Some (m_teamAway m') ->
          teamHome e = Some (m_teamHome m) /\ teamAway e = Some (m_teamAway m)) as Hwritten.
  { intros Hx Hh Ha. rewrite Hx in Hext. injection Hext as Hext.
    rewrite (NoDup_fmap_inj_on _ ms m m' Hnd Hm Hm'); auto. }
  unfold eventsAfter in He. destruct (decide3 evs maps m') as [ex|ex|].
  - apply elem_of_updateById in He as (e0 & Hin0 & [[_ ->]|[_ ->]]).
    + apply Hwritten; reflexivity.
    + eapply Hinv; eauto.
  - eapply Hinv; eauto.
  - apply elem_of_app in He as [He|He%list_elem_of_singleton].
    + eapply Hinv; eauto.
    + subst e. apply Hwritten; reflexivity.
Qed.

Lemma teamsCarryIds_eventsAfter ms evs maps n m' :
  NoDup (teamsOf <$> ms) -> m' ∈ ms ->
  teamsCarryIds ms evs -> teamsCarryIds ms (eventsAfter evs maps n m').
Proof.
  intros Hnd Hm' Hinv e m He Hm Hsrc Hact Hh Ha.
  assert (teamHome e = Some (m_teamHome m') -> teamAway e = Some (m_teamAway m') ->
          externalId e = Some (generateExternalId m') ->
          externalId e = Some (generateExternalId m)) as Hwritten.
  { intros Hh' Ha' Hx. rewrite Hx.
    rewrite (NoDup_fmap_inj_on teamsOf ms m m' Hnd Hm Hm'); [reflexivity|].
    unfold teamsOf. congruence. }
  unfold eventsAfter in He. destruct (decide3 evs maps m') as [ex|ex|].
  - apply elem_of_updateById in He as (e0 & Hin0 & [[_ ->]|[_ ->]]).
    + apply Hwritten; reflexivity.
    + eapply Hinv; eauto.
  - eapply Hinv; eauto.
  - apply elem_of_app in He as [He|He%list_elem_of_singleton].
    + eapply Hinv; eauto.
    + subst e. apply Hwritten; reflexivity.
Qed.

Lemma teamsCarryIds_foldl ms rest fr :
  NoDup (teamsOf <$> ms) -> (forall m, m ∈ rest -> m ∈ ms) ->
  teamsCarryIds ms (calendarEvents (store fr)) ->
  teamsCarryIds ms (calendarEvents (store (foldl (fun fr m => stepFrame m fr) fr rest))).
Proof.
  intros Hnd. revert fr. induction rest as [|m rest IH]; intros fr Hsub Hinv; [exact Hinv|].
  simpl. apply IH; [intros; apply Hsub; now right|].
  apply teamsCarryIds_eventsAfter; [exact Hnd | apply Hsub; left | exact Hinv].
Qed.

(** The loop leaves every record of the batch settled. *)
Lemma loop_settles ms : forall rest pre fr,
  ms = pre ++ rest ->
  NoDup (generateExternalId <$> ms) -> NoDup (teamsOf <$> ms) ->
  wellKeyed (store fr) ->
  idsCarryTeams ms (calendarEvents (store fr)) ->
  (forall m, m ∈ pre -> settled (calendarEvents (store fr)) (fieldMappings (store fr)) m) ->
  let fr' := foldl (fun fr m => stepFrame m fr) fr rest in
  wellKeyed (store fr')
  /\ idsCarryTeams ms (calendarEvents (store fr'))
  /\ forall m, m ∈ ms -> settled (calendarEvents (store fr')) (fieldMappings (store fr')) m.
Proof.
  induction rest as [|m rest IH]; intros pre fr Hms Hids Hteams Hwk Hinv Hpre.
  - simpl. rewrite app_nil_r in Hms. subst pre. auto.
  - simpl. assert (m ∈ ms) as Hm by (rewrite Hms; apply elem_of_app; right; left).
    apply (IH (pre ++ [m])).
    + now rewrite <- app_assoc.
    + exact Hids.
    + exact Hteams.
    + now apply wellKeyed_stepFrame.
    + now apply idsCarryTeams_eventsAfter.
    + intros m0 [Hm0|Hm0%list_elem_of_singleton]%elem_of_app; [|subst m0].
      * destruct (Hpre m0 Hm0) as [e He]. exists e. rewrite <- He.
        apply decide3_resolve. simpl. apply (resolveExisting_frame ms).
        -- apply Hwk.
        -- exact Hinv.
        -- rewrite Hms. apply elem_of_app. now left.
        -- exact Hm.
        -- rewrite Hms in Hids. exact (NoDup_fmap_middle _ _ _ _ _ Hids Hm0).
        -- rewrite Hms in Hteams. exact (NoDup_fmap_middle _ _ _ _ _ Hteams Hm0).
      * simpl. apply settled_after_own_step, Hwk.
Qed.

(** Archiving leaves alone what a record of the batch resolves to, when
    its external ID was seen. *)
Lemma resolveExisting_archived ms seen evs m :
  teamsCarryIds ms evs -> m ∈ ms -> generateExternalId m ∈ seen ->
  resolveExisting (archiveMissingRows seen evs) m = resolveExisting evs m.
Proof.
  intros Hinv Hm Hseen.
  enough (filter (byExternalId m) (archiveMissingRows seen evs) = filter (byExternalId m) evs
          /\ filter (byTeams m) (archiveMissingRows seen evs) = filter (byTeams m) evs)
    as [H1 H2] by (rewrite !resolveExisting_unfold, H1, H2; reflexivity).
  unfold archiveMissingRows.
  split; apply filter_fmap_unchanged; intros e He;
    destruct (isMissing seen e) eqn:Hmiss; try (now left); right;
    apply isMissing_true in Hmiss as (Hsrc & Hact & x & Hx & Hnot).
  - split; intros [_ Hx']; simpl in Hx'; rewrite Hx in Hx'; injection Hx' as ->; contradiction.
  - split.
    + intros (_ & Hh & Ha & _). pose proof (Hinv e m He Hm Hsrc Hact Hh Ha) as Hx'.
      rewrite Hx in Hx'. injection Hx' as ->. contradiction.
    + intros (_ & _ & _ & Hst). simpl in Hst. discriminate.
Qed.

(** A loop over records that are all settled writes nothing: it creates
    and updates no event. *)
Lemma loop_on_settled ms : forall fr,
  (forall m, m ∈ ms -> settled (calendarEvents (store fr)) (fieldMappings (store fr)) m) ->
  let fr' := snd (forOf ms processMatch fr) in
  calendarEvents (store fr') = calendarEvents (store fr)
  /\ fieldMappings (store fr') = fieldMappings (store fr)
  /\ createdCount (summary fr') = createdCount (summary fr)
  /\ updatedCount (summary fr') = updatedCount (summary fr).
Proof.
  induction ms as [|m ms IH]; intros fr Hall; [simpl; auto|].
  rewrite forOf_processMatch_cons. cbv zeta.
  set (fr1 := snd (processMatch m fr)).
  assert (calendarEvents (store fr1) = calendarEvents (store fr)
          /\ fieldMappings (store fr1) = fieldMappings (store fr)
          /\ createdCount (summary fr1) = createdCount (summary fr)
          /\ updatedCount (summary fr1) = updatedCount (summary fr)) as (He & Hm & Hc & Hu).
  { destruct (processMatch_spec m fr) as (_ & _ & [msg r n _ Hs Hsm|r _ Hs Hsm]);
      fold fr1 in Hs, Hsm; rewrite Hs, Hsm.
    - repeat split.
    - destruct (Hall m) as [e Hd]; [left|].
      unfold eventsAfter, summaryAfter. rewrite Hd. repeat split. }
  destruct (IH fr1) as (He' & Hm' & Hc' & Hu').
  { intros m0 Hm0. rewrite He, Hm. apply Hall. now right. }
  repeat split; congruence.
Qed.

(** *** A schedule without rejections stays so *)

Lemma archiveIfMissing_rejections x fr :
  rejections (store fr) = [] -> rejections (store (snd (archiveIfMissing x fr))) = [].
Proof.
  destruct fr as [[evs maps hist n rej] sm seen]. simpl. intros ->.
  unfold archiveIfMissing, updateEvents, onSummary, await, modify, selectEvents, bind, gets,
    ret, dbCall. simpl.
  destruct (bool_decide (x ∈ seen)); simpl; [reflexivity|].
  destruct (head (filter _ evs)); reflexivity.
Qed.

Lemma forOf_archiveIfMissing_rejections ids fr :
  rejections (store fr) = [] ->
  rejections (store (snd (forOf ids archiveIfMissing fr))) = [].
Proof.
  revert fr. induction ids as [|x ids IH]; intros fr Hrej; [exact Hrej|].
  simpl. unfold bind. pose proof (archiveIfMissing_rejections x fr Hrej) as H1.
  destruct (archiveIfMissing x fr) as [[[]|msg] fr1]; simpl in *; [|exact H1].
  apply IH, H1.
Qed.

Lemma archiveMissingEvents_rejections am fr :
  rejections (store fr) = [] ->
  rejections (store (snd (archiveMissingEvents am fr))) = [].
Proof.
  intros Hrej. unfold archiveMissingEvents, bind, gets, tryCatch. simpl.
  destruct (am && _); [|exact Hrej].
  unfold await, getBfvEventIds, selectEvents, bind, gets, ret, dbCall.
  destruct fr as [[evs maps hist n rej] sm seen]. simpl in *. subst rej. simpl.
  match goal with |- context [forOf ?ids archiveIfMissing ?fr] =>
    pose proof (forOf_archiveIfMissing_rejections ids fr eq_refl) as H;
    destruct (forOf ids archiveIfMissing fr) as [[[]|msg] fr1] end; exact H.
Qed.

Lemma foldl_stepFrame_errorCount ms fr :
  errorCount (summary (foldl (fun fr m => stepFrame m fr) fr ms)) = errorCount (summary fr).
Proof.
  revert fr. induction ms as [|m ms IH]; intros fr; [reflexivity|].
  simpl. rewrite IH. simpl. unfold summaryAfter. destruct (decide3 _ _ _); reflexivity.
Qed.

(** After a first run that the database did not disturb, every record of
    the batch is settled in the store the run leaves. *)
Lemma first_run_settles s ms fn am :
  rejections s = [] -> wellKeyed s ->
  NoDup (generateExternalId <$> ms) -> NoDup (teamsOf <$> ms) ->
  idsCarryTeams ms (calendarEvents s) ->
  (am = true -> teamsCarryIds ms (calendarEvents s)) ->
  let s1 := snd (importBfvMatches s ms fn am) in
  rejections s1 = []
  /\ forall m, m ∈ ms -> settled (calendarEvents s1) (fieldMappings s1) m.
Proof.
  intros Hrej Hwk Hids Hteams Hinv Hinv2 s1.
  destruct (importBfvMatches_result s ms fn am) as (_ & Hev & Hmaps & _ & Hrej1).
  fold s1 in Hev, Hmaps, Hrej1.
  pose proof (forOf_processMatch_accepted ms (initialFrame s) Hrej) as Hloop.
  assert (frameAfterLoop s ms = foldl (fun fr m => stepFrame m fr) (initialFrame s) ms)
    as Hfr1 by (unfold frameAfterLoop; now rewrite Hloop).
  destruct (loop_settles ms ms [] (initialFrame s) eq_refl Hids Hteams Hwk Hinv)
    as (Hwk1 & _ & Hsettled); [intros m Hm; inversion Hm|].
  rewrite <- Hfr1 in Hwk1, Hsettled.
  assert (rejections (store (frameAfterLoop s ms)) = []) as Hrej_loop
    by (rewrite Hfr1, foldl_stepFrame_rejections; exact Hrej).
  split.
  { rewrite Hrej1. unfold frameBeforeHistory.
    now rewrite archiveMissingEvents_rejections. }
  rewrite Hev, Hmaps. unfold frameBeforeHistory.
  destruct am; [|exact Hsettled].
  destruct ms as [|m0 ms']; [intros m Hm; inversion Hm|].
  assert (processedExternalIds (frameAfterLoop s (m0 :: ms'))
          = list_to_set (generateExternalId <$> m0 :: ms')) as Hseen
    by apply frameAfterLoop_seen.
  rewrite archiveMissingEvents_accepted.
  - simpl. intros m Hm. destruct (Hsettled m Hm) as [e He]. exists e. rewrite <- He.
    apply decide3_resolve. apply (resolveExisting_archived (m0 :: ms')).
    + rewrite Hfr1. apply teamsCarryIds_foldl; auto.
    + exact Hm.
    + rewrite Hseen. apply elem_of_list_to_set. now apply list_elem_of_fmap_2.
  - exact Hrej_loop.
  - apply Hwk1.
  - rewrite Hseen, fmap_cons. simpl. set_solver.
Qed.

(** C1, as the code has it. Take a batch whose records have pairwise
    distinct external IDs and pairwise distinct (teamHome, teamAway) pairs,
    and a store whose primary key holds, in which an externally-sourced
    event that carries a record's external ID has that record's team pair
    and, if the first run archives, an active externally-sourced event with
    a record's team pair carries that record's external ID. If the database
    rejects nothing during the first run, then a second run of the same
    batch on the store the first run left, whatever the database rejects
    during it, has [createdCount = 0], [updatedCount = 0] and
    [unchangedCount] equal to the batch size minus [errorCount]; this is
    the summary the second run resolves to unless its history row is
    rejected; and if the database rejects nothing in the second run either,
    it resolves to it with [errorCount = 0]. *)
Theorem second_run_changes_nothing s ms fn1 am1 fn2 am2 rej2 :
  rejections s = [] -> wellKeyed s ->
  NoDup (generateExternalId <$> ms) -> NoDup (teamsOf <$> ms) ->
  idsCarryTeams ms (calendarEvents s) ->
  (am1 = true -> teamsCarryIds ms (calendarEvents s)) ->
  let s1 := snd (importBfvMatches s ms fn1 am1) in
  let s2 := withRejections rej2 s1 in
  let sm2 := summary (frameBeforeHistory s2 ms am2) in
  createdCount sm2 = 0 /\ updatedCount sm2 = 0
  /\ unchangedCount sm2 = length ms - errorCount sm2
  /\ errorCount sm2 <= length ms
  /\ fst (importBfvMatches s2 ms fn2 am2)
     = match head (rejections (store (frameBeforeHistory s2 ms am2))) with
       | Some (Some msg) => Throw msg
       | _ => Ok sm2
       end
  /\ (rej2 = [] ->
      s2 = s1 /\ fst (importBfvMatches s2 ms fn2 am2) = Ok sm2
      /\ errorCount sm2 = 0 /\ unchangedCount sm2 = length ms).
Proof.
  intros Hrej Hwk Hids Hteams Hinv Hinv2 s1 s2 sm2.
  destruct (first_run_settles s ms fn1 am1 Hrej Hwk Hids Hteams Hinv Hinv2)
    as [Hrej1 Hsettled].
  fold s1 in Hrej1, Hsettled.
  destruct (loop_on_settled ms (initialFrame s2)) as (_ & _ & Hc & Hu).
  { intros m Hm. exact (Hsettled m Hm). }
  fold (frameAfterLoop s2 ms) in Hc, Hu. simpl in Hc, Hu.
  destruct (archiveMissingEvents_frame am2 (frameAfterLoop s2 ms))
    as (_ & (Hc' & Hu' & _ & He' & _) & _).
  fold (frameBeforeHistory s2 ms am2) in Hc', Hu', He'. fold sm2 in Hc', Hu', He'.
  pose proof (frameBeforeHistory_counted s2 ms am2) as Hsum.
  destruct (importBfvMatches_result s2 ms fn2 am2) as (Hres & _).
  unfold recordsCounted in Hsum. fold sm2 in Hsum, Hres.
  assert (createdCount sm2 = 0) as Hc0 by congruence.
  assert (updatedCount sm2 = 0) as Hu0 by congruence.
  split; [exact Hc0|]. split; [exact Hu0|]. split; [lia|]. split; [lia|].
  split; [exact Hres|].
  intros ->.
  assert (s2 = s1) as Hs2.
  { subst s2. destruct s1 as [evs maps hist n rej]. simpl in Hrej1. subst rej. reflexivity. }
  assert (rejections s2 = []) as Hrej2 by reflexivity.
  assert (frameAfterLoop s2 ms = foldl (fun fr m => stepFrame m fr) (initialFrame s2) ms)
    as Hfr by (unfold frameAfterLoop; now rewrite forOf_processMatch_accepted).
  assert (errorCount sm2 = 0) as He0.
  { rewrite He', Hfr, foldl_stepFrame_errorCount. reflexivity. }
  split; [exact Hs2|]. split; [|split; [exact He0|lia]].
  rewrite Hres. unfold frameBeforeHistory.
  rewrite archiveMissingEvents_rejections; [reflexivity|].
  rewrite Hfr, foldl_stepFrame_rejections. exact Hrej2.
Qed.

(** ** Fallback matching *)

Lemma resolveExisting_fallback evs m l1 e l2 :
  evs = l1 ++ e :: l2 -> byTeams m e ->
  (forall r, r ∈ evs -> ~ byExternalId m r) ->
  (forall r, r ∈ l1 -> ~ byTeams m r) ->
  resolveExisting evs m = Some (fallbackToCalendarEvent e).
Proof.
  intros -> He Hno Hfirst. rewrite resolveExisting_unfold.
  assert (filter (byExternalId m) (l1 ++ e :: l2) = []) as -> by now apply filter_nil_iff.
  cbn [head]. rewrite head_filter_app_nil by now apply filter_nil_iff.
  rewrite filter_cons_True by exact He. reflexivity.
Qed.

(** C2, as the code has it. A record whose external ID no stored
    externally-sourced event carries, and whose teamHome, teamAway and date
    are those of an active externally-sourced event that is the first such
    event with that team pair, is resolved to that event: no event is
    created, and the event is updated (taking over the new external ID) when
    the change detector reports a change, and left as it is, old external
    ID included, when it reports none. *)
Theorem fallback_resolution m fr l1 e l2 :
  rejections (store fr) = [] ->
  NoDup (id <$> calendarEvents (store fr)) ->
  calendarEvents (store fr) = l1 ++ e :: l2 ->
  source e = BFV -> status e = ACTIVE ->
  teamHome e = Some (m_teamHome m) -> teamAway e = Some (m_teamAway m) ->
  date e = m_date m ->
  (forall r, r ∈ calendarEvents (store fr) ->
     ~ (source r = BFV /\ externalId r = Some (generateExternalId m))) ->
  (forall r, r ∈ l1 ->
     ~ (source r = BFV /\ teamHome r = Some (m_teamHome m)
        /\ teamAway r = Some (m_teamAway m) /\ status r = ACTIVE)) ->
  let fr' := snd (processMatch m fr) in
  let f := resolvedField (fieldMappings (store fr)) m in
  createdCount (summary fr') = createdCount (summary fr)
  /\ length (calendarEvents (store fr')) = length (calendarEvents (store fr))
  /\ if needsUpdate (matchNeedsUpdate (fallbackToCalendarEvent e) m f)
     then calendarEvents (store fr')
          = l1 ++ applySet (updateSet m (generateExternalId m) (matchTitle m) f) e :: l2
          /\ updatedCount (summary fr') = S (updatedCount (summary fr))
          /\ unchangedCount (summary fr') = unchangedCount (summary fr)
     else calendarEvents (store fr') = calendarEvents (store fr)
          /\ unchangedCount (summary fr') = S (unchangedCount (summary fr))
          /\ updatedCount (summary fr') = updatedCount (summary fr).
Proof.
  intros Hrej Hnd Hevs Hsrc Hact Hh Ha _ Hno Hfirst fr' f.
  subst fr'. rewrite (processMatch_accepted m fr Hrej).
  pose proof (resolveExisting_fallback _ m l1 e l2 Hevs
                (conj Hsrc (conj Hh (conj Ha Hact))) Hno Hfirst) as Hres.
  unfold stepFrame. cbn [snd store summary calendarEvents].
  unfold eventsAfter, summaryAfter, decide3. rewrite Hres. fold f.
  destruct (needsUpdate (matchNeedsUpdate (fallbackToCalendarEvent e) m f)).
  - cbn [ev_id fallbackToCalendarEvent]. rewrite Hevs.
    rewrite updateById_split by (rewrite <- Hevs; exact Hnd).
    repeat split. rewrite !length_app. reflexivity.
  - repeat split.
Qed.

(** * Examples: the properties at concrete inputs *)

(** ** Reconciling twice *)

(** C1 fails as stated. A batch in which two records share an external ID
    and differ in their times: the first run, on an empty store, creates the
    event and updates it; the second run on the store the first one left
    updates it twice, so its [updatedCount] is not 0. *)
Lemma second_run_updates_repeated_id :
  fst (importBfvMatches (emptyStore []) [homeMatch; homeMatchLater] None false)
  = Ok {| createdCount := 1; updatedCount := 1; unchangedCount := 0;
          archivedCount := 0; errorCount := 0; errors := [] |}
  /\ fst (importBfvMatches
            (snd (importBfvMatches (emptyStore []) [homeMatch; homeMatchLater] None false))
            [homeMatch; homeMatchLater] None false)
     = Ok {| createdCount := 0; updatedCount := 2; unchangedCount := 0;
             archivedCount := 0; errorCount := 0; errors := [] |}.
Proof. split; vm_compute; reflexivity. Qed.

(** The same happens with distinct external IDs when two records have the
    same team pair on different dates: the fallback query does not look at
    the date, the second record takes over the event of the first, and each
    later run rewrites the one stored event twice. *)
Example second_run_updates_repeated_pairing :
  length (calendarEvents
            (snd (importBfvMatches (emptyStore []) [homeMatch; homeMatchSecondLeg] None false)))
  = 1
  /\ fst (importBfvMatches
            (snd (importBfvMatches (emptyStore []) [homeMatch; homeMatchSecondLeg] None false))
            [homeMatch; homeMatchSecondLeg] None false)
     = Ok {| createdCount := 0; updatedCount := 2; unchangedCount := 0;
             archivedCount := 0; errorCount := 0; errors := [] |}.
Proof. split; vm_compute; reflexivity. Qed.

(** A stored event that carries the external ID of one record and the team
    pair of another: the first run leaves the one record unchanged on it and
    then rewrites it for the other, and the second run creates an event. *)
Example second_run_creates_after_misnumbered_event :
  fst (importBfvMatches (storeOf [storedHomeEventMisnumbered] [] 1 []) sampleBatch None false)
  = Ok {| createdCount := 0; updatedCount := 1; unchangedCount := 1;
          archivedCount := 0; errorCount := 0; errors := [] |}
  /\ fst (importBfvMatches
            (snd (importBfvMatches (storeOf [storedHomeEventMisnumbered] [] 1 [])
                    sampleBatch None false))
            sampleBatch None false)
     = Ok {| createdCount := 1; updatedCount := 0; unchangedCount := 1;
             archivedCount := 0; errorCount := 0; errors := [] |}.
Proof. split; vm_compute; reflexivity. Qed.

(** A record that the database rejected in the first run is created by the
    second. *)
Example second_run_creates_after_rejection :
  fst (importBfvMatches (storeOf [] [] 0 [Some "connection lost"]) [exampleMatch] None false)
  = Ok {| createdCount := 0; updatedCount := 0; unchangedCount := 0;
          archivedCount := 0; errorCount := 1;
          errors := ["Fehler bei SV A vs Club: connection lost"] |}
  /\ fst (importBfvMatches
            (snd (importBfvMatches (storeOf [] [] 0 [Some "connection lost"])
                    [exampleMatch] None false))
            [exampleMatch] None false)
     = Ok {| createdCount := 1; updatedCount := 0; unchangedCount := 0;
             archivedCount := 0; errorCount := 0; errors := [] |}.
Proof. split; vm_compute; reflexivity. Qed.

Lemma sampleStore_wellKeyed : wellKeyed sampleStore.
Proof.
  split.
  - apply NoDup_singleton.
  - intros e He. apply list_elem_of_singleton in He. subst e. simpl. lia.
Defined.

Lemma sampleBatch_elem m :
  m ∈ sampleBatch -> m = homeMatch \/ m = awayMatch.
Proof.
  intros Hm. apply elem_of_cons in Hm as [Hm|Hm]; [now left|].
  apply list_elem_of_singleton in Hm. now right.
Defined.

Lemma second_run_changes_nothing_witness :
  createdCount (summary (frameBeforeHistory
     (withRejections [] (snd (importBfvMatches sampleStore sampleBatch None true)))
     sampleBatch true)) = 0
  /\ updatedCount (summary (frameBeforeHistory
       (withRejections [] (snd (importBfvMatches sampleStore sampleBatch None true)))
       sampleBatch true)) = 0
  /\ unchangedCount (summary (frameBeforeHistory
       (withRejections [] (snd (importBfvMatches sampleStore sampleBatch None true)))
       sampleBatch true)) = 2.
Proof.
  destruct (second_run_changes_nothing sampleStore sampleBatch None true None true [])
    as (Hc & Hu & _ & _ & _ & Hrest).
  - reflexivity.
  - exact sampleStore_wellKeyed.
  - apply (bool_decide_unpack _). vm_compute. exact I.
  - apply (bool_decide_unpack _). vm_compute. exact I.
  - intros e m He Hm _ Hx. apply list_elem_of_singleton in He. subst e.
    destruct (sampleBatch_elem m Hm) as [-> | ->]; vm_compute in Hx; discriminate Hx.
  - intros _ e m He Hm _ _ Hh Ha. apply list_elem_of_singleton in He. subst e.
    destruct (sampleBatch_elem m Hm) as [-> | ->];
      [vm_compute in Ha; discriminate Ha | vm_compute in Hh; discriminate Hh].
  - destruct (Hrest eq_refl) as (_ & _ & _ & Hn). auto.
Defined.

(** ** Fallback matching *)

(** C2 fails as stated. The stored event and the record agree on the team
    pair, the date and everything the change detector compares; only the
    external ID is new. The record is counted as unchanged and the store is
    as before: the event is not updated and keeps its old external ID. *)
Lemma renumbered_match_is_not_updated :
  m_externalId homeMatchRenumbered <> "bfv-1"
  /\ fst (importBfvMatches (storeOf [storedHomeEvent] [] 1 []) [homeMatchRenumbered] None false)
     = Ok {| createdCount := 0; updatedCount := 0; unchangedCount := 1;
             archivedCount := 0; errorCount := 0; errors := [] |}
  /\ calendarEvents
       (snd (importBfvMatches (storeOf [storedHomeEvent] [] 1 []) [homeMatchRenumbered]
               None false))
     = [storedHomeEvent].
Proof. split; [discriminate|]. split; vm_compute; reflexivity. Qed.

Lemma fallback_resolution_witness :
  calendarEvents
    (store (snd (processMatch homeMatchLaterRenumbered
                   (initialFrame (storeOf [storedOldEvent; storedHomeEvent] [] 2 [])))))
  = [storedOldEvent;
     applySet (updateSet homeMatchLaterRenumbered "bfv-9" "TSV Greding vs SV A" None)
       storedHomeEvent].
Proof.
  pose proof (fallback_resolution homeMatchLaterRenumbered
    (initialFrame (storeOf [storedOldEvent; storedHomeEvent] [] 2 []))
    [storedOldEvent] storedHomeEvent []) as H.
  simpl in H. apply H; try reflexivity.
  - apply (bool_decide_unpack _). vm_compute. exact I.
  - intros r Hr [_ Hx]. apply elem_of_cons in Hr as [->|Hr].
    + vm_compute in Hx. discriminate Hx.
    + apply list_elem_of_singleton in Hr. subst r. vm_compute in Hx. discriminate Hx.
  - intros r Hr (_ & _ & Ha & _). apply list_elem_of_singleton in Hr. subst r.
    vm_compute in Ha. discriminate Ha.
Defined.

(** With [archiveMissing], the event such a record was resolved to is
    archived by the same run, because it still carries the old external
    ID; the next run then creates a new event. *)
Example renumbered_match_is_archived :
  fst (importBfvMatches (storeOf [storedHomeEvent] [] 1 []) [homeMatchRenumbered] None true)
  = Ok {| createdCount := 0; updatedCount := 0; unchangedCount := 1;
          archivedCount := 1; errorCount := 0; errors := [] |}
  /\ fst (importBfvMatches
            (snd (importBfvMatches (storeOf [storedHomeEvent] [] 1 [])
                    [homeMatchRenumbered] None true))
            [homeMatchRenumbered] None true)
     = Ok {| createdCount := 1; updatedCount := 0; unchangedCount := 0;
             archivedCount := 0; errorCount := 0; errors := [] |}.
Proof. split; vm_compute; reflexivity. Qed.

(** The fallback query does not look at the date: with two stored events
    of the same team pair, a renumbered record of the second one is resolved
    to the first, whose date it overwrites. *)
Example fallback_takes_first_of_pairing :
  date <$> calendarEvents
             (snd (importBfvMatches (storeOf [storedHomeEvent; storedSecondLegEvent] [] 3 [])
                     [secondLegRenumbered] None false))
  = ["2026-05-10"; "2026-05-10"]
  /\ externalId <$> calendarEvents
             (snd (importBfvMatches (storeOf [storedHomeEvent; storedSecondLegEvent] [] 3 [])
                     [secondLegRenumbered] None false))
     = [Some "bfv-7"; Some "bfv-3"].
Proof. split; vm_compute; reflexivity. Qed.

(** ** The key generator *)

Example generateMatchKey_ex :
  generateMatchKey " SV A" "CLUB " "2026-03-01" (Some "Kreisliga")
  = "sv a|club|2026-03-01|kreisliga".
Proof. reflexivity. Qed.

Ltac same_up_to_case :=
  repeat (apply suc_cons;
          [first [ left; reflexivity
                 | right; left; split; reflexivity
                 | right; right; split; reflexivity ] |]);
  apply suc_nil.

Lemma generateMatchKey_insensitive_witness :
  generateMatchKey " SV A" "CLUB " "2026-03-01" (Some " Kreisliga")
  = generateMatchKey "sv a " "club" "2026-03-01" (Some "KREISLIGA ").
Proof.
  apply generateMatchKey_insensitive.
  - exists " ", "SV A", "", "", "sv a", " ". repeat split; try reflexivity.
    same_up_to_case.
  - exists "", "CLUB", " ", "", "club", "". repeat split; try reflexivity.
    same_up_to_case.
  - right. exists " Kreisliga", "KREISLIGA ". repeat split; try reflexivity.
    exists " ", "Kreisliga", "", "", "KREISLIGA", " ". repeat split; try reflexivity.
    same_up_to_case.
Defined.

(** ** The change detector *)

Lemma matchNeedsUpdate_precise_witness :
  needsUpdate (matchNeedsUpdate (dbEventToCalendarEvent storedHomeEvent) homeMatchLater
                 (Some a_platz)) = true
  /\ fieldEntry (dbEventToCalendarEvent storedHomeEvent) a_platz
     ∈ changes (matchNeedsUpdate (dbEventToCalendarEvent storedHomeEvent) homeMatchLater
                  (Some a_platz))
  /\ startTimeEntry (dbEventToCalendarEvent storedHomeEvent) homeMatchLater
     ∈ changes (matchNeedsUpdate (dbEventToCalendarEvent storedHomeEvent) homeMatchLater
                  (Some a_platz))
  /\ (forall entry,
        entry ∈ changes (matchNeedsUpdate (dbEventToCalendarEvent storedHomeEvent) homeMatchLater
                  (Some a_platz)) ->
        String.prefix "Datum: " entry = false).
Proof.
  destruct (matchNeedsUpdate_precise (dbEventToCalendarEvent storedHomeEvent) homeMatchLater
              (Some a_platz)) as (Hiff & Hentries & Hfield & _ & _ & _ & Hstart & _).
  split; [|split; [|split]].
  - apply Hiff. vm_compute. discriminate.
  - apply Hfield; [reflexivity|]. vm_compute. discriminate.
  - apply Hstart. vm_compute. discriminate.
  - intros entry Hin. destruct (String.prefix "Datum: " entry) eqn:Hp; [|reflexivity].
    destruct (Hentries entry Hin) as (_ & _ & _ & Hdate & _).
    destruct (Hdate Hp). reflexivity.
Defined.

(** ** Away games *)

Lemma away_game_field_unset_witness :
  getDefaultFieldForTeam (m_team awayMatch) (m_isHomeGame awayMatch) sampleStore
  = (Ok None, sampleStore)
  /\ forall e,
       e ∈ calendarEvents (store (snd (processMatch awayMatch (initialFrame sampleStore)))) ->
       e ∉ calendarEvents sampleStore -> field e = None.
Proof.
  destruct (away_game_field_unset awayMatch eq_refl) as (Hres & _ & _ & Hrows).
  split; [apply Hres|]. intros e. apply (Hrows (initialFrame sampleStore)).
Defined.

(** ** A home game without a field mapping *)

Lemma home_update_without_mapping_keeps_field_witness :
  field <$> calendarEvents
              (store (snd (processMatch homeMatchLater
                             (initialFrame (storeOf [storedHomeEvent] [] 1 [])))))
  = [Some b_platz].
Proof.
  destruct (home_update_without_mapping_keeps_field homeMatchLater
              (initialFrame (storeOf [storedHomeEvent] [] 1 []))) as (_ & _ & _ & Hfield).
  - reflexivity.
  - intros r Hr. inversion Hr.
  - vm_compute. reflexivity.
  - rewrite Hfield. reflexivity.
Defined.

(** ** A record that fails *)

(** C6 fails as stated, in the format of the entry: the entry the [catch]
    block pushes starts with "Fehler bei ". *)
Lemma error_entry_has_prefix :
  fst (importBfvMatches (storeOf [] [] 0 [Some "connection lost"]) [exampleMatch] None false)
  = Ok {| createdCount := 0; updatedCount := 0; unchangedCount := 0;
          archivedCount := 0; errorCount := 1;
          errors := ["Fehler bei SV A vs Club: connection lost"] |}
  /\ "Fehler bei SV A vs Club: connection lost" <> "SV A vs Club: connection lost".
Proof. split; [vm_compute; reflexivity|discriminate]. Qed.

Lemma processMatch_error_isolated_witness :
  errors (summary (snd (processMatch awayMatch
            (snd (forOf [homeMatch] processMatch
                    (initialFrame (storeOf [] [] 0 [None; None; None; None; Some "deadlock"])))))))
  = ["Fehler bei FC B vs TSV Greding: deadlock"]
  /\ forOf ([homeMatch] ++ awayMatch :: [homeMatchSecondLeg]) processMatch
       (initialFrame (storeOf [] [] 0 [None; None; None; None; Some "deadlock"]))
     = forOf [homeMatchSecondLeg] processMatch
         (snd (processMatch awayMatch
            (snd (forOf [homeMatch] processMatch
                    (initialFrame (storeOf [] [] 0 [None; None; None; None; Some "deadlock"])))))).
Proof.
  destruct (processMatch_error_isolated [homeMatch] awayMatch [homeMatchSecondLeg]
              (initialFrame (storeOf [] [] 0 [None; None; None; None; Some "deadlock"])) "deadlock")
    as (_ & Herr & _ & _ & _ & _ & _ & _ & Hloop).
  - vm_compute. reflexivity.
  - split; [|exact Hloop]. rewrite Herr. vm_compute. reflexivity.
Defined.

(** ** The archival pass *)


Example archival_pass_rejected :
  fst (importBfvMatches
         (storeOf [storedOldEvent] [herrenOnAPlatz] 2
            [None; None; None; None; None; None; None; Some "connection lost"])
         sampleBatch None true)
  = Ok {| createdCount := 2; updatedCount := 0; unchangedCount := 0;
          archivedCount := 0; errorCount := 0; errors := [] |}.
Proof. vm_compute. reflexivity. Qed.

(** * Further properties *)

(** ** External IDs and team names *)

Lemma append_nonempty_r s1 c s2 : s1 +:+ String c s2 <> "".
Proof. destruct s1; discriminate. Qed.

Lemma generateMatchKey_nonempty h a d c : generateMatchKey h a d c <> "".
Proof.
  unfold generateMatchKey.
  assert (forall s t, s +:+ "|" +:+ t <> "") as Hbar by (intros; apply append_nonempty_r).
  destruct c as [c|]; [destruct (Js.truthy c)|]; apply Hbar.
Qed.

(** X1. The external ID the reconciler works with is never the empty
    string: it is the record's own ID whenever that is not empty (the
    length test of the source adds nothing to the truthiness test), and
    the match key otherwise, which always holds a separator. *)
Theorem generateExternalId_never_empty m :
  generateExternalId m
    = (if Js.truthy (m_externalId m) then m_externalId m
       else generateMatchKey (m_teamHome m) (m_teamAway m) (m_date m) (Some (m_competition m)))
  /\ generateExternalId m <> "".
Proof.
  unfold generateExternalId.
  destruct (Js.truthy (m_externalId m)) eqn:Ht.
  - apply truthy_true in Ht. destruct (m_externalId m) as [|c s]; [congruence|].
    split; [reflexivity|discriminate].
  - split; [reflexivity|]. apply generateMatchKey_nonempty.
Qed.

(** X2. Two records without an external ID of their own get the same
    external ID when they agree on the date and their team names and
    competitions differ only in letter case and in leading or trailing
    whitespace. *)
Theorem generateExternalId_normalises m1 m2 :
  m_externalId m1 = "" -> m_externalId m2 = "" ->
  m_date m1 = m_date m2 ->
  sameUpToCaseAndOuterSpace (m_teamHome m1) (m_teamHome m2) ->
  sameUpToCaseAndOuterSpace (m_teamAway m1) (m_teamAway m2) ->
  sameCompetition (Some (m_competition m1)) (Some (m_competition m2)) ->
  generateExternalId m1 = generateExternalId m2.
Proof.
  intros H1 H2 Hd Hh Ha Hc. unfold generateExternalId. rewrite H1, H2. simpl.
  unfold generateMatchKey.
  rewrite (normalize_outer _ _ Hh), (normalize_outer _ _ Ha), Hd.
  destruct Hc as [[Hc1 Hc2]|(s1 & s2 & [= <-] & [= <-] & Hc1 & Hc2 & Hs)].
  - simpl in Hc1, Hc2. rewrite Hc1, Hc2. reflexivity.
  - rewrite Hc1, Hc2, (normalize_outer _ _ Hs). reflexivity.
Qed.

(** [includes] finds every occurrence. *)
Lemma prefix_app s t : String.prefix s (s +:+ t) = true.
Proof. induction s as [|c s IH]; simpl; [now destruct t|]. now destruct (ascii_dec c c). Qed.

Lemma includes_app l s r : JsStr.includes (l +:+ s +:+ r) s = true.
Proof.
  induction l as [|c l IH].
  - change (JsStr.includes (s +:+ r) s = true).
    pose proof (prefix_app s r) as H.
    destruct (s +:+ r); cbn [JsStr.includes]; rewrite H; reflexivity.
  - change (JsStr.includes (String c (l +:+ s +:+ r)) s = true).
    cbn [JsStr.includes]. rewrite IH. apply orb_true_r.
Qed.

(** X3. The team of a team name does not depend on the letter case of the
    name, and a section team, when given, is the answer whatever the
    name. *)
Theorem parseTeamFromName_case name1 name2 sectionTeam :
  sameUpToCase name1 name2 ->
  parseTeamFromName name1 sectionTeam = parseTeamFromName name2 sectionTeam
  /\ forall t, parseTeamFromName name1 (Some t) = t.
Proof.
  intros H. unfold parseTeamFromName.
  rewrite (toLowerCase_sameUpToCase _ _ H). split; reflexivity.
Qed.

(** X4. Without a section team, a name that holds the letters "ah" in
    either case anywhere, such as "SV Jahn II", is never taken for the
    first or second men's team: it is a youth team or the women's team
    when it names one, and the veterans' team otherwise. *)
Theorem parseTeamFromName_ah before mid after :
  sameUpToCase mid "ah" ->
  parseTeamFromName (before +:+ mid +:+ after) None <> herren
  /\ parseTeamFromName (before +:+ mid +:+ after) None <> herren2.
Proof.
  intros H. unfold parseTeamFromName.
  rewrite !toLowerCase_app, (toLowerCase_sameUpToCase _ _ H).
  change (Js.toLowerCase "ah") with "ah". rewrite includes_app, orb_true_r.
  repeat match goal with
         | |- context [if ?b then _ else _] => destruct b
         end; split; discriminate.
Qed.

(** ** What a run does to the tables, whatever the database rejects *)

(** *** Invariants of the two loops *)

Lemma forOf_invariant {S A} (body : A -> M S unit) (P : S -> Prop) :
  (forall x s, P s -> P (snd (body x s))) ->
  forall l s, P s -> P (snd (forOf l body s)).
Proof.
  intros Hbody l. induction l as [|x l IH]; intros s Hs; [exact Hs|].
  simpl. unfold bind. specialize (Hbody x s Hs).
  destruct (body x s) as [[[]|msg] s1]; simpl in *; auto.
Qed.

(** A property of the frame that no rejection disturbs and that each
    iteration of the archival loop keeps holds after the pass. *)
Lemma archiveMissingEvents_invariant (P : Frame -> Prop) am fr :
  (forall fr r, P fr -> P (withStore (withRejections r (store fr)) fr)) ->
  (forall x fr, P fr -> P (snd (archiveIfMissing x fr))) ->
  P fr -> P (snd (archiveMissingEvents am fr)).
Proof.
  intros Hrej Harch H1. destruct fr as [[evs maps hist n rej] sm seen].
  unfold archiveMissingEvents, bind, gets, tryCatch. simpl.
  destruct (am && _); [|exact H1].
  unfold await, getBfvEventIds, selectEvents, bind, gets, ret, dbCall. simpl.
  destruct rej as [|[msg|] rej]; simpl.
  - match goal with |- context [forOf ?ids archiveIfMissing ?fr] =>
      pose proof (forOf_invariant archiveIfMissing P Harch ids fr H1) as H2;
      destruct (forOf ids archiveIfMissing fr) as [[[]|msg] fr1] end; exact H2.
  - exact (Hrej _ rej H1).
  - match goal with |- context [forOf ?ids archiveIfMissing ?fr] =>
      pose proof (forOf_invariant archiveIfMissing P Harch ids fr (Hrej _ rej H1)) as H2;
      destruct (forOf ids archiveIfMissing fr) as [[[]|msg] fr1] end; exact H2.
Qed.

(** Such a property, when the iterations of the loop over the batch keep
    it too, holds when the history row is about to be written. *)
Lemma run_invariant (P : Frame -> Prop) s ms am :
  (forall fr r, P fr -> P (withStore (withRejections r (store fr)) fr)) ->
  (forall m fr, P fr -> P (snd (processMatch m fr))) ->
  (forall x fr, P fr -> P (snd (archiveIfMissing x fr))) ->
  P (initialFrame s) -> P (frameBeforeHistory s ms am).
Proof.
  intros Hrej Hloop Harch H0. unfold frameBeforeHistory, frameAfterLoop.
  apply archiveMissingEvents_invariant; [exact Hrej|exact Harch|].
  apply forOf_invariant; [exact Hloop|exact H0].
Qed.

(** *** What one iteration of the archival loop does to the table *)

Lemma archiveIfMissing_rows x fr :
  let fr' := snd (archiveIfMissing x fr) in
  uuidCounter (store fr') = uuidCounter (store fr)
  /\ ((calendarEvents (store fr') = calendarEvents (store fr) /\ summary fr' = summary fr)
      \/ exists c,
           c ∈ calendarEvents (store fr) /\ externalId c = Some x /\ source c = BFV
           /\ status c = ACTIVE /\ (x ∉ processedExternalIds fr)
           /\ calendarEvents (store fr') = updateById archiveSet (id c) (calendarEvents (store fr))
           /\ summary fr' = incArchived (summary fr)).
Proof.
  destruct fr as [[evs maps hist n rej] sm seen].
  unfold archiveIfMissing, updateEvents, onSummary, await, modify, selectEvents, bind, gets,
    ret, dbCall. simpl.
  destruct (decide (x ∈ seen)) as [Hx|Hx];
    [rewrite (bool_decide_true _ Hx)|rewrite (bool_decide_false _ Hx)]; simpl; [auto|].
  destruct rej as [|[msg|] rej]; simpl; [| auto |].
  all: destruct (head (filter _ evs)) as [c|] eqn:E; simpl; [|auto].
  all: apply head_Some_elem_of, list_elem_of_filter in E as [(He & Hs & Ha) Hin].
  all: try (destruct rej as [|[msg|] rej]; simpl); split; try reflexivity; eauto 10.
Qed.

(** *** The counter of the UUIDs only grows *)

#[local] Opaque matchNeedsUpdate generateExternalId generateMatchKey matchTitle
  updateSet insertValues errorEntry.

Lemma processMatch_uuidCounter m fr :
  uuidCounter (store fr) <= uuidCounter (store (snd (processMatch m fr))).
Proof.
  destruct fr as [[evs maps hist n rej] sm seen].
  unfold_service; simpl.
  split_choices; simpl; lia.
Qed.

#[local] Transparent matchNeedsUpdate generateExternalId generateMatchKey matchTitle
  updateSet insertValues errorEntry.

(** *** Rows are kept *)

Lemma evolves_refl e : evolves e e.
Proof. unfold evolves. auto 10. Qed.

Lemma evolves_trans e1 e2 e3 : evolves e1 e2 -> evolves e2 e3 -> evolves e1 e3.
Proof.
  unfold evolves. intros (?&?&?&?&?&?&?&?&H12) (?&?&?&?&?&?&?&?&H23).
  repeat split; try congruence.
  destruct H23 as [H23|H23]; [rewrite H23; exact H12|now right].
Qed.

Lemma evolves_applySet u e :
  s_status u = None \/ s_status u = Some ARCHIVED -> evolves e (applySet u e).
Proof.
  intros Hu. unfold evolves. simpl. repeat split.
  destruct Hu as [->| ->]; simpl; auto.
Qed.

Lemma Forall2_evolves_refl l : Forall2 evolves l l.
Proof. apply Forall_Forall2_diag, Forall_forall. intros; apply evolves_refl. Qed.

Lemma Forall2_evolves_updateById u i evs :
  s_status u = None \/ s_status u = Some ARCHIVED ->
  Forall2 evolves evs (updateById u i evs).
Proof.
  intros Hu. unfold updateById. induction evs as [|e evs IH]; [constructor|].
  rewrite fmap_cons. constructor; [|exact IH].
  destruct (decide (id e = i)); [now apply evolves_applySet|apply evolves_refl].
Qed.

(** One record either leaves every row in place, or appends one row. *)
Lemma processMatch_rows m fr :
  let fr' := snd (processMatch m fr) in
  (Forall2 evolves (calendarEvents (store fr)) (calendarEvents (store fr'))
   /\ createdCount (summary fr') = createdCount (summary fr))
  \/ (exists row,
        calendarEvents (store fr') = calendarEvents (store fr) ++ [row]
        /\ source row = BFV /\ type row = spiel
        /\ createdCount (summary fr') = S (createdCount (summary fr))).
Proof.
  cbv zeta. destruct (processMatch_spec m fr) as (_ & _ & [msg r n _ Hst Hsm|r _ Hst Hsm]);
    rewrite Hst, Hsm.
  - left. split; [apply Forall2_evolves_refl|reflexivity].
  - cbn [calendarEvents]. unfold eventsAfter, summaryAfter.
    destruct (decide3 _ _ m) as [ex|ex|].
    + left. split; [|reflexivity]. apply Forall2_evolves_updateById. now left.
    + left. split; [apply Forall2_evolves_refl|reflexivity].
    + right. eexists. split; [reflexivity|]. repeat split.
Qed.

Lemma archiveIfMissing_evolves x fr :
  let fr' := snd (archiveIfMissing x fr) in
  Forall2 evolves (calendarEvents (store fr)) (calendarEvents (store fr'))
  /\ createdCount (summary fr') = createdCount (summary fr).
Proof.
  cbv zeta. destruct (archiveIfMissing_rows x fr) as (_ & [[-> ->]|(c & _ & _ & _ & _ & _ & -> & ->)]).
  - split; [apply Forall2_evolves_refl|reflexivity].
  - split; [|reflexivity]. apply Forall2_evolves_updateById. now right.
Qed.

Lemma keptAndCreated_evolves evs0 fr fr' :
  keptAndCreated evs0 fr ->
  Forall2 evolves (calendarEvents (store fr)) (calendarEvents (store fr')) ->
  createdCount (summary fr') = createdCount (summary fr) ->
  keptAndCreated evs0 fr'.
Proof.
  intros (kept & created & He & Hk & Hl & Hc) H2 Hcc. rewrite He in H2.
  apply Forall2_app_inv_l in H2 as (kept' & created' & Hk' & Hc' & Heq).
  exists kept', created'. split; [exact Heq|]. split; [|split].
  - eapply Forall2_trans; [|exact Hk|exact Hk']. apply evolves_trans.
  - rewrite Hcc, <- Hl. symmetry. eapply Forall2_length, Hc'.
  - clear -Hc Hc'. induction Hc' as [|e e' l l' He _ IH]; [constructor|].
    apply Forall_cons in Hc as [[Hs Ht] Hc]. constructor; [|auto].
    destruct He as (_ & Hs' & _ & Ht' & _). split; congruence.
Qed.

(** X5. A run deletes no row and moves none: whatever the database
    rejects, the events table it leaves consists of the rows it found, each
    in its place with its id, source, recurring group, type, team, home
    flag, opponent and description as they were and its status as it was
    or ARCHIVED (no row is reactivated), followed by as many new rows as
    [createdCount] says, each an externally-sourced game. *)
Theorem importBfvMatches_keeps_rows s ms fn am :
  exists kept created,
    calendarEvents (snd (importBfvMatches s ms fn am)) = kept ++ created
    /\ Forall2 evolves (calendarEvents s) kept
    /\ length created = createdCount (summary (frameBeforeHistory s ms am))
    /\ Forall (fun e => source e = BFV /\ type e = spiel) created.
Proof.
  destruct (importBfvMatches_result s ms fn am) as (_ & -> & _).
  apply (run_invariant (keptAndCreated (calendarEvents s))).
  - intros fr r H. exact H.
  - intros m fr H.
    destruct (processMatch_rows m fr) as [[H2 Hc]|(row & He & Hs & Ht & Hc)].
    + eapply keptAndCreated_evolves; eassumption.
    + destruct H as (kept & created & He0 & Hk & Hl & Hcr).
      exists kept, (created ++ [row]). rewrite He, He0, <- app_assoc.
      split; [reflexivity|]. split; [exact Hk|]. split.
      * rewrite length_app, Hc, Hl. simpl. lia.
      * apply Forall_app. split; [exact Hcr|]. constructor; [auto|constructor].
  - intros x fr H. destruct (archiveIfMissing_evolves x fr) as [H2 Hc].
    eapply keptAndCreated_evolves; eassumption.
  - exists (calendarEvents s), []. rewrite app_nil_r.
    split; [reflexivity|]. split; [apply Forall2_evolves_refl|]. split; [reflexivity|constructor].
Qed.

(** *** The primary key *)

Lemma wellKeyed_ext s s' :
  calendarEvents s' = calendarEvents s -> uuidCounter s <= uuidCounter s' ->
  wellKeyed s -> wellKeyed s'.
Proof.
  unfold wellKeyed. intros -> Hn [Hnd Hlt]. split; [exact Hnd|].
  intros e He. specialize (Hlt e He). lia.
Qed.

Lemma wellKeyed_processMatch m fr :
  wellKeyed (store fr) -> wellKeyed (store (snd (processMatch m fr))).
Proof.
  intros Hwk. pose proof (processMatch_uuidCounter m fr) as Hn.
  destruct (processMatch_spec m fr) as (_ & _ & [msg r n _ Hst Hsm|r _ Hst Hsm]).
  - apply (wellKeyed_ext (store fr)); [now rewrite Hst|exact Hn|exact Hwk].
  - apply (wellKeyed_ext (store (stepFrame m fr)));
      [now rewrite Hst|now rewrite Hst|apply wellKeyed_stepFrame, Hwk].
Qed.

Lemma wellKeyed_updateById u i s evs' n :
  evs' = updateById u i (calendarEvents s) -> n = uuidCounter s ->
  wellKeyed s -> NoDup (id <$> evs') /\ forall e, e ∈ evs' -> id e < n.
Proof.
  intros -> -> [Hnd Hlt]. rewrite ids_updateById. split; [exact Hnd|].
  intros e' (e & Hin & [[_ ->]|[_ ->]])%elem_of_updateById; rewrite ?id_applySet; auto.
Qed.

Lemma wellKeyed_archiveIfMissing x fr :
  wellKeyed (store fr) -> wellKeyed (store (snd (archiveIfMissing x fr))).
Proof.
  intros Hwk.
  destruct (archiveIfMissing_rows x fr) as (Hn & [[He _]|(c & _ & _ & _ & _ & _ & He & _)]).
  - apply (wellKeyed_ext (store fr)); [exact He|lia|exact Hwk].
  - unfold wellKeyed. eapply wellKeyed_updateById; [exact He|exact Hn|exact Hwk].
Qed.

(** X6. A run keeps the primary key of the events table, whatever the
    database rejects: when the ids of the rows are distinct and below the
    UUIDs still to be drawn before the run, they are so after it. *)
Theorem importBfvMatches_keeps_primary_key s ms fn am :
  wellKeyed s -> wellKeyed (snd (importBfvMatches s ms fn am)).
Proof.
  intros Hwk. destruct (importBfvMatches_result s ms fn am) as (_ & He & _ & Hn & _).
  apply (wellKeyed_ext (store (frameBeforeHistory s ms am))); [exact He|lia|].
  apply (run_invariant (fun fr => wellKeyed (store fr))).
  - intros fr r H. exact H.
  - intros m fr. apply wellKeyed_processMatch.
  - intros x fr. apply wellKeyed_archiveIfMissing.
  - exact Hwk.
Qed.

(** *** Rows entered by hand *)

Lemma lookup_updateById_other u j evs i e :
  evs !! i = Some e -> id e <> j -> updateById u j evs !! i = Some e.
Proof.
  intros He Hj. unfold updateById. rewrite list_lookup_fmap, He. simpl.
  destruct (decide (id e = j)); [contradiction|reflexivity].
Qed.

Lemma lookup_updateById_source u c evs i e :
  NoDup (id <$> evs) -> c ∈ evs -> source c <> source e ->
  evs !! i = Some e -> updateById u (id c) evs !! i = Some e.
Proof.
  intros Hnd Hc Hs He. apply lookup_updateById_other; [exact He|].
  intros Heq. apply Hs. f_equal. symmetry.
  eapply NoDup_id_inj; eauto. eapply list_elem_of_lookup_2, He.
Qed.

Lemma processMatch_spares_manual m fr i e :
  wellKeyed (store fr) -> source e = MANUAL ->
  calendarEvents (store fr) !! i = Some e ->
  calendarEvents (store (snd (processMatch m fr))) !! i = Some e.
Proof.
  intros [Hnd _] Hs He.
  destruct (processMatch_spec m fr) as (_ & _ & [msg r n _ Hst _|r _ Hst _]); rewrite Hst.
  - exact He.
  - cbn [calendarEvents]. unfold eventsAfter.
    destruct (decide3 _ _ m) as [ex|ex|] eqn:E.
    + apply decide3_DoUpdate, resolveExisting_Some in E as (c & Hc & <- & Hq).
      apply lookup_updateById_source; [exact Hnd|exact Hc| |exact He].
      rewrite Hs. destruct Hq as [[-> _]|[-> _]]; discriminate.
    + exact He.
    + apply lookup_app_l_Some, He.
Qed.

Lemma archiveIfMissing_spares_manual x fr i e :
  wellKeyed (store fr) -> source e = MANUAL ->
  calendarEvents (store fr) !! i = Some e ->
  calendarEvents (store (snd (archiveIfMissing x fr))) !! i = Some e.
Proof.
  intros [Hnd _] Hs He.
  destruct (archiveIfMissing_rows x fr) as (_ & [[-> _]|(c & Hc & _ & Hsc & _ & _ & -> & _)]).
  - exact He.
  - apply lookup_updateById_source; [exact Hnd|exact Hc| |exact He].
    rewrite Hs, Hsc. discriminate.
Qed.

(** X7. A run never touches an event entered by hand: in a table with
    distinct ids, a row whose source is MANUAL is in its place, unchanged
    in every column, after the run, whatever the batch holds and whatever
    the database rejects. *)
Theorem importBfvMatches_spares_manual s ms fn am i e :
  wellKeyed s -> calendarEvents s !! i = Some e -> source e = MANUAL ->
  calendarEvents (snd (importBfvMatches s ms fn am)) !! i = Some e.
Proof.
  intros Hwk He Hs. destruct (importBfvMatches_result s ms fn am) as (_ & -> & _).
  apply (run_invariant (fun fr =>
    wellKeyed (store fr) /\ calendarEvents (store fr) !! i = Some e)).
  - intros fr r H. exact H.
  - intros m fr [H1 H2]. split; [now apply wellKeyed_processMatch|].
    now apply processMatch_spares_manual.
  - intros x fr [H1 H2]. split; [now apply wellKeyed_archiveIfMissing|].
    now apply archiveIfMissing_spares_manual.
  - split; assumption.
Qed.

(** *** The unique constraint on source and external ID *)

Lemma omap_externalKey_updateById u i evs :
  (forall e, externalKey (applySet u e) = externalKey e) ->
  omap externalKey (updateById u i evs) = omap externalKey evs.
Proof.
  intros Hu. unfold updateById. induction evs as [|e evs IH]; [reflexivity|].
  rewrite fmap_cons. unfold omap in *. cbn [list_omap].
  rewrite IH. destruct (decide (id e = i)); [rewrite Hu|]; reflexivity.
Qed.

Lemma elem_of_omap_externalKey k (evs : list CalendarEventDb) :
  k ∈ omap externalKey evs ->
  exists e, e ∈ evs /\ source e = k.1 /\ externalId e = Some k.2.
Proof.
  intros (e & He & Hk)%list_elem_of_omap. exists e. split; [exact He|].
  unfold externalKey in Hk. destruct (externalId e) as [x|]; [|discriminate].
  simpl in Hk. injection Hk as <-. auto.
Qed.

Lemma NoDup_omap_remove {A B} (f : A -> option B) (l1 : list A) c l2 :
  NoDup (omap f (l1 ++ c :: l2)) -> NoDup (omap f (l1 ++ l2)).
Proof.
  rewrite !omap_app. unfold omap. cbn [list_omap].
  destruct (f c) as [k|]; [|auto].
  intros (H1 & H12 & [Hk H2]%NoDup_cons)%NoDup_app. apply NoDup_app.
  split; [exact H1|]. split; [|exact H2].
  intros x Hx Hx2. apply (H12 x Hx). now right.
Qed.

Lemma uniqueExternal_eventsAfter evs maps n m :
  NoDup (id <$> evs) -> uniqueExternal evs -> uniqueExternal (eventsAfter evs maps n m).
Proof.
  intros Hnd Hu. unfold eventsAfter.
  assert (head (filter (byExternalId m) evs) = None ->
          (BFV, generateExternalId m) ∉ omap externalKey evs) as Hfresh.
  { intros E (e & He & Hs & Hx)%elem_of_omap_externalKey.
    apply head_None in E. eapply filter_nil_iff in E; [|exact He].
    apply E. split; assumption. }
  destruct (decide3 evs maps m) as [ex|ex|] eqn:E; [|exact Hu|].
  - apply decide3_DoUpdate in E. rewrite resolveExisting_unfold in E.
    destruct (head (filter (byExternalId m) evs)) as [c|] eqn:E1.
    + injection E as <-. cbn [ev_id dbEventToCalendarEvent].
      apply head_filter_split in E1 as (l1 & l2 & -> & [Hs Hx] & _).
      rewrite updateById_split by exact Hnd. unfold uniqueExternal in *.
      rewrite !omap_app in *. unfold omap in *. cbn [list_omap] in *.
      replace (externalKey (applySet _ c)) with (externalKey c); [exact Hu|].
      unfold externalKey. rewrite Hx. simpl. reflexivity.
    + specialize (Hfresh eq_refl).
      destruct (head (filter (byTeams m) evs)) as [c|] eqn:E2; [|discriminate].
      injection E as <-. cbn [ev_id fallbackToCalendarEvent].
      apply head_filter_split in E2 as (l1 & l2 & -> & [Hs _] & _).
      rewrite updateById_split by exact Hnd. unfold uniqueExternal in *.
      assert ((BFV, generateExternalId m) ∉ omap externalKey (l1 ++ l2)) as Hfresh'.
      { intros (e & He & Hse & Hx)%elem_of_omap_externalKey. apply Hfresh.
        apply list_elem_of_omap. exists e. split.
        - apply elem_of_app in He as [He|He]; apply elem_of_app; [now left|right; now right].
        - unfold externalKey. rewrite Hx. simpl in *. now rewrite Hse. }
      apply NoDup_omap_remove in Hu. rewrite omap_app in Hu, Hfresh' |- *.
      unfold omap in *. cbn [list_omap].
      replace (externalKey (applySet _ c)) with (Some (BFV, generateExternalId m))
        by (unfold externalKey; simpl; now rewrite Hs).
      apply NoDup_app in Hu as (H1 & H12 & H2). apply NoDup_app.
      split; [exact H1|]. split.
      * intros x Hx [->|Hx2]%elem_of_cons; [|now apply (H12 x)].
        apply Hfresh'. apply elem_of_app. now left.
      * apply NoDup_cons. split; [|exact H2].
        intros Hin. apply Hfresh'. apply elem_of_app. now right.
  - assert (head (filter (byExternalId m) evs) = None) as E1.
    { unfold decide3 in E. rewrite resolveExisting_unfold in E.
      destruct (head (filter (byExternalId m) evs)); [|reflexivity].
      destruct (needsUpdate _); discriminate. }
    specialize (Hfresh E1). unfold uniqueExternal in *. rewrite omap_app.
    unfold omap in *. cbn [list_omap]. unfold externalKey at 2. simpl.
    apply NoDup_app. split; [exact Hu|]. split; [|apply NoDup_singleton].
    intros x Hx ->%list_elem_of_singleton. contradiction.
Qed.

(** X8. A run never violates the unique constraint on (source, external
    ID): on a table with distinct ids in which no two rows have the same
    source and the same non-NULL external ID, every row the run writes
    keeps it so, whatever the batch holds (records that repeat an ID
    included) and whatever the database rejects. *)
Theorem importBfvMatches_keeps_unique_external s ms fn am :
  wellKeyed s -> uniqueExternal (calendarEvents s) ->
  uniqueExternal (calendarEvents (snd (importBfvMatches s ms fn am))).
Proof.
  intros Hwk Hu. destruct (importBfvMatches_result s ms fn am) as (_ & -> & _).
  apply (run_invariant (fun fr =>
    wellKeyed (store fr) /\ uniqueExternal (calendarEvents (store fr)))).
  - intros fr r H. exact H.
  - intros m fr [H1 H2]. split; [now apply wellKeyed_processMatch|].
    destruct (processMatch_spec m fr) as (_ & _ & [msg r n _ Hst _|r _ Hst _]); rewrite Hst.
    + exact H2.
    + cbn [calendarEvents]. apply uniqueExternal_eventsAfter; [apply H1|exact H2].
  - intros x fr [H1 H2]. split; [now apply wellKeyed_archiveIfMissing|].
    destruct (archiveIfMissing_rows x fr) as (_ & [[-> _]|(c & _ & _ & _ & _ & _ & -> & _)]).
    + exact H2.
    + unfold uniqueExternal. rewrite omap_externalKey_updateById; [exact H2|reflexivity].
  - split; assumption.
Qed.

(** *** The history row and the error list *)

(** X9. A run that returns has appended exactly one row to the import
    history, holding the counts of the summary it returned, and a run that
    throws has appended none; in the summary there are as many error
    entries as [errorCount] says, so the notes of the history row are NULL
    exactly when no record failed. This holds whatever the database
    rejects. *)
Theorem importBfvMatches_history s ms fn am :
  match fst (importBfvMatches s ms fn am) with
  | Ok sm =>
      bfvImportHistory (snd (importBfvMatches s ms fn am))
        = bfvImportHistory s ++ [historyOf sm fn]
      /\ length (errors sm) = errorCount sm
      /\ h_notes (historyOf sm fn)
         = (if (errorCount sm =? 0)%nat then None
            else Some (Js.join (String (ascii_of_nat 10) "") (errors sm)))
  | Throw _ => bfvImportHistory (snd (importBfvMatches s ms fn am)) = bfvImportHistory s
  end.
Proof.
  assert (bfvImportHistory (store (frameBeforeHistory s ms am)) = bfvImportHistory s
          /\ length (errors (summary (frameBeforeHistory s ms am)))
             = errorCount (summary (frameBeforeHistory s ms am))) as [Hh He].
  { apply (run_invariant (fun fr =>
      bfvImportHistory (store fr) = bfvImportHistory s
      /\ length (errors (summary fr)) = errorCount (summary fr))).
    - intros fr r H. exact H.
    - intros m fr [H1 H2].
      destruct (processMatch_spec m fr) as (_ & _ & [msg r n _ Hst Hsm|r _ Hst Hsm]);
        rewrite Hst, Hsm.
      + split; [exact H1|]. simpl. rewrite length_app, H2. simpl. lia.
      + split; [exact H1|]. unfold summaryAfter. destruct (decide3 _ _ m); exact H2.
    - intros x fr [H1 H2].
      destruct (archiveIfMissing_frame x fr) as ((_ & _ & _ & Hec & Hes) & _ & _ & Hhist).
      split; congruence.
    - split; reflexivity. }
  rewrite importBfvMatches_eq. cbv zeta.
  assert (forall sm : BfvImportSummary, length (errors sm) = errorCount sm ->
            h_notes (historyOf sm fn)
            = (if (errorCount sm =? 0)%nat then None
               else Some (Js.join (String (ascii_of_nat 10) "") (errors sm)))) as Hnotes.
  { intros sm <-. unfold historyOf. simpl. now destruct (errors sm). }
  destruct (rejections (store (frameBeforeHistory s ms am))) as [|[msg|] rej]; simpl;
    rewrite ?Hh; try (split; [reflexivity|split; [exact He|apply Hnotes, He]]).
  reflexivity.
Qed.

(** *** The archival pass, however far it gets *)

Lemma countArchived_archive l1 c l2 :
  status c = ACTIVE ->
  countArchived (l1 ++ applySet archiveSet c :: l2) = S (countArchived (l1 ++ c :: l2)).
Proof.
  intros Hc. unfold countArchived. rewrite !filter_app, !filter_cons, !length_app.
  rewrite decide_True by reflexivity.
  rewrite decide_False by (rewrite Hc; discriminate). simpl. lia.
Qed.

Lemma archiveIfMissing_sound seen0 evs0 a0 x fr :
  NoDup (id <$> calendarEvents (store fr)) /\ processedExternalIds fr = seen0
  /\ Forall2 (archivedOrKept seen0) evs0 (calendarEvents (store fr))
  /\ archivedCount (summary fr) + countArchived evs0
     = a0 + countArchived (calendarEvents (store fr)) ->
  let fr' := snd (archiveIfMissing x fr) in
  NoDup (id <$> calendarEvents (store fr')) /\ processedExternalIds fr' = seen0
  /\ Forall2 (archivedOrKept seen0) evs0 (calendarEvents (store fr'))
  /\ archivedCount (summary fr') + countArchived evs0
     = a0 + countArchived (calendarEvents (store fr')).
Proof.
  intros (Hnd & Hseen & Hall & Hcount). cbv zeta.
  destruct (archiveIfMissing_frame x fr) as (_ & Hseen' & _).
  destruct (archiveIfMissing_rows x fr)
    as (_ & [[-> ->]|(c & Hc & Hext & Hsrc & Hact & Hx & -> & ->)]).
  - repeat split; try assumption. congruence.
  - rewrite ids_updateById. split; [exact Hnd|]. split; [congruence|].
    apply list_elem_of_split in Hc as (l1 & l2 & He). rewrite He in *.
    rewrite updateById_split by exact Hnd.
    apply Forall2_app_inv_r in Hall as (k1 & k2' & Hk1 & Hk2 & ->).
    apply Forall2_cons_inv_r in Hk2 as (c0 & k2 & Hc0 & Hk2 & ->).
    assert (c0 = c) as ->.
    { destruct Hc0 as [->|[_ ->]]; [reflexivity|]. rewrite status_archived in Hact. discriminate. }
    split.
    + apply Forall2_app; [exact Hk1|]. constructor; [|exact Hk2].
      right. split; [|reflexivity]. apply isMissing_true. rewrite <- Hseen. eauto 6.
    + rewrite countArchived_archive by exact Hact. simpl. lia.
Qed.

(** X10. The archival pass archives nothing but missing events, however
    far it gets: in a table with distinct ids, whatever the database
    rejects during the pass, every row is afterwards as it was, except
    that some of the active externally-sourced rows whose external ID was
    not seen have become ARCHIVED and are otherwise unchanged; events
    entered by hand, cancelled or archived events, events without an
    external ID and events whose ID was seen are as they were. The number
    of rows archived is what the pass adds to [archivedCount]. *)
Theorem archiveMissingEvents_sound am fr :
  NoDup (id <$> calendarEvents (store fr)) ->
  let fr' := snd (archiveMissingEvents am fr) in
  Forall2 (archivedOrKept (processedExternalIds fr))
    (calendarEvents (store fr)) (calendarEvents (store fr'))
  /\ archivedCount (summary fr') + countArchived (calendarEvents (store fr))
     = archivedCount (summary fr) + countArchived (calendarEvents (store fr')).
Proof.
  intros Hnd. cbv zeta.
  apply (archiveMissingEvents_invariant (fun fr1 =>
    NoDup (id <$> calendarEvents (store fr1))
    /\ processedExternalIds fr1 = processedExternalIds fr
    /\ Forall2 (archivedOrKept (processedExternalIds fr))
         (calendarEvents (store fr)) (calendarEvents (store fr1))
    /\ archivedCount (summary fr1) + countArchived (calendarEvents (store fr))
       = archivedCount (summary fr) + countArchived (calendarEvents (store fr1)))).
  - intros fr1 r H. exact H.
  - intros x fr1. apply archiveIfMissing_sound.
  - split; [exact Hnd|]. split; [reflexivity|]. split; [|reflexivity].
    apply Forall_Forall2_diag, Forall_forall. intros e _. now left.
Qed.

(** ** The storage functions around the reconciler *)

Ltac unfold_storage :=
  unfold createCalendarEvent, getCalendarEvent, getCalendarEventByMatchKey,
    updateCalendarEvent, deleteCalendarEvent, archiveCalendarEvent,
    updateEventsReturning, deleteEvents, createFieldMapping, insertMapping,
    getAllFieldMappings, getDefaultFieldForTeam, getDefaultField, selectMappings,
    insertEvent, randomUUID, selectEvents, modify, bind, gets, ret, dbCall.



Lemma filter_filter_other (evs : list CalendarEventDb) i j :
  j <> i ->
  filter (fun e => id e = j) (filter (fun e => ~ id e = i) evs)
  = filter (fun e => id e = j) evs.
Proof.
  intros Hji. induction evs as [|e evs IH]; [reflexivity|].
  rewrite (filter_cons (fun e => ~ id e = i)), (filter_cons (fun e => id e = j) e evs).
  destruct (decide (~ id e = i)) as [Hn|Hn].
  - rewrite filter_cons, IH. reflexivity.
  - rewrite IH. destruct (decide (id e = j)) as [Hj|]; [|reflexivity].
    destruct Hn. congruence.
Qed.

Lemma filter_filter_same (evs : list CalendarEventDb) i :
  filter (fun e => id e = i) (filter (fun e => ~ id e = i) evs) = [].
Proof.
  apply filter_nil_iff. intros e [Hn _]%list_elem_of_filter He. contradiction.
Qed.

Lemma length_filter_pos (evs : list CalendarEventDb) i :
  (0 <? length (filter (fun e => id e = i) evs))%nat = bool_decide (i ∈ id <$> evs).
Proof.
  destruct (decide (i ∈ id <$> evs)) as [Hin|Hin].
  - rewrite (bool_decide_true _ Hin). apply list_elem_of_fmap in Hin as (e & -> & He).
    assert (e ∈ filter (fun e0 => id e0 = id e) evs) as H
      by (apply list_elem_of_filter; auto).
    destruct (filter _ evs); [inversion H|reflexivity].
  - rewrite (bool_decide_false _ Hin).
    replace (filter (fun e => id e = i) evs) with (@nil CalendarEventDb); [reflexivity|].
    symmetry. apply filter_nil_iff. intros e He Heq. apply Hin.
    rewrite <- Heq. now apply list_elem_of_fmap_2.
Qed.

(** X12. Deleting an event by its id, when the database rejects nothing:
    [deleteCalendarEvent] answers whether a row had the id; afterwards
    [getCalendarEvent] finds nothing under that id and finds under every
    other id what it found before. *)
Theorem deleteCalendarEvent_getCalendarEvent s eventId :
  rejections s = [] ->
  let s' := snd (deleteCalendarEvent eventId s) in
  fst (deleteCalendarEvent eventId s) = Ok (bool_decide (eventId ∈ id <$> calendarEvents s))
  /\ getCalendarEvent eventId s' = (Ok None, s')
  /\ forall j, j <> eventId -> fst (getCalendarEvent j s') = fst (getCalendarEvent j s).
Proof.
  destruct s as [evs maps hist n rej]. simpl. intros ->.
  unfold_storage. simpl. split; [|split].
  - now rewrite length_filter_pos.
  - now rewrite filter_filter_same.
  - intros j Hj. now rewrite filter_filter_other.
Qed.

(** *** Archiving by hand, then importing *)

Lemma archiveCalendarEvent_accepted s eventId :
  rejections s = [] ->
  archiveCalendarEvent eventId s
  = (Ok (bool_decide (eventId ∈ id <$> calendarEvents s)),
     withEvents (updateById archiveSet eventId (calendarEvents s)) s).
Proof.
  destruct s as [evs maps hist n rej]. simpl. intros ->.
  unfold_storage. simpl. rewrite length_fmap, length_filter_pos. reflexivity.
Qed.

(** X13. An event archived by hand stays archived when its fixture is
    imported again. When the database rejects nothing and an
    externally-sourced event [c] carries the external ID of a record:
    [archiveCalendarEvent] on the id of [c] answers true; the next
    iteration for the record finds an event under its external ID (the
    lookup by ID does not look at the status), so it creates no row and
    counts the record as updated or unchanged; and every row with the id
    of [c] is ARCHIVED afterwards. *)
Theorem archived_event_survives_import m fr c :
  rejections (store fr) = [] ->
  c ∈ calendarEvents (store fr) -> source c = BFV ->
  externalId c = Some (generateExternalId m) ->
  let s1 := snd (archiveCalendarEvent (id c) (store fr)) in
  let fr' := snd (processMatch m (withStore s1 fr)) in
  fst (archiveCalendarEvent (id c) (store fr)) = Ok true
  /\ length (calendarEvents (store fr')) = length (calendarEvents (store fr))
  /\ createdCount (summary fr') = createdCount (summary fr)
  /\ updatedCount (summary fr') + unchangedCount (summary fr')
     = S (updatedCount (summary fr) + unchangedCount (summary fr))
  /\ Forall (fun e => id e = id c -> status e = ARCHIVED) (calendarEvents (store fr')).
Proof.
  intros Hrej Hc Hsrc Hext. cbv zeta.
  rewrite (archiveCalendarEvent_accepted _ _ Hrej). cbn [fst snd].
  split; [f_equal; apply bool_decide_true; now apply list_elem_of_fmap_2|].
  rewrite processMatch_accepted by exact Hrej.
  cbn [snd stepFrame store summary withStore withEvents calendarEvents fieldMappings
       uuidCounter].
  set (evs1 := updateById archiveSet (id c) (calendarEvents (store fr))).
  assert (Forall (fun e => id e = id c -> status e = ARCHIVED) evs1) as Harch.
  { apply Forall_forall. intros e' (e & _ & [[_ ->]|[Hne ->]])%elem_of_updateById.
    - intros _. apply status_archived.
    - intros Heq. contradiction. }
  assert (exists c0, head (filter (byExternalId m) evs1) = Some c0) as [c0 Hc0].
  { assert (applySet archiveSet c ∈ filter (byExternalId m) evs1) as Hin.
    { apply list_elem_of_filter. split; [split; assumption|].
      unfold evs1, updateById. apply list_elem_of_fmap. exists c.
      split; [|exact Hc]. now rewrite decide_True. }
    destruct (filter (byExternalId m) evs1) as [|c0 l]; [inversion Hin|eauto]. }
  unfold eventsAfter, summaryAfter, decide3. rewrite resolveExisting_unfold, Hc0.
  destruct (needsUpdate _); cbn [createdCount updatedCount unchangedCount incUpdated incUnchanged].
  - split; [unfold evs1, updateById; now rewrite !length_fmap|].
    split; [reflexivity|]. split; [lia|].
    apply Forall_forall. intros e' (e & He & [[_ ->]|[_ ->]])%elem_of_updateById.
    + intros Heq. rewrite Forall_forall in Harch. apply (Harch e He Heq).
    + rewrite Forall_forall in Harch. apply (Harch e He).
  - split; [unfold evs1, updateById; now rewrite !length_fmap|].
    split; [reflexivity|]. split; [lia|exact Harch].
Qed.

(** *** Editing through the storage, then importing *)

Lemma filter_fmap_commute {A} (P : A -> Prop) `{!forall x, Decision (P x)} (g : A -> A)
    (l : list A) :
  (forall e, P (g e) <-> P e) -> filter P (g <$> l) = g <$> filter P l.
Proof.
  intros Hg. induction l as [|e l IH]; [reflexivity|].
  rewrite fmap_cons, !filter_cons, IH.
  destruct (decide (P (g e))) as [H1|H1], (decide (P e)) as [H2|H2]; try reflexivity.
  - destruct H2. apply Hg, H1.
  - destruct H1. apply Hg, H2.
Qed.

(** *** Edits and the order of the rows *)

Lemma updateCalendarEvent_accepted s eventId data :
  rejections s = [] ->
  snd (updateCalendarEvent eventId data s)
  = withEvents ((fun e => if decide (id e = eventId)
                          then applyUpdateData (updateData data) e else e)
                  <$> calendarEvents s) s.
Proof. destruct s as [evs maps hist n rej]. simpl. intros ->. reflexivity. Qed.

Lemma head_fmap {A B} (g : A -> B) (l : list A) : head (g <$> l) = g <$> head l.
Proof. now destruct l. Qed.

(** The resolution of a record in a table whose rows were mapped by a
    function that keeps what the two lookups read. *)
Lemma resolveExisting_fmap (g : CalendarEventDb -> CalendarEventDb) evs m :
  (forall e, source (g e) = source e /\ externalId (g e) = externalId e
             /\ teamHome (g e) = teamHome e /\ teamAway (g e) = teamAway e
             /\ status (g e) = status e) ->
  resolveExisting (g <$> evs) m
  = match head (filter (byExternalId m) evs) with
    | Some c => Some (dbEventToCalendarEvent (g c))
    | None => (fun c => fallbackToCalendarEvent (g c)) <$> head (filter (byTeams m) evs)
    end.
Proof.
  intros Hg. rewrite resolveExisting_unfold.
  rewrite (filter_fmap_commute (byExternalId m) g), (filter_fmap_commute (byTeams m) g).
  - rewrite !head_fmap.
    destruct (head (filter (byExternalId m) evs)); [reflexivity|].
    now destruct (head (filter (byTeams m) evs)).
  - intros e. unfold byTeams. destruct (Hg e) as (-> & _ & -> & -> & ->). tauto.
  - intros e. unfold byExternalId. destruct (Hg e) as (-> & -> & _). tauto.
Qed.

(** A lookup that finds at most one row finds it in every order of the
    rows. *)
Lemma filter_unique_Permutation {A} (P : A -> Prop) `{!forall x, Decision (P x)}
    (l1 l2 : list A) :
  l1 ≡ₚ l2 -> length (filter P l1) <= 1 -> filter P l2 = filter P l1.
Proof.
  intros Hp Hlen.
  assert (filter P l1 ≡ₚ filter P l2) as Hf by now rewrite Hp.
  destruct (filter P l1) as [|a [|b l]].
  - now apply Permutation_nil in Hf.
  - now apply Permutation_length_1_inv in Hf.
  - simpl in Hlen. lia.
Qed.

Lemma resolvesUniquely_Permutation evs1 evs2 m :
  evs1 ≡ₚ evs2 -> resolvesUniquely evs1 m -> resolvesUniquely evs2 m.
Proof.
  intros Hp [H1 H2].
  pose proof (filter_unique_Permutation (byExternalId m) _ _ Hp H1) as He.
  unfold resolvesUniquely. rewrite He. split; [exact H1|].
  intros Hnil. rewrite <- Hp. auto.
Qed.

Lemma resolveExisting_Permutation evs1 evs2 m :
  evs1 ≡ₚ evs2 -> resolvesUniquely evs1 m ->
  resolveExisting evs2 m = resolveExisting evs1 m.
Proof.
  intros Hp [H1 H2]. rewrite !resolveExisting_unfold.
  rewrite (filter_unique_Permutation (byExternalId m) _ _ Hp H1).
  destruct (filter (byExternalId m) evs1) as [|c l] eqn:He; [|reflexivity].
  now rewrite (filter_unique_Permutation (byTeams m) _ _ Hp (H2 eq_refl)).
Qed.

Lemma decide3_Permutation evs1 evs2 maps m :
  evs1 ≡ₚ evs2 -> resolvesUniquely evs1 m -> decide3 evs2 maps m = decide3 evs1 maps m.
Proof.
  intros Hp Hu. unfold decide3. now rewrite (resolveExisting_Permutation evs1 evs2).
Qed.

Lemma resolvesUniquely_fmap (g : CalendarEventDb -> CalendarEventDb) evs m :
  (forall e, source (g e) = source e /\ externalId (g e) = externalId e
             /\ teamHome (g e) = teamHome e /\ teamAway (g e) = teamAway e
             /\ status (g e) = status e) ->
  resolvesUniquely evs m -> resolvesUniquely (g <$> evs) m.
Proof.
  intros Hg [H1 H2]. unfold resolvesUniquely.
  rewrite (filter_fmap_commute (byExternalId m) g), (filter_fmap_commute (byTeams m) g).
  - rewrite !length_fmap. split; [exact H1|].
    intros Hnil. apply fmap_nil_inv in Hnil. auto.
  - intros e. unfold byTeams. destruct (Hg e) as (-> & _ & -> & -> & ->). tauto.
  - intros e. unfold byExternalId. destruct (Hg e) as (-> & -> & _). tauto.
Qed.

(** X14. An edit through [updateCalendarEvent] that gives neither
    [bfvImported] nor [bfvMatchId] never changes which stored event a
    record resolves to, where the record resolves uniquely (at most one
    row carries its external ID and, failing that, at most one active row
    its team names): the edit leaves the id, source, external ID, team
    names and status of every row as they were, and these are all the two
    lookups of the reconciler read. So, when the database rejects
    nothing, the record resolves to the event with the same id before the
    edit and after it, in whatever order the database returns the rows
    after the update, and it still resolves uniquely. *)
Theorem updateCalendarEvent_keeps_resolution s eventId data m evs' :
  rejections s = [] -> p_bfvImported data = None -> p_bfvMatchId data = None ->
  resolvesUniquely (calendarEvents s) m ->
  evs' ≡ₚ calendarEvents (snd (updateCalendarEvent eventId data s)) ->
  ev_id <$> resolveExisting evs' m = ev_id <$> resolveExisting (calendarEvents s) m
  /\ resolvesUniquely evs' m
  /\ Forall2 (fun e e' => id e' = id e /\ source e' = source e
                          /\ externalId e' = externalId e /\ teamHome e' = teamHome e
                          /\ teamAway e' = teamAway e /\ status e' = status e)
       (calendarEvents s) (calendarEvents (snd (updateCalendarEvent eventId data s))).
Proof.
  intros Hrej Hi Hx Hu Hp.
  rewrite (updateCalendarEvent_accepted _ _ _ Hrej) in Hp |- *.
  cbn [calendarEvents withEvents] in Hp |- *.
  set (g := fun e => if decide (id e = eventId)
                     then applyUpdateData (updateData data) e else e) in *.
  assert (forall e, id (g e) = id e /\ source (g e) = source e
                    /\ externalId (g e) = externalId e /\ teamHome (g e) = teamHome e
                    /\ teamAway (g e) = teamAway e /\ status (g e) = status e) as Hg.
  { intros e. unfold g. destruct (decide (id e = eventId)); [|auto 10].
    unfold updateData. simpl. rewrite Hi, Hx. simpl. auto 10. }
  assert (forall e, source (g e) = source e /\ externalId (g e) = externalId e
                    /\ teamHome (g e) = teamHome e /\ teamAway (g e) = teamAway e
                    /\ status (g e) = status e) as Hg'.
  { intros e. apply Hg. }
  pose proof (resolvesUniquely_fmap g _ m Hg' Hu) as Hu'.
  symmetry in Hp. split; [|split].
  - rewrite (resolveExisting_Permutation _ _ m Hp Hu').
    rewrite (resolveExisting_fmap g _ _ Hg'), resolveExisting_unfold.
    destruct (head (filter (byExternalId m) (calendarEvents s))) as [c|]; simpl.
    + f_equal. apply Hg.
    + destruct (head (filter (byTeams m) (calendarEvents s))) as [c|]; simpl;
        [f_equal; apply Hg|reflexivity].
  - exact (resolvesUniquely_Permutation _ _ m Hp Hu').
  - apply Forall2_fmap_r, Forall_Forall2_diag, Forall_forall. intros e _. apply Hg.
Qed.

(** *** The lookup by team names and date *)

(** X15. [getCalendarEventByMatchKey] asks for the date and the inline
    fallback of the reconciler does not: whenever the former finds an
    event for the team names and the date of a record, the fallback query
    finds one too, and it is the same event unless an earlier row of the
    same pairing on another date takes its place. *)
Theorem getCalendarEventByMatchKey_fallback s m ev :
  rejections s = [] ->
  fst (getCalendarEventByMatchKey (m_teamHome m) (m_teamAway m) (m_date m) s) = Ok (Some ev) ->
  exists e,
    head (filter (byTeams m) (calendarEvents s)) = Some e
    /\ (dbEventToCalendarEvent e = ev \/ date e <> m_date m).
Proof.
  destruct s as [evs maps hist n rej]. simpl. intros ->.
  unfold_storage. simpl. intros [= H].
  induction evs as [|x evs IH]; [discriminate|].
  rewrite filter_cons in H. rewrite filter_cons.
  destruct (decide (byTeams m x)) as [Hx|Hx].
  - exists x. split; [reflexivity|].
    destruct (decide _) as [Hd|Hd] in H.
    + left. simpl in H. congruence.
    + right. intros Heq. apply Hd. destruct Hx as (? & ? & ? & ?). auto.
  - destruct (decide _) as [Hd|Hd] in H.
    + destruct Hx. destruct Hd as (? & ? & ? & ? & ?). repeat split; assumption.
    + apply IH, H.
Qed.

(** *** Field mappings *)

Lemma forOf_step {S A} (body : A -> M S unit) x l s :
  forOf (x :: l) body s
  = match body x s with
    | (Ok _, s1) => forOf l body s1
    | (Throw msg, s1) => (Throw msg, s1)
    end.
Proof. reflexivity. Qed.

Lemma createFieldMapping_step x s :
  (let! _ := createFieldMapping x in ret tt) s
  = match rejections s with
    | Some msg :: rest =>
        (Throw msg, withRejections rest (withUuidCounter (S (uuidCounter s)) s))
    | rej =>
        if bool_decide (mappingKeyTaken (fieldMappings s) x)
        then (Throw (uniqueViolation "unique_team_event_type"),
              withRejections (tail rej) (withUuidCounter (S (uuidCounter s)) s))
        else
          (Ok tt,
           {| calendarEvents := calendarEvents s; fieldMappings := fieldMappings s ++ [x];
              bfvImportHistory := bfvImportHistory s; uuidCounter := S (uuidCounter s);
              rejections := tail rej |})
    end.
Proof.
  destruct s as [evs maps hist n [|[msg|] rej]];
    unfold createFieldMapping, insertMapping, randomUUID, dbCall, bind, gets, ret, throw,
      modify;
    cbn [rejections fieldMappings calendarEvents bfvImportHistory uuidCounter
         withUuidCounter withRejections tail];
    try destruct (bool_decide (mappingKeyTaken maps x)); reflexivity.
Qed.

Lemma forOf_createFieldMapping l : forall s,
  let r := forOf l (fun mapping => let! _ := createFieldMapping mapping in ret tt) s in
  calendarEvents (snd r) = calendarEvents s
  /\ exists k,
       fieldMappings (snd r) = fieldMappings s ++ take k l
       /\ (fst r = Ok tt -> k = length l).
Proof.
  induction l as [|x l IH]; intros s.
  - simpl. split; [reflexivity|]. exists 0. rewrite app_nil_r. auto.
  - rewrite forOf_step, createFieldMapping_step.
    assert (forall rej,
      let r := if bool_decide (mappingKeyTaken (fieldMappings s) x)
               then (Throw (uniqueViolation "unique_team_event_type"),
                     withRejections (tail rej) (withUuidCounter (S (uuidCounter s)) s))
               else (Ok tt,
                     {| calendarEvents := calendarEvents s;
                        fieldMappings := fieldMappings s ++ [x];
                        bfvImportHistory := bfvImportHistory s;
                        uuidCounter := S (uuidCounter s);
                        rejections := tail rej |}) in
      let r' := match r with
                | (Ok _, s1) =>
                    forOf l (fun mapping => let! _ := createFieldMapping mapping in ret tt) s1
                | (Throw msg, s1) => (Throw msg, s1)
                end in
      calendarEvents (snd r') = calendarEvents s
      /\ exists k, fieldMappings (snd r') = fieldMappings s ++ take k (x :: l)
                   /\ (fst r' = Ok tt -> k = length (x :: l))) as Hstep.
    { intros rej. cbv zeta. destruct (bool_decide (mappingKeyTaken (fieldMappings s) x)).
      - destruct s; simpl. split; [reflexivity|]. exists 0. rewrite app_nil_r.
        split; [reflexivity|discriminate].
      - match goal with |- context [forOf l ?b ?s1] =>
          destruct (IH s1) as (He & k & Hm & Hk) end.
        cbn [calendarEvents fieldMappings] in He, Hm.
        split; [exact He|]. exists (S k). rewrite Hm, <- app_assoc.
        split; [reflexivity|]. intros H. cbn [length]. now rewrite Hk. }
    destruct (rejections s) as [|[msg|] rej] eqn:Hrej; cbv beta iota zeta.
    + apply (Hstep []).
    + destruct s; simpl. split; [reflexivity|]. exists 0. rewrite app_nil_r.
      split; [reflexivity|discriminate].
    + apply (Hstep (None :: rej)).
Qed.

Lemma filter_True {A} (l : list A) : filter (fun _ => True) l = l.
Proof. induction l as [|x l IH]; [reflexivity|]. now rewrite filter_cons_True, IH. Qed.

Lemma initializeDefaultFieldMappings_eq evs maps hist n rej :
  initializeDefaultFieldMappings
    {| calendarEvents := evs; fieldMappings := maps; bfvImportHistory := hist;
       uuidCounter := n; rejections := rej |}
  = match rej with
    | Some msg :: rest =>
        (Throw msg,
         {| calendarEvents := evs; fieldMappings := maps; bfvImportHistory := hist;
            uuidCounter := n; rejections := rest |})
    | _ =>
        let s1 := {| calendarEvents := evs; fieldMappings := maps; bfvImportHistory := hist;
                     uuidCounter := n; rejections := tail rej |} in
        if (0 <? length maps)%nat then (Ok tt, s1)
        else forOf defaultMappings
               (fun mapping => let! _ := createFieldMapping mapping in ret tt) s1
    end.
Proof.
  unfold initializeDefaultFieldMappings, getAllFieldMappings, selectMappings.
  unfold bind at 1. unfold bind at 1. unfold dbCall, gets. cbn [rejections].
  destruct rej as [|[msg|] rej]; cbn [withRejections fieldMappings tail calendarEvents
    bfvImportHistory uuidCounter rejections]; rewrite ?filter_True;
    try destruct (0 <? length maps)%nat; reflexivity.
Qed.

(** X16. The default field mappings are installed once and never
    completed. On an empty mapping table [initializeDefaultFieldMappings]
    inserts the ten defaults in order, all of them when it returns and a
    prefix of them when the database rejects a call; on a table that holds
    any mapping, a prefix left by an earlier failure included, it inserts
    nothing. The events table is never touched. *)
Theorem initializeDefaultFieldMappings_once s :
  let r := initializeDefaultFieldMappings s in
  calendarEvents (snd r) = calendarEvents s
  /\ match fieldMappings s with
     | [] => exists k, fieldMappings (snd r) = take k defaultMappings
                       /\ (fst r = Ok tt -> k = 10)
     | _ :: _ => fieldMappings (snd r) = fieldMappings s
     end.
Proof.
  cbv zeta. destruct s as [evs maps hist n rej].
  rewrite initializeDefaultFieldMappings_eq. cbn [calendarEvents fieldMappings].
  destruct maps as [|x maps].
  - destruct rej as [|[msg|] rej]; cbv zeta; cbn [length Nat.ltb Nat.leb tail].
    + match goal with |- context [forOf defaultMappings ?b ?s] =>
        destruct (forOf_createFieldMapping defaultMappings s) as (He & k & Hm & Hk) end.
      split; [exact He|]. exists k. split; [exact Hm|exact Hk].
    + split; [reflexivity|]. exists 0. split; [reflexivity|discriminate].
    + match goal with |- context [forOf defaultMappings ?b ?s] =>
        destruct (forOf_createFieldMapping defaultMappings s) as (He & k & Hm & Hk) end.
      split; [exact He|]. exists k. split; [exact Hm|exact Hk].
  - destruct rej as [|[msg|] rej]; split; reflexivity.
Qed.

(** X17. With the default mappings installed on an empty table by a
    database that rejects nothing, the field resolver of the reconciler
    answers the A-Platz for a home game of herren, herren2 and a-jugend,
    the B-Platz for a home game of the b- to g-jugend, and no field for a
    home game of damen and alte-herren, which have no default, nor for any
    away game. *)
Theorem initializeDefaultFieldMappings_resolves s team isHomeGame :
  fieldMappings s = [] -> rejections s = [] ->
  fst (getDefaultFieldForTeam team isHomeGame (snd (initializeDefaultFieldMappings s)))
  = Ok (if isHomeGame then
          match team with
          | herren | herren2 | a_jugend => Some a_platz
          | damen | alte_herren => None
          | _ => Some b_platz
          end
        else None).
Proof.
  destruct s as [evs maps hist n rej]. simpl. intros -> ->.
  destruct isHomeGame; [|reflexivity]. destruct team; reflexivity.
Qed.

Lemma getDefaultField_accepted s team eventType :
  rejections s = [] ->
  fst (getDefaultField team eventType s)
  = Ok (fm_defaultField
          <$> head (filter (fun r => fm_team r = team /\ fm_eventType r = eventType)
                      (fieldMappings s))).
Proof.
  destruct s as [evs maps hist n rej]. simpl. intros ->.
  unfold_storage. simpl. now destruct (filter _ maps).
Qed.

(** X18. A team and event type have at most one mapping: the table's
    unique constraint on the two columns rejects a second one. On a
    database that rejects nothing else, [createFieldMapping] for a team
    and event type that a stored mapping already has throws and leaves the
    mapping table as it was, so [getDefaultField] answers everywhere as
    before; for a team and event type without a mapping it returns the
    new mapping and appends it, and [getDefaultField] then answers the new
    field for that team and event type and as before for every other. In
    neither case does it touch the events, and a table in which no two
    mappings share team and event type stays so. *)
Theorem createFieldMapping_getDefaultField s mapping :
  rejections s = [] ->
  let r := createFieldMapping mapping s in
  calendarEvents (snd r) = calendarEvents s /\ rejections (snd r) = []
  /\ (mappingKeyTaken (fieldMappings s) mapping ->
        (exists msg, fst r = Throw msg)
        /\ fieldMappings (snd r) = fieldMappings s
        /\ forall team eventType,
             fst (getDefaultField team eventType (snd r))
             = fst (getDefaultField team eventType s))
  /\ (~ mappingKeyTaken (fieldMappings s) mapping ->
        fst r = Ok mapping
        /\ fieldMappings (snd r) = fieldMappings s ++ [mapping]
        /\ fst (getDefaultField (fm_team mapping) (fm_eventType mapping) (snd r))
           = Ok (Some (fm_defaultField mapping))
        /\ forall team eventType,
             ~ (fm_team mapping = team /\ fm_eventType mapping = eventType) ->
             fst (getDefaultField team eventType (snd r))
             = fst (getDefaultField team eventType s))
  /\ (NoDup ((fun r => (fm_team r, fm_eventType r)) <$> fieldMappings s) ->
      NoDup ((fun r => (fm_team r, fm_eventType r)) <$> fieldMappings (snd r))).
Proof.
  intros Hrej. cbv zeta.
  assert (createFieldMapping mapping s
          = if bool_decide (mappingKeyTaken (fieldMappings s) mapping)
            then (Throw (uniqueViolation "unique_team_event_type"),
                  withUuidCounter (S (uuidCounter s)) s)
            else (Ok mapping,
                  {| calendarEvents := calendarEvents s;
                     fieldMappings := fieldMappings s ++ [mapping];
                     bfvImportHistory := bfvImportHistory s;
                     uuidCounter := S (uuidCounter s);
                     rejections := [] |})) as ->.
  { destruct s as [evs maps hist n rej]. simpl in Hrej. subst rej.
    unfold createFieldMapping, insertMapping, randomUUID, dbCall, bind, gets, ret, throw,
      modify;
    cbn [rejections fieldMappings calendarEvents bfvImportHistory uuidCounter
         withUuidCounter].
    destruct (bool_decide (mappingKeyTaken maps mapping)); reflexivity. }
  case_bool_decide as Htaken; cbn [fst snd calendarEvents fieldMappings rejections
                                   withUuidCounter].
  - split; [reflexivity|]. split; [exact Hrej|]. split; [|split].
    + intros _. split; [eauto|]. split; [reflexivity|].
      intros team eventType. rewrite !getDefaultField_accepted by exact Hrej. reflexivity.
    + intros Hn. contradiction.
    + auto.
  - split; [reflexivity|]. split; [reflexivity|]. split; [|split].
    + intros Ht. contradiction.
    + intros _. split; [reflexivity|]. split; [reflexivity|].
      assert (forall team eventType,
                filter (fun r => fm_team r = team /\ fm_eventType r = eventType)
                  (fieldMappings s ++ [mapping])
                = filter (fun r => fm_team r = team /\ fm_eventType r = eventType)
                    (fieldMappings s)
                  ++ (if decide (fm_team mapping = team /\ fm_eventType mapping = eventType)
                      then [mapping] else [])) as Hf.
      { intros team eventType. rewrite filter_app. reflexivity. }
      split.
      * rewrite getDefaultField_accepted by reflexivity. cbn [fieldMappings].
        rewrite Hf, decide_True by done.
        assert (filter (fun r => fm_team r = fm_team mapping
                                 /\ fm_eventType r = fm_eventType mapping)
                  (fieldMappings s) = []) as ->; [|reflexivity].
        apply filter_nil_iff. intros r Hr Hkey. apply Htaken.
        apply Exists_exists. eauto.
      * intros team eventType Hne.
        rewrite getDefaultField_accepted by reflexivity.
        rewrite getDefaultField_accepted by exact Hrej. cbn [fieldMappings].
        rewrite Hf, decide_False by exact Hne. now rewrite app_nil_r.
    + intros Hnd. rewrite fmap_app. apply NoDup_app. split; [exact Hnd|].
      split; [|apply NoDup_singleton].
      intros k (r & -> & Hr)%list_elem_of_fmap Hin. apply Htaken.
      apply list_elem_of_singleton in Hin. apply Exists_exists. exists r.
      split; [exact Hr|]. now inversion Hin.
Qed.

(** X19. The admin password read back after [setAdminPassword], when the
    database rejects nothing, is the password that was set, unless that is
    the empty string: an empty password is stored, and [getAdminPassword]
    then answers the default "12345". *)
Theorem setAdminPassword_getAdminPassword db password :
  rejections (tables db) = [] ->
  fst (getAdminPassword (snd (setAdminPassword password db)))
  = Ok (if Js.truthy password then password else "12345").
Proof.
  destruct db as [[evs maps hist n rej] settings]. simpl. intros ->.
  unfold getAdminPassword, setAdminPassword, upsertSetting, selectSettings, driver, dbCall,
    modify, bind, gets, ret. simpl.
  destruct (decide (Exists (fun r => as_key r = "admin_password") settings)) as [Hex|Hex].
  - rewrite (bool_decide_true _ Hex).
    induction settings as [|r settings IH]; [inversion Hex|].
    rewrite fmap_cons, filter_cons.
    destruct (decide (as_key r = "admin_password")) as [Hr|Hr]; simpl.
    + rewrite Hr. simpl. reflexivity.
    + rewrite decide_False by exact Hr. apply IH.
      inversion Hex; subst; [contradiction|assumption].
  - rewrite (bool_decide_false _ Hex). rewrite filter_app.
    replace (filter (fun r => as_key r = "admin_password") settings)
      with (@nil AdminSettingDb).
    + reflexivity.
    + symmetry. apply filter_nil_iff. intros r Hr Hk. apply Hex.
      apply Exists_exists. eauto.
Qed.

(** ** The helpers of the routes *)

(** *** Times of day *)

(** A number below 100 is printed by [padStart(2, "0")] as two code units,
    neither of them a colon, which [Number] reads back. *)
Lemma twoDigits_table :
  forallb (fun n =>
    match JsStr.padStart 2 "0" (JsStr.natToString n) with
    | String a (String b EmptyString) =>
        negb (Ascii.eqb a ":") && negb (Ascii.eqb b ":")
        && match JsStr.toNumber (String a (String b EmptyString)) with
           | Some v => (v =? n)%nat
           | None => false
           end
    | _ => false
    end) (seq 0 100) = true.
Proof. vm_compute. reflexivity. Qed.

Lemma twoDigits n :
  n < 100 ->
  exists a b,
    JsStr.padStart 2 "0" (JsStr.natToString n) = String a (String b EmptyString)
    /\ Ascii.eqb a ":" = false /\ Ascii.eqb b ":" = false
    /\ JsStr.toNumber (String a (String b EmptyString)) = Some n.
Proof.
  intros Hn. pose proof twoDigits_table as H. rewrite forallb_forall in H.
  specialize (H n). rewrite in_seq in H. specialize (H ltac:(lia)).
  destruct (JsStr.padStart 2 "0" (JsStr.natToString n)) as [|a [|b [|]]]; try discriminate.
  exists a, b. destruct (Ascii.eqb a ":"), (Ascii.eqb b ":"); try discriminate.
  destruct (JsStr.toNumber _) as [v|]; [|discriminate].
  simpl in H. apply Nat.eqb_eq in H. subst v. auto.
Qed.

Lemma addHours_two_digits h m hours :
  h < 100 -> m < 100 ->
  addHours (timeOfDay h m) hours = Some (Ok (timeOfDay ((h + hours) mod 24) m)).
Proof.
  intros Hh Hm. unfold timeOfDay at 1.
  destruct (twoDigits h Hh) as (a & b & -> & Ha & Hb & Hnh).
  destruct (twoDigits m Hm) as (c & d & Hpm & Hc & Hd & Hnm).
  rewrite Hpm.
  assert (JsStr.split ":" (String a (String b "") +:+ ":" +:+ String c (String d ""))
          = [String a (String b ""); String c (String d "")]) as Hsplit.
  { cbv [String.append]. cbn [JsStr.split]. rewrite Ha, Hb. cbn [JsStr.split].
    rewrite Hc, Hd. reflexivity. }
  unfold addHours. rewrite Hsplit, Hnh, Hnm. reflexivity.
Qed.

(** X20. [addHours] on a time of day wraps at midnight and keeps the
    minutes: for an hour below 24 and a minute below 60, written as two
    digits each, adding a number of hours gives the hour modulo 24 with
    the same minutes, again as two digits each ("23:00" plus two hours is
    "01:00"); no day is carried. *)
Theorem addHours_wraps h m hours :
  h < 24 -> m < 60 ->
  addHours (timeOfDay h m) hours = Some (Ok (timeOfDay ((h + hours) mod 24) m))
  /\ (h + hours) mod 24 < 24.
Proof.
  intros Hh Hm. split; [apply addHours_two_digits; lia|].
  apply Nat.mod_upper_bound. discriminate.
Qed.

Lemma split_without (c : ascii) s :
  JsStr.includes s (String c EmptyString) = false -> JsStr.split c s = [s].
Proof.
  induction s as [|x s IH]; [reflexivity|].
  cbn [JsStr.includes String.prefix]. intros [Hx Hs]%orb_false_elim.
  cbn [JsStr.split]. rewrite (IH Hs).
  destruct (Ascii.eqb x c) eqn:E; [|reflexivity].
  apply Ascii.eqb_eq in E. subst x.
  destruct (ascii_dec c c); [|contradiction]. now destruct s.
Qed.

(** X21. [addHours] throws on a time without a colon, whatever the time
    holds otherwise: the minutes are [undefined] and the call of their
    [toString] is a TypeError. *)
Theorem addHours_without_colon time hours :
  JsStr.includes time ":" = false ->
  exists msg, addHours time hours = Some (Throw msg).
Proof.
  intros H. unfold addHours. rewrite (split_without ":" time H). eauto.
Qed.

(** *** The conflict check *)

Lemma lt_irrefl a : JsStr.lt a a = false.
Proof. destruct a as [x|]; [apply Z.ltb_irrefl|reflexivity]. Qed.

Lemma conflictOf_sym e1 e2 :
  length (option_list (conflictOf e1 e2)) = length (option_list (conflictOf e2 e1)).
Proof.
  unfold conflictOf.
  destruct (ev_field e1) as [f1|], (ev_field e2) as [f2|]; try reflexivity.
  destruct (decide (ev_date e1 = ev_date e2)) as [Hd|Hd],
           (decide (f1 = f2)) as [Hf|Hf].
  - rewrite (bool_decide_true _ Hd), (bool_decide_true _ Hf),
      (bool_decide_true (ev_date e2 = ev_date e1)), (bool_decide_true (f2 = f1)) by auto.
    simpl. rewrite (andb_comm (JsStr.lt (timeNumber (ev_startTime e2)) _)).
    now destruct (_ && _).
  - rewrite (bool_decide_false _ Hf), (bool_decide_false (f2 = f1)) by auto.
    now rewrite !andb_false_r.
  - rewrite (bool_decide_false _ Hd), (bool_decide_false (ev_date e2 = ev_date e1)) by auto.
    reflexivity.
  - rewrite (bool_decide_false _ Hd), (bool_decide_false (ev_date e2 = ev_date e1)) by auto.
    reflexivity.
Qed.

Lemma omap_cons_length {A B} (f : A -> option B) x (l : list A) :
  length (omap f (x :: l)) = length (option_list (f x)) + length (omap f l).
Proof. unfold omap. cbn [list_omap]. now destruct (f x). Qed.

Lemma omap_length_Permutation {A B} (f : A -> option B) (l l' : list A) :
  l ≡ₚ l' -> length (omap f l) = length (omap f l').
Proof.
  induction 1 as [|x l l' _ IH|x y l|l1 l2 l3 _ IH1 _ IH2];
    rewrite ?omap_cons_length; lia.
Qed.

(** X22. The number of conflicts the check reports does not depend on the
    order in which the events of the range come back from the database:
    the test of a pair is symmetric, and every pair is tested once. *)
Theorem findConflicts_order events events' :
  events ≡ₚ events' -> length (findConflicts events) = length (findConflicts events').
Proof.
  induction 1 as [|x l l' Hp IH|x y l|l1 l2 l3 _ IH1 _ IH2].
  - reflexivity.
  - cbn [findConflicts]. rewrite !length_app, IH, (omap_length_Permutation _ _ _ Hp).
    reflexivity.
  - cbn [findConflicts]. rewrite !length_app, !omap_cons_length, (conflictOf_sym x y). lia.
  - congruence.
Qed.

(** X23. Two events of which one ends at the time the other starts are
    never reported as a conflict, in either order of the pair and whatever
    their dates and fields. *)
Theorem back_to_back_is_no_conflict e1 e2 :
  ev_endTime e1 = ev_startTime e2 ->
  conflictOf e1 e2 = None /\ conflictOf e2 e1 = None.
Proof.
  intros H. unfold conflictOf. rewrite H.
  destruct (ev_field e1), (ev_field e2); try (split; reflexivity).
  split; destruct (_ && _); try reflexivity;
    rewrite lt_irrefl, ?andb_false_r; reflexivity.
Qed.

(** The end time [addHours] gives a game that starts at 22:00 or later is
    a time before 02:00. *)
Lemma late_game_table :
  forallb (fun h => forallb (fun m =>
    match timeNumber (timeOfDay ((h + 2) mod 24) m) with
    | Some v => (v <? 200)%Z
    | None => false
    end) (seq 0 60)) (seq 22 2) = true.
Proof. vm_compute. reflexivity. Qed.

(** X24. A game that starts at 22:00 or later and ends, as the imports
    set it, two hours later by [addHours] has an end time after midnight
    that the check reads as earlier than its start: the check reports no
    conflict between this game and any event that starts at 02:00 or
    later, the events that overlap it on the same evening and field
    included. *)
Theorem late_game_conflicts_unseen h m e1 e2 :
  22 <= h < 24 -> m < 60 ->
  ev_startTime e1 = timeOfDay h m ->
  addHours (ev_startTime e1) 2 = Some (Ok (ev_endTime e1)) ->
  JsStr.lt (timeNumber (ev_startTime e2)) (Some 200%Z) = false ->
  conflictOf e1 e2 = None /\ conflictOf e2 e1 = None.
Proof.
  intros Hh Hm Hs He H2.
  rewrite Hs, addHours_two_digits in He by lia.
  assert (ev_endTime e1 = timeOfDay ((h + 2) mod 24) m) as He' by congruence.
  assert (exists v, timeNumber (ev_endTime e1) = Some v /\ (v < 200)%Z) as (v & Hv & Hlt).
  { pose proof late_game_table as T. rewrite forallb_forall in T.
    specialize (T h). rewrite in_seq in T. specialize (T ltac:(lia)).
    rewrite forallb_forall in T. specialize (T m). rewrite in_seq in T.
    specialize (T ltac:(lia)). rewrite He'.
    destruct (timeNumber (timeOfDay ((h + 2) mod 24) m)) as [v|]; [|discriminate].
    exists v. split; [reflexivity|]. now apply Z.ltb_lt. }
  assert (JsStr.lt (timeNumber (ev_startTime e2)) (timeNumber (ev_endTime e1)) = false) as Hno.
  { rewrite Hv. destruct (timeNumber (ev_startTime e2)) as [w|]; [|reflexivity].
    simpl in *. apply Z.ltb_ge in H2. apply Z.ltb_ge. lia. }
  unfold conflictOf.
  destruct (ev_field e1), (ev_field e2); try (split; reflexivity).
  split; destruct (_ && _); try reflexivity; rewrite Hno, ?andb_false_r; reflexivity.
Qed.

(** *** The external IDs of the PDF import *)

Lemma removeWhiteSpace_idem s : removeWhiteSpace (removeWhiteSpace s) = removeWhiteSpace s.
Proof.
  induction s as [|c s IH]; [reflexivity|]. simpl.
  destruct (Js.isWhiteSpace c) eqn:E; [exact IH|]. simpl. now rewrite E, IH.
Qed.

Lemma pdfExternalId_truthy p : Js.truthy (pdfExternalId p) = true.
Proof. reflexivity. Qed.

(** X25. The PDF import gives every entry a non-empty external ID without
    whitespace, and the reconciler takes it as it is: for an entry the
    callback converts, the external ID the reconciler works with is
    [pdfExternalId], never the match key. *)
Theorem pdfExternalId_verbatim rawData p m :
  pdfToParsedBfvMatch rawData p = Some (Ok m) ->
  generateExternalId m = pdfExternalId p
  /\ pdfExternalId p <> ""
  /\ removeWhiteSpace (pdfExternalId p) = pdfExternalId p.
Proof.
  intros H. unfold pdfToParsedBfvMatch in H.
  destruct (addHours (pdf_time p) 2) as [[endTime|msg]|]; try discriminate.
  injection H as <-. split; [|split].
  - unfold generateExternalId. cbn [m_externalId]. now rewrite pdfExternalId_truthy.
  - discriminate.
  - apply removeWhiteSpace_idem.
Qed.

(** *** Two entries under one external ID *)

Lemma pdfToParsedBfvMatch_ok rawData p h m :
  pdf_time p = timeOfDay h m -> h < 24 -> m < 60 ->
  exists mm, pdfToParsedBfvMatch rawData p = Some (Ok mm)
             /\ generateExternalId mm = pdfExternalId p.
Proof.
  intros Ht Hh Hm. unfold pdfToParsedBfvMatch.
  rewrite Ht, addHours_two_digits by lia. eexists. split; [reflexivity|].
  unfold generateExternalId. cbn [m_externalId]. now rewrite pdfExternalId_truthy.
Qed.

Lemma decide3_found row maps m :
  source row = BFV -> externalId row = Some (generateExternalId m) ->
  decide3 [row] maps m = DoUpdate (dbEventToCalendarEvent row)
  \/ decide3 [row] maps m = DoNothing (dbEventToCalendarEvent row).
Proof.
  intros Hs Hx. unfold decide3. rewrite resolveExisting_unfold.
  rewrite filter_cons_True by (split; assumption). cbn [head].
  destruct (needsUpdate _); auto.
Qed.

(** X26. The external ID of the PDF import is made of the date, the
    time and the first ten code units of each team name: two entries of
    one schedule that agree on these, such as the games of "TSV Greding"
    and of "TSV Greding II" against one opponent at the same hour, are
    one fixture for the reconciler. Imported into an empty events table
    by a database that rejects nothing, they leave one event: the first
    entry creates it, the second is counted as updated or unchanged. *)
Theorem pdf_entries_merge rawData s p1 p2 originalname h m :
  rejections s = [] -> calendarEvents s = [] ->
  h < 24 -> m < 60 ->
  pdf_time p1 = timeOfDay h m -> pdf_time p2 = timeOfDay h m ->
  pdf_date p2 = pdf_date p1 ->
  JsStr.substring0 10 (pdf_homeTeam p2) = JsStr.substring0 10 (pdf_homeTeam p1) ->
  JsStr.substring0 10 (pdf_awayTeam p2) = JsStr.substring0 10 (pdf_awayTeam p1) ->
  exists sm s',
    importPdfMatches rawData s [p1; p2] originalname = Some (Ok sm, s')
    /\ length (calendarEvents s') = 1
    /\ createdCount sm = 1
    /\ updatedCount sm + unchangedCount sm = 1
    /\ errorCount sm = 0.
Proof.
  intros Hrej Hevs Hh Hm Ht1 Ht2 Hd Hhome Haway.
  assert (pdfExternalId p2 = pdfExternalId p1) as Hid.
  { unfold pdfExternalId. now rewrite Ht1, Ht2, Hd, Hhome, Haway. }
  destruct (pdfToParsedBfvMatch_ok rawData p1 h m Ht1 Hh Hm) as (m1 & Hm1 & Hx1).
  destruct (pdfToParsedBfvMatch_ok rawData p2 h m Ht2 Hh Hm) as (m2 & Hm2 & Hx2).
  unfold importPdfMatches. cbn [pdfToParsedBfvMatches]. rewrite Hm1, Hm2.
  rewrite importBfvMatches_eq. cbv zeta.
  unfold frameBeforeHistory, frameAfterLoop. rewrite archiveMissingEvents_off. cbn [snd].
  rewrite forOf_processMatch_accepted by exact Hrej. cbn [snd foldl].
  set (fr1 := stepFrame m1 (initialFrame s)).
  assert (rejections (store (stepFrame m2 fr1)) = []) as -> by exact Hrej.
  do 2 eexists. split; [reflexivity|].
  cbn [calendarEvents withHistory].
  assert (exists row, calendarEvents (store fr1) = [row] /\ source row = BFV
                      /\ externalId row = Some (generateExternalId m2)
                      /\ summary fr1 = incCreated emptySummary) as (row & Hrow & Hs & Hx & Hsm).
  { unfold fr1, stepFrame, eventsAfter, summaryAfter. cbn [store summary initialFrame].
    rewrite Hevs. cbn [decide3 resolveExisting filter list_filter head fmap option_fmap
                       option_map calendarEvents].
    eexists. split; [reflexivity|]. cbn [source externalId insertValues].
    split; [reflexivity|]. split; [now rewrite Hx1, Hx2, Hid|reflexivity]. }
  unfold stepFrame. unfold eventsAfter, summaryAfter.
  cbn [store summary calendarEvents fieldMappings]. rewrite Hrow, Hsm.
  destruct (decide3_found row (fieldMappings (store fr1)) m2 Hs Hx) as [-> | ->].
  - unfold updateById. cbn. repeat split; lia.
  - cbn. repeat split; lia.
Qed.

(** ** The fallback lookup and the edits by hand, followed through a run *)

Lemma decide3_fallback evs maps m c :
  head (filter (byExternalId m) evs) = None ->
  head (filter (byTeams m) evs) = Some c ->
  decide3 evs maps m
  = if needsUpdate (matchNeedsUpdate (fallbackToCalendarEvent c) m (resolvedField maps m))
    then DoUpdate (fallbackToCalendarEvent c) else DoNothing (fallbackToCalendarEvent c).
Proof.
  intros H1 H2. unfold decide3. rewrite resolveExisting_unfold, H1, H2. reflexivity.
Qed.

(** X27. A fixture that is still upstream is archived by the run that
    found it unchanged. When the database rejects nothing and the ids are
    distinct: a record whose external ID no stored event carries, that the
    fallback lookup resolves to an event [c] with another external ID which
    no record of the batch so far has, and on which the change detector
    finds nothing to update, is counted as unchanged and leaves the table
    as it is, so [c] keeps its old external ID; the archival pass that
    follows then archives [c] and counts it. *)
Theorem unchanged_fallback_match_is_archived m fr c x :
  rejections (store fr) = [] ->
  NoDup (id <$> calendarEvents (store fr)) ->
  head (filter (byExternalId m) (calendarEvents (store fr))) = None ->
  head (filter (byTeams m) (calendarEvents (store fr))) = Some c ->
  externalId c = Some x -> x ∉ processedExternalIds fr ->
  needsUpdate (matchNeedsUpdate (fallbackToCalendarEvent c) m
                 (resolvedField (fieldMappings (store fr)) m)) = false ->
  let fr1 := snd (processMatch m fr) in
  let fr2 := snd (archiveMissingEvents true fr1) in
  unchangedCount (summary fr1) = S (unchangedCount (summary fr))
  /\ calendarEvents (store fr1) = calendarEvents (store fr)
  /\ applySet archiveSet c ∈ calendarEvents (store fr2)
  /\ archivedCount (summary fr) < archivedCount (summary fr2)
  /\ unchangedCount (summary fr2) = S (unchangedCount (summary fr)).
Proof.
  intros Hrej Hnd Hprim Hfb Hext Hx Hsame. cbv zeta.
  rewrite (processMatch_accepted m fr Hrej). cbn [snd].
  assert (calendarEvents (store (stepFrame m fr)) = calendarEvents (store fr)
          /\ summary (stepFrame m fr) = incUnchanged (summary fr)) as [Hevs Hsm].
  { unfold stepFrame, eventsAfter, summaryAfter. cbn [store summary calendarEvents].
    rewrite (decide3_fallback _ _ _ _ Hprim Hfb), Hsame. split; reflexivity. }
  split; [now rewrite Hsm|]. split; [exact Hevs|].
  rewrite archiveMissingEvents_accepted.
  2: exact Hrej.
  2: now rewrite Hevs.
  2: { cbn [processedExternalIds stepFrame]. set_solver. }
  cbn [snd store summary calendarEvents withEvents]. rewrite Hevs, Hsm.
  assert (c ∈ calendarEvents (store fr) /\ byTeams m c) as [Hc (Hsrc & _ & _ & Hact)].
  { apply head_Some_elem_of, list_elem_of_filter in Hfb as [? ?]. auto. }
  assert (isMissing (processedExternalIds (stepFrame m fr)) c = true) as Hmiss.
  { apply isMissing_true. split; [exact Hsrc|]. split; [exact Hact|].
    exists x. split; [exact Hext|]. cbn [processedExternalIds stepFrame].
    intros [Hin|Hin]%elem_of_union; [|contradiction].
    apply elem_of_singleton in Hin. subst x.
    apply head_None in Hprim. eapply filter_nil_iff in Hprim; [|exact Hc].
    apply Hprim. split; assumption. }
  split; [|split].
  - unfold archiveMissingRows. apply list_elem_of_fmap. exists c.
    split; [now rewrite Hmiss|exact Hc].
  - cbn [archivedCount addArchived incUnchanged]. unfold countMissing.
    assert (In c (List.filter (isMissing (processedExternalIds (stepFrame m fr)))
                    (calendarEvents (store fr)))) as Hin.
    { apply filter_In. split; [now apply list_elem_of_In|exact Hmiss]. }
    destruct (List.filter _ _); [destruct Hin|]. simpl. lia.
  - reflexivity.
Qed.

Lemma needsUpdate_other_date ex m f :
  ev_date ex <> m_date m -> needsUpdate (matchNeedsUpdate ex m f) = true.
Proof.
  intros Hd. apply needsUpdate_changes. rewrite matchNeedsUpdate_changes.
  rewrite (bool_decide_true _ Hd). discriminate.
Qed.

Lemma needsUpdate_other_startTime ex m f :
  ev_startTime ex <> m_startTime m -> needsUpdate (matchNeedsUpdate ex m f) = true.
Proof.
  intros Hd. apply needsUpdate_changes. rewrite matchNeedsUpdate_changes.
  rewrite (bool_decide_true (ev_startTime ex <> m_startTime m)) by exact Hd.
  destruct (bool_decide (ev_date ex <> m_date m)); discriminate.
Qed.

(** X28. The fallback lookup does not look at the date, so a new fixture
    of a pairing overwrites the stored event of an earlier one. When the
    database rejects nothing and the ids are distinct: for a record whose
    external ID no stored event carries and whose team names are those of
    an active externally-sourced event on another date, the first such
    event in the table, the iteration creates no row; it rewrites that
    event in place, which then has the date and the external ID of the
    record, and counts the record as updated. *)
Theorem fallback_overwrites_other_date m fr l1 e l2 :
  rejections (store fr) = [] ->
  NoDup (id <$> calendarEvents (store fr)) ->
  calendarEvents (store fr) = l1 ++ e :: l2 ->
  byTeams m e -> date e <> m_date m ->
  (forall r, r ∈ calendarEvents (store fr) -> ~ byExternalId m r) ->
  (forall r, r ∈ l1 -> ~ byTeams m r) ->
  let fr' := snd (processMatch m fr) in
  let e' := applySet (updateSet m (generateExternalId m) (matchTitle m)
                        (resolvedField (fieldMappings (store fr)) m)) e in
  calendarEvents (store fr') = l1 ++ e' :: l2
  /\ id e' = id e /\ date e' = m_date m /\ externalId e' = Some (generateExternalId m)
  /\ createdCount (summary fr') = createdCount (summary fr)
  /\ updatedCount (summary fr') = S (updatedCount (summary fr)).
Proof.
  intros Hrej Hnd Hevs He Hd Hno Hfirst. cbv zeta.
  rewrite (processMatch_accepted m fr Hrej).
  pose proof (resolveExisting_fallback _ m l1 e l2 Hevs He Hno Hfirst) as Hres.
  unfold stepFrame. cbn [snd store summary calendarEvents].
  unfold eventsAfter, summaryAfter, decide3. rewrite Hres.
  rewrite needsUpdate_other_date by exact Hd.
  cbn [ev_id fallbackToCalendarEvent]. rewrite Hevs.
  rewrite updateById_split by (rewrite <- Hevs; exact Hnd).
  repeat split.
Qed.

(** *** Edits by hand and the next import *)

Lemma matchNeedsUpdate_ext ex ex' m f :
  ev_date ex' = ev_date ex -> ev_startTime ex' = ev_startTime ex ->
  ev_endTime ex' = ev_endTime ex -> ev_field ex' = ev_field ex ->
  ev_location ex' = ev_location ex -> ev_competition ex' = ev_competition ex ->
  matchNeedsUpdate ex' m f = matchNeedsUpdate ex m f.
Proof. intros H1 H2 H3 H4 H5 H6. unfold matchNeedsUpdate. now rewrite H1, H2, H3, H4, H5, H6. Qed.

(** X29. The reconciler does not see an edit of the columns its change
    detector does not compare. After an edit through [updateCalendarEvent]
    that gives none of date, times, field, location, competition,
    [bfvImported] and [bfvMatchId] (so it changes at most title, type,
    team, home flag, opponent and description), a record that resolves
    uniquely and that the table reflected before the edit is still
    reflected, in whatever order the database returns the rows after the
    update: its next iteration, with a database that rejects nothing,
    changes no row and counts it as unchanged, so the edited title and
    opponent stay as edited. *)
Theorem edits_outside_detector_survive s eventId data m s' :
  rejections s = [] ->
  p_date data = None -> p_startTime data = None -> p_endTime data = None ->
  p_field data = None -> p_location data = None -> p_competition data = None ->
  p_bfvImported data = None -> p_bfvMatchId data = None ->
  resolvesUniquely (calendarEvents s) m ->
  settled (calendarEvents s) (fieldMappings s) m ->
  rejections s' = [] -> fieldMappings s' = fieldMappings s ->
  calendarEvents s' ≡ₚ calendarEvents (snd (updateCalendarEvent eventId data s)) ->
  let fr' := snd (processMatch m (initialFrame s')) in
  settled (calendarEvents s') (fieldMappings s') m
  /\ calendarEvents (store fr') = calendarEvents s'
  /\ unchangedCount (summary fr') = 1.
Proof.
  intros Hrej Hd Hs He Hf Hl Hc Hi Hx Hu [ex Hset] Hrej' Hmaps Hp. cbv zeta.
  rewrite (updateCalendarEvent_accepted _ _ _ Hrej) in Hp.
  cbn [calendarEvents withEvents] in Hp.
  set (g := fun e => if decide (id e = eventId)
                     then applyUpdateData (updateData data) e else e) in *.
  assert (forall e, source (g e) = source e /\ externalId (g e) = externalId e
                    /\ teamHome (g e) = teamHome e /\ teamAway (g e) = teamAway e
                    /\ status (g e) = status e) as Hg.
  { intros e. unfold g. destruct (decide (id e = eventId)); [|auto 10].
    unfold updateData. simpl. rewrite Hi, Hx. simpl. auto 10. }
  assert (forall e, date (g e) = date e /\ startTime (g e) = startTime e
                    /\ endTime (g e) = endTime e /\ field (g e) = field e
                    /\ location (g e) = location e /\ competition (g e) = competition e)
    as Hg'.
  { intros e. unfold g. destruct (decide (id e = eventId)); [|auto 10].
    unfold updateData. simpl. rewrite Hd, Hs, He, Hf, Hl, Hc. simpl. auto 10. }
  assert (exists ex', decide3 (g <$> calendarEvents s) (fieldMappings s) m = DoNothing ex')
    as [ex' Hset'].
  { unfold decide3 in Hset |- *. rewrite (resolveExisting_fmap g _ _ Hg).
    rewrite resolveExisting_unfold in Hset.
    destruct (head (filter (byExternalId m) (calendarEvents s))) as [c|].
    - rewrite (matchNeedsUpdate_ext (dbEventToCalendarEvent c) (dbEventToCalendarEvent (g c)));
        try apply Hg'.
      destruct (needsUpdate _); [discriminate|eauto].
    - destruct (head (filter (byTeams m) (calendarEvents s))) as [c|]; [|discriminate].
      cbn [fmap option_fmap option_map] in Hset |- *.
      rewrite (matchNeedsUpdate_ext (fallbackToCalendarEvent c) (fallbackToCalendarEvent (g c)));
        try apply Hg'.
      destruct (needsUpdate _); [discriminate|eauto]. }
  assert (decide3 (calendarEvents s') (fieldMappings s') m = DoNothing ex') as Hset''.
  { rewrite Hmaps, (decide3_Permutation (g <$> calendarEvents s)); [exact Hset'| |].
    - symmetry. exact Hp.
    - apply resolvesUniquely_fmap; assumption. }
  split; [exists ex'; exact Hset''|].
  rewrite processMatch_accepted by exact Hrej'.
  unfold stepFrame, eventsAfter, summaryAfter.
  cbn [snd store summary calendarEvents fieldMappings initialFrame withEvents].
  rewrite Hset''. split; reflexivity.
Qed.

(** X30. Upstream wins over an edit of the kick-off time. After an edit
    through [updateCalendarEvent] that sets the start time of the event a
    record resolves to, uniquely, and gives neither [bfvImported] nor
    [bfvMatchId], to a time other than the record's, the next iteration
    for the record, with a database that rejects nothing and in whatever
    order it returns the rows after the update, updates the event: the
    table has a row with that id, every row with that id has the start
    time of the record again, and the record is counted as updated. *)
Theorem edited_time_is_reverted s eventId data m t ex s' :
  rejections s = [] ->
  p_bfvImported data = None -> p_bfvMatchId data = None ->
  p_startTime data = Some t -> t <> m_startTime m ->
  resolvesUniquely (calendarEvents s) m ->
  resolveExisting (calendarEvents s) m = Some ex -> ev_id ex = eventId ->
  rejections s' = [] ->
  calendarEvents s' ≡ₚ calendarEvents (snd (updateCalendarEvent eventId data s)) ->
  let fr' := snd (processMatch m (initialFrame s')) in
  updatedCount (summary fr') = 1
  /\ length (calendarEvents (store fr')) = length (calendarEvents s)
  /\ Exists (fun e => id e = eventId) (calendarEvents (store fr'))
  /\ Forall (fun e => id e = eventId -> startTime e = m_startTime m)
       (calendarEvents (store fr')).
Proof.
  intros Hrej Hi Hx Ht Hne Hu Hres Hid Hrej' Hp. cbv zeta.
  rewrite (updateCalendarEvent_accepted _ _ _ Hrej) in Hp.
  cbn [calendarEvents withEvents] in Hp.
  set (g := fun e => if decide (id e = eventId)
                     then applyUpdateData (updateData data) e else e) in *.
  assert (forall e, source (g e) = source e /\ externalId (g e) = externalId e
                    /\ teamHome (g e) = teamHome e /\ teamAway (g e) = teamAway e
                    /\ status (g e) = status e) as Hg.
  { intros e. unfold g. destruct (decide (id e = eventId)); [|auto 10].
    unfold updateData. simpl. rewrite Hi, Hx. simpl. auto 10. }
  assert (forall e, id (g e) = id e) as Hgid.
  { intros e. unfold g. now destruct (decide (id e = eventId)). }
  assert (forall e, id e = eventId -> startTime (g e) = t) as Hgt.
  { intros e He. unfold g. rewrite decide_True by exact He.
    unfold updateData. simpl. now rewrite Ht. }
  rewrite processMatch_accepted by exact Hrej'.
  unfold stepFrame, eventsAfter, summaryAfter.
  cbn [snd store summary calendarEvents fieldMappings initialFrame withEvents].
  assert (exists ex', decide3 (g <$> calendarEvents s) (fieldMappings s') m = DoUpdate ex'
                      /\ ev_id ex' = eventId) as (ex' & Hdec & Hid').
  { unfold decide3. rewrite (resolveExisting_fmap g _ _ Hg).
    rewrite resolveExisting_unfold in Hres.
    destruct (head (filter (byExternalId m) (calendarEvents s))) as [c|].
    - injection Hres as <-. cbn [ev_id dbEventToCalendarEvent] in Hid.
      rewrite needsUpdate_other_startTime.
      + eexists. split; [reflexivity|]. cbn [ev_id dbEventToCalendarEvent]. now rewrite Hgid.
      + cbn [ev_startTime dbEventToCalendarEvent]. now rewrite (Hgt c Hid).
    - destruct (head (filter (byTeams m) (calendarEvents s))) as [c|]; [|discriminate].
      cbn [fmap option_fmap option_map] in Hres |- *.
      injection Hres as <-. cbn [ev_id fallbackToCalendarEvent] in Hid.
      rewrite needsUpdate_other_startTime.
      + eexists. split; [reflexivity|]. cbn [ev_id fallbackToCalendarEvent]. now rewrite Hgid.
      + cbn [ev_startTime fallbackToCalendarEvent]. now rewrite (Hgt c Hid). }
  rewrite (decide3_Permutation (g <$> calendarEvents s) (calendarEvents s')), Hdec.
  2: symmetry; exact Hp.
  2: apply resolvesUniquely_fmap; assumption.
  split; [reflexivity|]. split; [|split].
  - unfold updateById. rewrite length_fmap, Hp. now rewrite length_fmap.
  - apply resolveExisting_Some in Hres as (c & Hc & Hcid & _).
    apply Exists_exists.
    assert (eventId ∈ id <$> updateById
              (updateSet m (generateExternalId m) (matchTitle m)
                 (resolvedField (fieldMappings s') m)) (ev_id ex') (calendarEvents s'))
      as (e & He & Hin)%list_elem_of_fmap.
    { rewrite ids_updateById, Hp, <- list_fmap_compose.
      apply list_elem_of_fmap. exists c. split; [|exact Hc].
      simpl. now rewrite Hgid, Hcid. }
    eauto.
  - apply Forall_forall. intros e' (e & He & [[_ ->]|[Hn ->]])%elem_of_updateById.
    + intros _. reflexivity.
    + intros Heq. rewrite Hid' in Hn. contradiction.
Qed.

(** ** The further properties at concrete inputs *)

Lemma generateExternalId_normalises_witness :
  generateExternalId exampleMatchShouted = generateExternalId exampleMatch.
Proof.
  apply generateExternalId_normalises; try reflexivity.
  - exists " ", "SV A", "", "", "SV A", "". repeat split; try reflexivity. same_up_to_case.
  - exists "", "CLUB", " ", "", "Club", "". repeat split; try reflexivity. same_up_to_case.
  - right. exists "KREISLIGA ", "Kreisliga". repeat split; try reflexivity.
    exists "", "KREISLIGA", " ", "", "Kreisliga", "". repeat split; try reflexivity.
    same_up_to_case.
Defined.

Lemma parseTeamFromName_case_witness :
  parseTeamFromName "TSV GREDING II" None = parseTeamFromName "tsv Greding ii" None
  /\ parseTeamFromName "TSV GREDING II" (Some damen) = damen.
Proof.
  destruct (parseTeamFromName_case "TSV GREDING II" "tsv Greding ii" None) as [H1 H2].
  - same_up_to_case.
  - split; [exact H1|apply H2].
Defined.

Lemma parseTeamFromName_ah_witness :
  parseTeamFromName "SV Jahn II" None <> herren
  /\ parseTeamFromName "SV Jahn II" None <> herren2.
Proof. apply (parseTeamFromName_ah "SV J" "ah" "n II"). same_up_to_case. Defined.

Lemma importBfvMatches_keeps_primary_key_witness :
  wellKeyed (snd (importBfvMatches sampleStore sampleBatch None true)).
Proof. apply importBfvMatches_keeps_primary_key, sampleStore_wellKeyed. Defined.

Lemma mixedStore_wellKeyed : wellKeyed mixedStore.
Proof.
  split.
  - apply (bool_decide_unpack _). vm_compute. exact I.
  - intros e [->|[->|H]%elem_of_cons]%elem_of_cons; [simpl; lia..|inversion H].
Defined.

Lemma importBfvMatches_spares_manual_witness :
  calendarEvents (snd (importBfvMatches mixedStore sampleBatch None true)) !! 1
  = Some trainingEvent.
Proof.
  apply importBfvMatches_spares_manual; [exact mixedStore_wellKeyed|reflexivity..].
Defined.

Lemma importBfvMatches_keeps_unique_external_witness :
  uniqueExternal (calendarEvents (snd (importBfvMatches mixedStore sampleBatch None true))).
Proof.
  apply importBfvMatches_keeps_unique_external; [exact mixedStore_wellKeyed|].
  apply (bool_decide_unpack _). vm_compute. exact I.
Defined.

(** The database rejects the update of the pass: the fixture that was not
    seen stays active and [archivedCount] stays 0. *)
Lemma archiveMissingEvents_sound_witness :
  Forall2 (archivedOrKept {[ "bfv-1" ]})
    [storedOldEvent; storedHomeEvent; trainingEvent]
    (calendarEvents (store (snd (archiveMissingEvents true archivalFrame))))
  /\ archivedCount (summary (snd (archiveMissingEvents true archivalFrame))) + 0
     = 0 + countArchived
             (calendarEvents (store (snd (archiveMissingEvents true archivalFrame)))).
Proof.
  apply (archiveMissingEvents_sound true archivalFrame).
  apply (bool_decide_unpack _). vm_compute. exact I.
Defined.


Lemma deleteCalendarEvent_getCalendarEvent_witness :
  fst (deleteCalendarEvent 1 sampleStore) = Ok true
  /\ fst (getCalendarEvent 1 (snd (deleteCalendarEvent 1 sampleStore))) = Ok None.
Proof.
  destruct (deleteCalendarEvent_getCalendarEvent sampleStore 1) as (Hdel & Hget & _).
  - reflexivity.
  - split; [rewrite Hdel; vm_compute; reflexivity|]. cbv zeta in Hget. now rewrite Hget.
Defined.

Lemma archived_event_survives_import_witness :
  Forall (fun e => id e = 0 -> status e = ARCHIVED)
    (calendarEvents (store (snd (processMatch homeMatchLater
       (withStore (snd (archiveCalendarEvent 0 (storeOf [storedHomeEvent] [herrenOnAPlatz] 1 [])))
          (initialFrame (storeOf [storedHomeEvent] [herrenOnAPlatz] 1 []))))))).
Proof.
  destruct (archived_event_survives_import homeMatchLater
              (initialFrame (storeOf [storedHomeEvent] [herrenOnAPlatz] 1 []))
              storedHomeEvent) as (_ & _ & _ & _ & H).
  - reflexivity.
  - left.
  - reflexivity.
  - reflexivity.
  - exact H.
Defined.

Lemma twoLegs_resolvesUniquely : resolvesUniquely (calendarEvents twoLegs) homeMatch.
Proof. split; [vm_compute; lia|]. intros H. vm_compute in H. discriminate. Qed.

(** The kick-off of the first leg is edited and the database returns the
    edited row last: the fixture still resolves to the row with id 0. *)
Lemma updateCalendarEvent_keeps_resolution_witness :
  id <$> calendarEvents (twoLegsAfter kickOffEdit) = [2; 0]
  /\ ev_id <$> resolveExisting (calendarEvents (twoLegsAfter kickOffEdit)) homeMatch = Some 0.
Proof.
  split; [reflexivity|].
  pose proof (updateCalendarEvent_keeps_resolution twoLegs 0 kickOffEdit homeMatch
                (calendarEvents (twoLegsAfter kickOffEdit))
                eq_refl eq_refl eq_refl twoLegs_resolvesUniquely
                (reverse_Permutation _)) as [H _].
  rewrite H. reflexivity.
Defined.

(** Where two active rows carry the team names of a record and none its
    external ID, the fallback resolves to whichever row the database
    returns first: such a record does not resolve uniquely. *)
Example fallback_follows_row_order :
  ev_id <$> resolveExisting [storedHomeEvent; storedSecondLegEvent] homeMatchRenumbered
  = Some 0
  /\ ev_id <$> resolveExisting [storedSecondLegEvent; storedHomeEvent] homeMatchRenumbered
     = Some 2
  /\ ~ resolvesUniquely [storedHomeEvent; storedSecondLegEvent] homeMatchRenumbered.
Proof.
  split; [reflexivity|]. split; [reflexivity|].
  intros [_ H]. specialize (H eq_refl). vm_compute in H. lia.
Qed.

(** The second leg is found by teams and date; the inline fallback finds
    the first leg, which is earlier in the table. *)
Lemma getCalendarEventByMatchKey_fallback_witness :
  exists e,
    head (filter (byTeams homeMatchSecondLeg) [storedHomeEvent; storedSecondLegEvent]) = Some e
    /\ (dbEventToCalendarEvent e = dbEventToCalendarEvent storedSecondLegEvent
        \/ date e <> m_date homeMatchSecondLeg).
Proof.
  apply (getCalendarEventByMatchKey_fallback
           (storeOf [storedHomeEvent; storedSecondLegEvent] [] 3 []) homeMatchSecondLeg).
  - reflexivity.
  - vm_compute. reflexivity.
Defined.

Lemma initializeDefaultFieldMappings_resolves_witness :
  fst (getDefaultFieldForTeam damen true (snd (initializeDefaultFieldMappings (emptyStore []))))
  = Ok None.
Proof. apply (initializeDefaultFieldMappings_resolves (emptyStore []) damen true); reflexivity. Defined.

(** A second mapping for the herren games is refused and the A-Platz stays
    their field; on an empty table the mapping is created. *)
Lemma createFieldMapping_getDefaultField_witness :
  (exists msg, fst (createFieldMapping herrenOnBPlatz sampleStore) = Throw msg)
  /\ fieldMappings (snd (createFieldMapping herrenOnBPlatz sampleStore)) = [herrenOnAPlatz]
  /\ fst (getDefaultField herren spiel (snd (createFieldMapping herrenOnBPlatz sampleStore)))
     = Ok (Some a_platz).
Proof.
  destruct (createFieldMapping_getDefaultField sampleStore herrenOnBPlatz eq_refl)
    as (_ & _ & Htaken & _).
  destruct Htaken as (Hthrow & Hmaps & Hsame).
  - apply Exists_cons_hd. split; reflexivity.
  - split; [exact Hthrow|]. split; [exact Hmaps|]. rewrite Hsame. reflexivity.
Defined.

Lemma setAdminPassword_getAdminPassword_witness :
  fst (getAdminPassword
         (snd (setAdminPassword "" {| tables := emptyStore []; adminSettings := [] |})))
  = Ok "12345".
Proof.
  apply (setAdminPassword_getAdminPassword {| tables := emptyStore []; adminSettings := [] |} "").
  reflexivity.
Defined.

Lemma addHours_wraps_witness : addHours "23:00" 2 = Some (Ok "01:00").
Proof. apply (addHours_wraps 23 0 2); lia. Defined.

Lemma addHours_without_colon_witness : exists msg, addHours "1900" 2 = Some (Throw msg).
Proof. apply addHours_without_colon. reflexivity. Defined.

Lemma findConflicts_order_witness :
  length (findConflicts [dbEventToCalendarEvent storedHomeEvent;
                         dbEventToCalendarEvent trainingEvent])
  = length (findConflicts [dbEventToCalendarEvent trainingEvent;
                           dbEventToCalendarEvent storedHomeEvent]).
Proof. apply findConflicts_order. apply perm_swap. Defined.

Lemma back_to_back_is_no_conflict_witness :
  conflictOf (dbEventToCalendarEvent storedHomeEvent) (dbEventToCalendarEvent trainingAfterGame)
  = None
  /\ conflictOf (dbEventToCalendarEvent trainingAfterGame) (dbEventToCalendarEvent storedHomeEvent)
     = None.
Proof. apply back_to_back_is_no_conflict. reflexivity. Defined.

(** The training from 21:00 to 23:00 overlaps the game that starts at
    22:30 on the same field, and no conflict is reported. *)
Lemma late_game_conflicts_unseen_witness :
  conflictOf (dbEventToCalendarEvent lateGame) (dbEventToCalendarEvent lateTraining) = None
  /\ conflictOf (dbEventToCalendarEvent lateTraining) (dbEventToCalendarEvent lateGame) = None.
Proof.
  apply (late_game_conflicts_unseen 22 30); try reflexivity; lia.
Defined.

Lemma pdfExternalId_verbatim_witness :
  generateExternalId pdfFirstTeamMatch = pdfExternalId pdfFirstTeam
  /\ pdfExternalId pdfFirstTeam <> ""
  /\ removeWhiteSpace (pdfExternalId pdfFirstTeam) = pdfExternalId pdfFirstTeam.
Proof. apply (pdfExternalId_verbatim pdfJson). reflexivity. Defined.

Lemma pdf_entries_merge_witness :
  exists sm s',
    importPdfMatches pdfJson (emptyStore [herrenOnAPlatz]) [pdfFirstTeam; pdfSecondTeam]
      "spielplan.pdf" = Some (Ok sm, s')
    /\ length (calendarEvents s') = 1
    /\ createdCount sm = 1
    /\ updatedCount sm + unchangedCount sm = 1
    /\ errorCount sm = 0.
Proof. apply (pdf_entries_merge _ _ _ _ _ 15 0); try reflexivity; lia. Defined.

(** [homeMatchRenumbered] is [homeMatch] under another ID: the run counts
    it unchanged and archives the event of [homeMatch]. *)
Lemma unchanged_fallback_match_is_archived_witness :
  applySet archiveSet storedHomeEvent
  ∈ calendarEvents (store (snd (archiveMissingEvents true
       (snd (processMatch homeMatchRenumbered
               (initialFrame (storeOf [storedHomeEvent] [] 1 [])))))))
  /\ unchangedCount (summary (snd (archiveMissingEvents true
       (snd (processMatch homeMatchRenumbered
               (initialFrame (storeOf [storedHomeEvent] [] 1 []))))))) = 1.
Proof.
  destruct (unchanged_fallback_match_is_archived homeMatchRenumbered
              (initialFrame (storeOf [storedHomeEvent] [] 1 [])) storedHomeEvent "bfv-1")
    as (_ & _ & Hin & _ & Hcount).
  - reflexivity.
  - apply NoDup_singleton.
  - reflexivity.
  - reflexivity.
  - reflexivity.
  - set_solver.
  - vm_compute. reflexivity.
  - split; [exact Hin|exact Hcount].
Defined.

(** The second leg of the pairing takes the place of the first. *)
Lemma fallback_overwrites_other_date_witness :
  date <$> calendarEvents (store (snd (processMatch homeMatchSecondLeg
             (initialFrame (storeOf [storedHomeEvent] [] 1 [])))))
  = ["2026-05-10"]
  /\ externalId <$> calendarEvents (store (snd (processMatch homeMatchSecondLeg
             (initialFrame (storeOf [storedHomeEvent] [] 1 [])))))
     = [Some "bfv-3"].
Proof.
  destruct (fallback_overwrites_other_date homeMatchSecondLeg
              (initialFrame (storeOf [storedHomeEvent] [] 1 [])) [] storedHomeEvent [])
    as (Hevs & _ & Hd & Hx & _).
  - reflexivity.
  - apply NoDup_singleton.
  - reflexivity.
  - repeat split.
  - discriminate.
  - intros r ->%list_elem_of_singleton [_ H]. discriminate H.
  - intros r H. inversion H.
  - rewrite Hevs. cbn [fmap list_fmap app]. rewrite Hd, Hx. split; reflexivity.
Defined.

(** The title of the first leg is edited and the database returns the
    edited row last: the next run leaves both rows as they are. *)
Lemma edits_outside_detector_survive_witness :
  title <$> calendarEvents (store (snd (processMatch homeMatch
              (initialFrame (twoLegsAfter titleEdit)))))
  = ["TSV Greding vs SV A"; "Derby"]
  /\ unchangedCount (summary (snd (processMatch homeMatch
              (initialFrame (twoLegsAfter titleEdit))))) = 1.
Proof.
  destruct (edits_outside_detector_survive twoLegs 0 titleEdit homeMatch
              (twoLegsAfter titleEdit)) as (_ & Hevs & Hcount); try reflexivity.
  - exact twoLegs_resolvesUniquely.
  - eexists. vm_compute. reflexivity.
  - apply reverse_Permutation.
  - split; [|exact Hcount]. cbv zeta in Hevs. rewrite Hevs. reflexivity.
Defined.

(** The kick-off of the first leg is edited and the database returns the
    edited row last: the next run sets the kick-off back. *)
Lemma edited_time_is_reverted_witness :
  Forall (fun e => id e = 0 -> startTime e = "15:00")
    (calendarEvents (store (snd (processMatch homeMatch
       (initialFrame (twoLegsAfter kickOffEdit))))))
  /\ Exists (fun e => id e = 0)
       (calendarEvents (store (snd (processMatch homeMatch
          (initialFrame (twoLegsAfter kickOffEdit))))))
  /\ updatedCount (summary (snd (processMatch homeMatch
       (initialFrame (twoLegsAfter kickOffEdit))))) = 1.
Proof.
  destruct (edited_time_is_reverted twoLegs 0 kickOffEdit homeMatch "18:00"
              (dbEventToCalendarEvent storedHomeEvent) (twoLegsAfter kickOffEdit))
    as (Hcount & _ & Hex & Hall); try reflexivity.
  - discriminate.
  - exact twoLegs_resolvesUniquely.
  - apply reverse_Permutation.
  - split; [exact Hall|]. split; [exact Hex|exact Hcount].
Defined.
